(** * synphot.spectrum: a shallow embedding of the spectral algebra

    The development follows [src/synphot/spectrum.py]: the base class
    [BaseSpectrum] with its constructor, [merge_wave], [resample],
    [_operate_on], [integrate], [check_overlap] and [taper]; the unitless
    classes [BaseUnitlessSpectrum] / [SpectralElement]; and
    [SourceSpectrum] with [add_mag], [convert_flux], [apply_redshift] and
    [renorm].

    Conventions.
    - Python floats are idealised as exact rationals ([Qc]); NaN and
      infinities have no counterpart.
    - A raised exception is a value [Raise e] of the [result] type.
    - Instances are immutable records; an in-place method returns the
      updated record, so the receiver is unchanged whenever the method
      raises.
    - [astropy.units] and [synphot.units] are an interface ([UnitSystem]);
      [numpy] routines are written out from their documented behaviour. *)

From stdpp Require Import gmap strings list fin_maps numbers pretty sorting.
From Stdlib Require Import QArith Qcanon.

Open Scope Qc_scope.

(** ** Exceptions and the error monad *)

Inductive Exc :=
  | SynphotError | IncompatibleSources | DisjointError | PartialOverlap
  | DuplicateWavelength | UnsortedWavelength | ZeroWavelength
  | ValueError | IndexError | KeyError | AttributeError | UnitsError.

Inductive result (A : Type) :=
  | Ok (a : A)
  | Raise (e : Exc).
Arguments Ok {A} a.
Arguments Raise {A} e.

#[global] Instance result_ret : MRet result := λ A a, Ok a.
#[global] Instance result_bind : MBind result := λ A B k m,
  match m with
  | Ok a => k a
  | Raise e => Raise e
  end.

(** What a computation returned, and [d] when it raised. *)
Definition returned {A} (d : A) (m : result A) : A :=
  match m with
  | Ok a => a
  | Raise _ => d
  end.

#[global] Instance Exc_eq_dec : EqDecision Exc.
Proof. solve_decision. Defined.

#[global] Instance result_eq_dec A `{EqDecision A} : EqDecision (result A).
Proof. solve_decision. Defined.

(** The computation at the head of a chain of binds. *)
Ltac head_bind t :=
  lazymatch t with
  | mbind _ ?m => head_bind m
  | _ => t
  end.

(** In a goal [chain = r → _], case on the outcome of the first call of the
    chain; a raised exception propagates. *)
Ltac step_bind :=
  lazymatch goal with
  | |- ?lhs = _ → _ =>
      let h := head_bind lhs in
      destruct h eqn:?; [cbn | try discriminate]
  end.

(** Closed equations are settled by evaluation. *)
Ltac by_compute := apply (bool_decide_unpack _); vm_compute; exact I.

(** ** Numbers *)

Definition qz (z : Z) : Qc := Q2Qc (inject_Z z).
Definition qfrac (n : Z) (d : positive) : Qc := Q2Qc (n # d).

(** ** numpy *)

Module np.

Definition minimum (x y : Qc) : Qc := if decide (y < x) then y else x.
Definition maximum (x y : Qc) : Qc := if decide (x < y) then y else x.

(** [a.min()] and [a.max()]: a zero-size array raises [ValueError]. *)
Definition min (a : list Qc) : result Qc :=
  match a with
  | [] => Raise ValueError
  | x :: a' => Ok (foldl minimum x a')
  end.

Definition max (a : list Qc) : result Qc :=
  match a with
  | [] => Raise ValueError
  | x :: a' => Ok (foldl maximum x a')
  end.

(** [a[0]] and [a[-1]]; [a[1]] and [a[-2]]. *)
Definition first (a : list Qc) : result Qc :=
  match a with
  | [] => Raise IndexError
  | x :: _ => Ok x
  end.

Definition last (a : list Qc) : result Qc := first (reverse a).

Definition second (a : list Qc) : result Qc :=
  match a with
  | _ :: x :: _ => Ok x
  | _ => Raise IndexError
  end.

Definition second_last (a : list Qc) : result Qc := second (reverse a).

(** [np.insert(a, 0, x)] and [np.insert(a, a.size, x)]. *)
Definition insert_front (a : list Qc) (x : Qc) : list Qc := x :: a.
Definition insert_back (a : list Qc) (x : Qc) : list Qc := a ++ [x].

(** [np.interp(x, xp, fp)] for increasing [xp]: [fp[0]] left of the grid,
    [fp[-1]] right of it, and on the segment [xp[j] <= x < xp[j+1]] the
    value [slope * (x - xp[j]) + fp[j]]. *)
Fixpoint interp_from (x x0 y0 : Qc) (xp fp : list Qc) : Qc :=
  match xp, fp with
  | x1 :: xp', y1 :: fp' =>
      if decide (x < x1)
      then (y1 - y0) / (x1 - x0) * (x - x0) + y0
      else interp_from x x1 y1 xp' fp'
  | _, _ => y0
  end.

Definition interp1 (x : Qc) (xp fp : list Qc) : Qc :=
  match xp, fp with
  | x0 :: xp', y0 :: fp' =>
      if decide (x < x0) then y0 else interp_from x x0 y0 xp' fp'
  | _, _ => 0
  end.

Definition interp (x xp fp : list Qc) : result (list Qc) :=
  if decide (xp = []) then Raise ValueError
  else if decide (length xp = length fp)
       then Ok ((λ xi, interp1 xi xp fp) <$> x)
       else Raise ValueError.

(** [np.trapz(y, x=x)]. *)
Fixpoint trapz (y x : list Qc) : Qc :=
  match x, y with
  | x0 :: ((x1 :: _) as x'), y0 :: ((y1 :: _) as y') =>
      (x1 - x0) * (y1 + y0) / qz 2 + trapz y' x'
  | _, _ => 0
  end.

Definition sum (a : list Qc) : Qc := foldr Qcplus 0 a.

(** [a[mask]] for a boolean array [mask]: the entries of [a] at which
    [mask] is true, in their order; a mask of another length raises
    [IndexError]. *)
Definition mask_index (a : list Qc) (mask : list bool) : result (list Qc) :=
  if decide (length mask = length a)
  then Ok (fst <$> filter (λ p, snd p = true) (zip a mask))
  else Raise IndexError.

End np.

(** ** Units: [astropy.units] and [synphot.units]

    The unit subsystem lies outside the source file; the code reads units
    only through the operations below. *)

Class UnitSystem := {
  Unit : Type;
  Unit_eq_dec :: EqDecision Unit;
  (* astropy.units *)
  dimensionless_unscaled : Unit;
  mag : Unit;
  count : Unit;
  AA : Unit;
  decompose : Unit → Unit;
  to_string : Unit → string;
  physical_type : Unit → string;
  unit_mul : Unit → Unit → Unit;
  unit_div : Unit → Unit → Unit;
  (* [Quantity.to(unit)] on the values of an array in a given unit *)
  quantity_to : Unit → Unit → list Qc → result (list Qc);
  (* the same with [equivalencies=u.spectral()] *)
  spectral_to : Unit → Unit → list Qc → result (list Qc);
  (* synphot.units *)
  FLAM : Unit;
  PHOTLAM : Unit;
  PHOTNU : Unit;
  THROUGHPUT : Unit;
  AREA : Unit;
  OBMAG : Unit;
  VEGAMAG : Unit;
  (* [units.convert_flux(wave, flux, out_unit, area=...)]: wave unit and
     values, flux unit and values, target unit, area value (in [AREA]) *)
  convert_flux_values :
    Unit → list Qc → Unit → list Qc → Unit → option Qc → result (list Qc)
}.

(** Converting a quantity to the unit it already has leaves its values as
    they are. *)
Definition quantity_to_same `{UnitSystem} : Prop :=
  ∀ u v, quantity_to u u v = Ok v.

Definition spectral_to_same `{UnitSystem} : Prop :=
  ∀ u v, spectral_to u u v = Ok v.

(** [units.convert_flux] to the unit the values are in returns them as they
    are. *)
Definition convert_flux_same `{UnitSystem} : Prop :=
  ∀ wu w fu f area, convert_flux_values wu w fu f fu area = Ok f.

(** ** synphot.utils *)

Module utils.

Fixpoint ascending (w : list Qc) : bool :=
  match w with
  | x :: ((y :: _) as w') => bool_decide (x <= y) && ascending w'
  | _ => true
  end.

Fixpoint descending (w : list Qc) : bool :=
  match w with
  | x :: ((y :: _) as w') => bool_decide (y <= x) && descending w'
  | _ => true
  end.

(** Modelled from the spec: [utils.validate_wavelengths], which is not in
    the source file.  The grid must be monotonic (ascending or
    descending), without duplicates and without zero or negative values;
    the monotonic check comes first. *)
Definition validate_wavelengths (w : list Qc) : result () :=
  if negb (ascending w || descending w) then Raise UnsortedWavelength
  else if negb (bool_decide (NoDup w)) then Raise DuplicateWavelength
  else if bool_decide (Exists (λ x, x <= 0) w) then Raise ZeroWavelength
  else Ok ().

(** Modelled from the spec: [utils.trapezoid_integration], the trapezoid
    rule over the points [(x, y)]. *)
Definition trapezoid_integration (x y : list Qc) : Qc := np.trapz y x.

(** Modelled from the spec: [utils.overlap_status].  The bounds of the two
    arrays are compared: ['full'] when [a] lies within (or equals) the
    range of [b], ['none'] when the ranges are disjoint, ['partial']
    otherwise.  Bounds are taken with [min()] / [max()] as in
    [check_overlap] itself. *)
Definition overlap_status (a b : list Qc) : result string :=
  a1 ← np.min a; a2 ← np.max a;
  b1 ← np.min b; b2 ← np.max b;
  if bool_decide (b1 <= a1) && bool_decide (a2 <= b2) then Ok "full"
  else if bool_decide (a2 < b1) || bool_decide (b2 < a1) then Ok "none"
  else Ok "partial".

(** Modelled from the spec: [utils.validate_totalflux], which is not in
    the source file.  A total flux that is zero or otherwise invalid
    raises a domain error.  An integrated flux is invalid when it is
    negative or not finite; every rational is finite. *)
Definition validate_totalflux (totalflux : Qc) : result () :=
  if decide (totalflux <= 0) then Raise SynphotError else Ok ().

End utils.

(** ** Spectra *)

Inductive Class :=
  | BaseSpectrum | BaseUnitlessSpectrum | SourceSpectrum | SpectralElement.

#[global] Instance Class_eq_dec : EqDecision Class.
Proof. solve_decision. Defined.

(** [cls.__name__] *)
Definition class_name (c : Class) : string :=
  match c with
  | BaseSpectrum => "BaseSpectrum"
  | BaseUnitlessSpectrum => "BaseUnitlessSpectrum"
  | SourceSpectrum => "SourceSpectrum"
  | SpectralElement => "SpectralElement"
  end.

(** [isinstance(obj, k)] for an object of class [c]: [c] is [k] or one of
    its subclasses. *)
Definition isinstance (c k : Class) : bool :=
  match k, c with
  | BaseSpectrum, _ => true
  | BaseUnitlessSpectrum, (BaseUnitlessSpectrum | SpectralElement) => true
  | SourceSpectrum, SourceSpectrum => true
  | SpectralElement, SpectralElement => true
  | _, _ => false
  end.

(** The binary operators handled by [_operate_on]. *)
Inductive OpType := Add | Sub | Mul | Div.

#[global] Instance OpType_eq_dec : EqDecision OpType.
Proof. solve_decision. Defined.

Section Spectrum.

Context `{US : UnitSystem}.

(** [astropy.units.Quantity] holding an array. *)
Record Quantity := { value : list Qc; unit_of : Unit }.

(** An argument that is either array-like or already a [Quantity]. *)
Inductive ArrayLike :=
  | Raw (a : list Qc)
  | Qty (q : Quantity).

(** [x if isinstance(x, u.Quantity) else u.Quantity(x, unit=default)] *)
Definition as_quantity (x : ArrayLike) (default : Unit) : Quantity :=
  match x with
  | Raw a => {| value := a; unit_of := default |}
  | Qty q => q
  end.

(** A scalar argument: a number or a scalar [Quantity]. *)
Inductive ScalarLike :=
  | Number (x : Qc)
  | ScalarQty (x : Qc) (u : Unit).

(** An instance.  [primary_area] is [None] or the value of a quantity in
    [units.AREA].  For the unitless classes the attribute [thru] is an
    alias of [flux] (set by the constructor and again by [taper]). *)
Record Spectrum := {
  cls : Class;
  wave : Quantity;
  flux : Quantity;
  primary_area : option Qc;
  metadata : gmap string string;
  warnings : gmap string string
}.

Definition thru (s : Spectrum) : Quantity := flux s.

(** The right operand of an operator, and any other dynamically typed
    argument: a number ([int], [long], [float]), a spectrum object, or
    something else. *)
Inductive PyObj :=
  | PyNum (x : Qc)
  | PySpec (s : Spectrum)
  | PyQuantity (x : Qc) (u : Unit)
  | PyNone
  | PyOther.

#[global] Instance Quantity_eq_dec : EqDecision Quantity.
Proof. solve_decision. Defined.

#[global] Instance Spectrum_eq_dec : EqDecision Spectrum.
Proof. solve_decision. Defined.

(** *** Construction *)

(** [_validate_flux_unit] of class [c].  Units are given as unit objects,
    which [units.validate_unit] returns as they are. *)
Definition _validate_flux_unit (c : Class) (new_unit : Unit) : result () :=
  match c with
  | BaseSpectrum => Ok ()
  | BaseUnitlessSpectrum | SpectralElement =>
      if decide (decompose new_unit ≠ dimensionless_unscaled)
      then Raise SynphotError
      else Ok ()
  | SourceSpectrum =>
      let unit_name := to_string new_unit in
      let unit_type := physical_type new_unit in
      let acceptable_unknown_units :=
        [to_string PHOTLAM; to_string PHOTNU; to_string FLAM] in
      if bool_decide (unit_name ∉ acceptable_unknown_units) &&
         bool_decide (unit_type ≠ "spectral flux density")
      then Raise SynphotError
      else Ok ()
  end.

(** The text of the [NegativeFlux] warning. *)
Definition negative_flux_warning (n size : nat) : string :=
  pretty n +:+ " of " +:+ pretty size +:+
  " bins contained negative flux or throughput; they have been set to zero.".

Definition zero_negatives (v : list Qc) : list Qc :=
  (λ x, if decide (x < 0) then 0 else x) <$> v.

Definition count_negatives (v : list Qc) : nat :=
  length (filter (λ x, x < 0) v).

(** [_validate_flux_value]: returns the updated [flux] and [warnings]. *)
Definition _validate_flux_value (fl : Quantity) (w : gmap string string)
  : result (Quantity * gmap string string) :=
  if decide (decompose (unit_of fl) ≠ mag) then
    m ← np.min (value fl);
    if decide (m < 0) then
      let warn_str :=
        negative_flux_warning (count_negatives (value fl))
                              (length (value fl)) in
      Ok ({| value := zero_negatives (value fl); unit_of := unit_of fl |},
          <["NegativeFlux" := warn_str]> w)
    else Ok (fl, w)
  else Ok (fl, w).

(** [units.validate_quantity(area, units.AREA)] *)
Definition validate_area (area : ScalarLike) : result Qc :=
  match area with
  | Number x => Ok x
  | ScalarQty x u =>
      v ← quantity_to u AREA [x];
      match v with
      | [y] => Ok y
      | _ => Raise UnitsError
      end
  end.

Definition validate_area_arg (area : option ScalarLike)
  : result (option Qc) :=
  match area with
  | None => Ok None
  | Some a => x ← validate_area a; Ok (Some x)
  end.

(** The [metadata] attribute set up from [header]. *)
Definition init_metadata (c : Class) (header : gmap string string)
  : gmap string string :=
  match header !! "expr" with
  | None => <["expr" := class_name c]> header
  | Some _ => header
  end.

(** [BaseSpectrum.__init__], as reached through the constructor of class
    [c]: the unitless classes force [flux_unit] to [units.THROUGHPUT].
    [header] is always given (the methods of this file pass it
    explicitly). *)
Definition __init__ (c : Class) (wavelengths fluxes : ArrayLike)
    (flux_unit : Unit) (area : option ScalarLike)
    (header : gmap string string) : result Spectrum :=
  let flux_unit :=
    if isinstance c BaseUnitlessSpectrum then THROUGHPUT else flux_unit in
  let fl := as_quantity fluxes flux_unit in
  _ ← _validate_flux_unit c (unit_of fl);
  '(fl, warns) ← _validate_flux_value fl ∅;
  let wv := as_quantity wavelengths AA in
  _ ← utils.validate_wavelengths (value wv);
  if decide (length (value wv) ≠ length (value fl)) then Raise SynphotError
  else
    area' ← validate_area_arg area;
    Ok {| cls := c; wave := wv; flux := fl; primary_area := area';
          metadata := init_metadata c header; warnings := warns |}.

Definition __str__ (s : Spectrum) : result string :=
  match metadata s !! "expr" with
  | Some e => Ok e
  | None => Raise KeyError
  end.

(** The invariants of an instance: what the constructor checks, and a
    grid that is not empty (the constructor raises on an empty array
    unless the unit is a magnitude, through [min()]). *)
Definition valid (s : Spectrum) : Prop :=
  _validate_flux_unit (cls s) (unit_of (flux s)) = Ok () ∧
  (decompose (unit_of (flux s)) ≠ mag →
   Forall (λ x, 0 <= x) (value (flux s))) ∧
  utils.validate_wavelengths (value (wave s)) = Ok () ∧
  length (value (wave s)) = length (value (flux s)) ∧
  value (wave s) ≠ [] ∧
  is_Some (metadata s !! "expr").

#[global] Instance valid_dec (s : Spectrum) : Decision (valid s).
Proof. unfold valid. apply _. Defined.

(** *** Collaborators outside the source file

    [utils.merge_wavelengths] with its default keywords, the analytic
    flat spectrum [analytic.flat_spectrum(unit, wave_unit=..., area=...)
    .to_spectrum(wave)] used by [renorm], and the transcendental
    functions [np.log10] and [10 ** x], which the rationals do not
    provide; [format_number] is the text [str.format] gives a number. *)
Class Collaborators := {
  merge_wavelengths : list Qc → list Qc → list Qc;
  flat_spectrum : Unit → Unit → option Qc → Quantity → result Spectrum;
  log10 : Qc → Qc;
  pow10 : Qc → Qc;
  format_number : Qc → string
}.

Context `{Co : Collaborators}.

(** *** Wavelength merging and resampling *)

Definition merge_wave (self other : Spectrum) : result Quantity :=
  other_wave ← spectral_to (unit_of (wave other)) (unit_of (wave self))
                           (value (wave other));
  let out_wavelengths :=
    merge_wavelengths (value (wave self)) other_wave in
  Ok {| value := out_wavelengths; unit_of := unit_of (wave self) |}.

(** [resample], for an array of wavelengths ([np.isscalar] is false). *)
Definition resample (self : Spectrum) (wavelengths : ArrayLike)
  : result Quantity :=
  let wavelengths := as_quantity wavelengths (unit_of (wave self)) in
  _ ← utils.validate_wavelengths (value wavelengths);
  old_wave ← spectral_to (unit_of (wave self)) (unit_of wavelengths)
                         (value (wave self));
  let new_wave := value wavelengths in
  n0 ← np.first new_wave;
  n1 ← np.last new_wave;
  let '(new_wave, newasc) :=
    if decide (n0 < n1) then (new_wave, true)
    else (reverse new_wave, false) in
  o0 ← np.first old_wave;
  o1 ← np.last old_wave;
  '(resampled_result, oldasc) ←
    (if decide (o0 < o1) then
       r ← np.interp new_wave old_wave (value (flux self));
       Ok (r, true)
     else
       rev ← np.interp new_wave (reverse old_wave)
                       (reverse (value (flux self)));
       Ok (reverse rev, false));
  let resampled_result :=
    if decide (newasc ≠ oldasc) then reverse resampled_result
    else resampled_result in
  Ok {| value := resampled_result; unit_of := unit_of (flux self) |}.

(** *** Arithmetic *)

Definition scalar_op (op : OpType) (x y : Qc) : Qc :=
  match op with
  | Add => x + y
  | Sub => x - y
  | Mul => x * y
  | Div => x / y
  end.

(** [Quantity op Quantity] on arrays: addition and subtraction bring the
    right operand to the unit of the left one; multiplication and
    division combine the units. *)
Definition quantity_op (op : OpType) (q1 q2 : Quantity) : result Quantity :=
  match op with
  | Add | Sub =>
      v2 ← quantity_to (unit_of q2) (unit_of q1) (value q2);
      Ok {| value := zip_with (scalar_op op) (value q1) v2;
            unit_of := unit_of q1 |}
  | Mul =>
      Ok {| value := zip_with (scalar_op op) (value q1) (value q2);
            unit_of := unit_mul (unit_of q1) (unit_of q2) |}
  | Div =>
      Ok {| value := zip_with (scalar_op op) (value q1) (value q2);
            unit_of := unit_div (unit_of q1) (unit_of q2) |}
  end.

(** [Quantity op x] for a number [x]: for [+] and [-] the number has been
    wrapped in the unit of the quantity, for [*] and [/] it is applied as
    it is; the unit is kept in all four cases. *)
Definition quantity_op_scalar (op : OpType) (q : Quantity) (x : Qc)
  : Quantity :=
  {| value := (λ v, scalar_op op v x) <$> value q; unit_of := unit_of q |}.

Definition set_flux (s : Spectrum) (fl : Quantity) : Spectrum :=
  {| cls := cls s; wave := wave s; flux := fl;
     primary_area := primary_area s; metadata := metadata s;
     warnings := warnings s |}.

Definition set_wave (s : Spectrum) (wv : Quantity) : Spectrum :=
  {| cls := cls s; wave := wv; flux := flux s;
     primary_area := primary_area s; metadata := metadata s;
     warnings := warnings s |}.

Definition set_warnings (s : Spectrum) (w : gmap string string) : Spectrum :=
  {| cls := cls s; wave := wave s; flux := flux s;
     primary_area := primary_area s; metadata := metadata s;
     warnings := w |}.

(** [convert_flux] (in place): [SourceSpectrum] converts, the unitless
    classes merely return [self.thru], [BaseSpectrum] has no such
    method. *)
Definition convert_flux (self : Spectrum) (out_flux_unit : Unit)
  : result Spectrum :=
  match cls self with
  | BaseSpectrum => Raise AttributeError
  | BaseUnitlessSpectrum | SpectralElement => Ok self
  | SourceSpectrum =>
      _ ← _validate_flux_unit (cls self) out_flux_unit;
      v ← convert_flux_values (unit_of (wave self)) (value (wave self))
                              (unit_of (flux self)) (value (flux self))
                              out_flux_unit (primary_area self);
      Ok (set_flux self {| value := v; unit_of := out_flux_unit |})
  end.

Definition area_arg (a : option Qc) : option ScalarLike :=
  (λ x, ScalarQty x AREA) <$> a.

Definition _operate_on (self : Spectrum) (other : PyObj) (op_type : OpType)
  : result Spectrum :=
  '(is_scalar_op, new_wave, result) ←
    match other with
    | PyNum x =>
        (* Scalar operation *)
        Ok (true, wave self, quantity_op_scalar op_type (flux self) x)
    | PySpec other =>
        (* Spectra operation *)
        if decide (primary_area self ≠ primary_area other)
        then Raise IncompatibleSources
        else if bool_decide (op_type = Div) &&
                bool_decide (unit_of (flux other) ≠ dimensionless_unscaled)
        then Raise IncompatibleSources
        else if bool_decide (op_type = Mul) &&
                bool_decide (unit_of (flux self) ≠ dimensionless_unscaled) &&
                bool_decide (unit_of (flux other) ≠ dimensionless_unscaled)
        then Raise IncompatibleSources
        else if bool_decide (op_type ∈ [Add; Sub]) &&
                negb (isinstance (cls other) (cls self))
        then Raise IncompatibleSources
        else if (bool_decide (decompose (unit_of (flux self)) = mag) &&
                 bool_decide (decompose (unit_of (flux other)) ∉
                              [dimensionless_unscaled; mag])) ||
                (bool_decide (decompose (unit_of (flux self)) ≠ mag) &&
                 bool_decide (decompose (unit_of (flux other)) = mag))
        then Raise IncompatibleSources
        else
          new_wave ← merge_wave self other;
          resamp_flux_1 ← resample self (Qty new_wave);
          resamp_flux_2 ←
            (if bool_decide (op_type ∈ [Add; Sub]) then
               other2 ← convert_flux other (unit_of (flux self));
               resample other2 (Qty new_wave)
             else resample other (Qty new_wave));
          result ← quantity_op op_type resamp_flux_1 resamp_flux_2;
          Ok (false, new_wave, result)
    | _ => Raise IncompatibleSources
    end;
  (* Merge metadata (self overwrites other if duplicate exists) *)
  let new_metadata : gmap string string :=
    match other with
    | PySpec other => if (is_scalar_op : bool) then ∅ else metadata other
    | _ => ∅
    end in
  let new_metadata := metadata self ∪ new_metadata in
  match new_metadata !! "expr" with
  | None => Raise KeyError
  | Some _ =>
      let new_metadata := delete "expr" new_metadata in
      __init__ (cls self) (Qty new_wave) (Qty result) FLAM
               (area_arg (primary_area self)) new_metadata
  end.

Definition __add__ (self : Spectrum) (other : PyObj) : result Spectrum :=
  _operate_on self other Add.

Definition __sub__ (self : Spectrum) (other : PyObj) : result Spectrum :=
  _operate_on self other Sub.

Definition __truediv__ (self : Spectrum) (other : PyObj) : result Spectrum :=
  _operate_on self other Div.

(** [__mul__]: [BaseSpectrum.__mul__], overridden in
    [BaseUnitlessSpectrum], which hands a [SourceSpectrum] operand the
    multiplication. *)
Definition __mul__ (self : Spectrum) (other : PyObj) : result Spectrum :=
  if isinstance (cls self) BaseUnitlessSpectrum then
    match other with
    | PySpec o =>
        if isinstance (cls o) SourceSpectrum
        then _operate_on o (PySpec self) Mul
        else _operate_on self other Mul
    | _ => _operate_on self other Mul
    end
  else _operate_on self other Mul.

Definition __rmul__ (self : Spectrum) (other : PyObj) : result Spectrum :=
  __mul__ self other.

(** *** Unit conversion of the grid, integration *)

(** [convert_wave] (in place). *)
Definition convert_wave (self : Spectrum) (out_wave_unit : Unit)
  : result Spectrum :=
  v ← spectral_to (unit_of (wave self)) out_wave_unit (value (wave self));
  Ok (set_wave self {| value := v; unit_of := out_wave_unit |}).

(** [integrate]: the value of the resulting scalar quantity and its
    unit. *)
Definition integrate (self : Spectrum) (wavelengths : option ArrayLike)
  : result (Qc * Unit) :=
  '(x, y) ←
    match wavelengths with
    | None => Ok (value (wave self), value (flux self))
    | Some w =>
        y ← resample self w;
        let x := match w with Raw a => a | Qty q => value q end in
        Ok (x, value y)
    end;
  let result := utils.trapezoid_integration x y in
  Ok (result, unit_of (flux self)).

(** *** Overlap *)

(** [x.wave[x.flux.value != 0]]: the grid points whose value is not
    zero. *)
Definition nonzero_wave (x : Spectrum) : list Qc :=
  fst <$> filter (λ p, snd p ≠ 0) (zip (value (wave x)) (value (flux x))).

Definition check_overlap (self other : Spectrum) (threshold : Qc)
  : result string :=
  let a := nonzero_wave self in
  b ← spectral_to (unit_of (wave other)) (unit_of (wave self))
                  (nonzero_wave other);
  result ← utils.overlap_status a b;
  if decide (result = "partial") then
    tf ← integrate self None;
    let totalflux := fst tf in
    _ ← utils.validate_totalflux totalflux;
    a_min ← np.min a; a_max ← np.max a;
    b_min ← np.min b; b_max ← np.max b;
    let excluded := 0 in
    excluded ←
      (if decide (a_min < b_min) then
         e ← integrate self (Some (Raw [a_min; b_min]));
         Ok (excluded + fst e)
       else Ok excluded);
    excluded ←
      (if decide (b_max < a_max) then
         e ← integrate self (Some (Raw [b_max; a_max]));
         Ok (excluded + fst e)
       else Ok excluded);
    if decide (excluded / totalflux < threshold) then Ok "partial_most"
    else Ok "partial_notmost"
  else Ok result.

(** *** Tapering *)

(** [taper] (in place).  [BaseUnitlessSpectrum.taper] calls this and
    renews the alias [thru]. *)
Definition taper (self : Spectrum) : result Spectrum :=
  let wave_value := value (wave self) in
  let flux_value := value (flux self) in
  let has_insertion := false in
  f0 ← np.first flux_value;
  '(wave_value, flux_value, has_insertion) ←
    (if decide (f0 ≠ 0) then
       w0 ← np.first wave_value;
       w1 ← np.second wave_value;
       Ok (np.insert_front wave_value (w0 * w0 / w1),
           np.insert_front flux_value 0, true)
     else Ok (wave_value, flux_value, has_insertion));
  fl ← np.last flux_value;
  '(wave_value, flux_value, has_insertion) ←
    (if decide (fl ≠ 0) then
       wl ← np.last wave_value;
       wl2 ← np.second_last wave_value;
       Ok (np.insert_back wave_value (wl * wl / wl2),
           np.insert_back flux_value 0, true)
     else Ok (wave_value, flux_value, has_insertion));
  if (has_insertion : bool) then
    Ok {| cls := cls self;
          wave := {| value := wave_value; unit_of := unit_of (wave self) |};
          flux := {| value := flux_value; unit_of := unit_of (flux self) |};
          primary_area := primary_area self; metadata := metadata self;
          warnings := warnings self |}
  else Ok self.

(** *** Source spectra *)

Definition add_mag (self : Spectrum) (magnitude : PyObj)
  : result Spectrum :=
  let add_value (magval : Qc) (is_mag : bool) : result Spectrum :=
    if negb is_mag then Raise SynphotError
    else if decide (decompose (unit_of (flux self)) = mag)
         then __add__ self (PyNum magval)
         else __mul__ self (PyNum (pow10 (- qfrac 4 10 * magval))) in
  match magnitude with
  | PyQuantity x u => add_value x (bool_decide (decompose u = mag))
  | PyNum x => add_value x true
  | _ => Raise SynphotError
  end.

Definition apply_redshift (self : Spectrum) (z : PyObj) : result Spectrum :=
  match z with
  | PyNum z =>
      let wave_type := physical_type (unit_of (wave self)) in
      let fac := 1 + z in
      let new_wave :=
        if decide (wave_type = "length")
        then quantity_op_scalar Mul (wave self) fac
        else quantity_op_scalar Div (wave self) fac in
      expr ← __str__ self;
      let new_metadata :=
        <["expr" := expr +:+ " at z=" +:+ format_number z]>
          (metadata self) in
      __init__ (cls self) (Qty new_wave) (Qty (flux self)) FLAM
               (area_arg (primary_area self)) new_metadata
  | _ => Raise SynphotError
  end.

Definition partial_most_warning : string :=
  "Spectrum is not defined everywhere in renormalization" +:+
  "passband. At least 99% of the band throughput has" +:+
  "data. Spectrum will be extrapolated at constant value.".

Definition partial_notmost_warning : string :=
  "Spectrum is not defined everywhere in renormalization" +:+
  "passband. Less than 99% of the band throughput has" +:+
  "data. Spectrum will be extrapolated at constant value.".

(** The part of [renorm] after the overlap has been validated; [warns]
    holds the warnings recorded so far. *)
Definition renorm_from (self : Spectrum) (renorm_val : ScalarLike)
    (band : Spectrum) (vegaspec : PyObj) (warns : gmap string string)
  : result Spectrum :=
  let '(renorm_value, renorm_unit) :=
    match renorm_val with
    | Number x => (x, unit_of (flux self))
    | ScalarQty x u => (x, u)
    end in
  let renorm_unit_name := to_string renorm_unit in
  (* Compute the flux of the spectrum through the passband *)
  sp ← __mul__ self (PySpec band);
  '(totalflux, stdflux) ←
    (if bool_decide (renorm_unit_name ∈ [to_string count; to_string OBMAG])
     then
       (* Special handling for non-density units *)
       let stdflux := 1 in
       flux_tmp ← convert_flux_values
                    (unit_of (wave sp)) (value (wave sp))
                    (unit_of (flux sp)) (value (flux sp))
                    count (primary_area sp);
       Ok (np.sum flux_tmp, stdflux)
     else
       (* Flux density units and VEGAMAG *)
       totalflux ← integrate sp None;
       stdspec ←
         (if decide (renorm_unit_name = to_string VEGAMAG) then
            match vegaspec with
            | PySpec v =>
                if isinstance (cls v) SourceSpectrum then Ok v
                else Raise SynphotError
            | _ => Raise SynphotError
            end
          else
            flat_spectrum renorm_unit (unit_of (wave band))
                          (primary_area self) (wave band));
       up ← __mul__ stdspec (PySpec band);
       up ← convert_flux up (snd totalflux);
       stdflux ← integrate up None;
       Ok (fst totalflux, fst stdflux));
  _ ← utils.validate_totalflux totalflux;
  newsp ←
    (if decide (decompose renorm_unit = mag) then
       (* Renormalize in magnitudes *)
       let const := renorm_value + qfrac 25 10 * log10 (totalflux / stdflux) in
       add_mag self (PyNum const)
     else
       (* Renormalize in linear flux units *)
       let const := renorm_value * (stdflux / totalflux) in
       __mul__ self (PyNum const));
  Ok (set_warnings newsp (warns ∪ warnings newsp)).

Definition renorm (self : Spectrum) (renorm_val : ScalarLike)
    (band : PyObj) (force : bool) (vegaspec : PyObj) : result Spectrum :=
  match band with
  | PySpec band =>
      if negb (isinstance (cls band) SpectralElement)
      then Raise SynphotError
      else
        (* Validate the overlap. *)
        stat ← check_overlap band self (qfrac 1 100);
        let warns : gmap string string := ∅ in
        warns ←
          (if decide (stat = "none") then Raise DisjointError
           else if decide (stat = "partial_most") then
             Ok (<["PartialRenorm" := partial_most_warning]> warns)
           else if decide (stat = "partial_notmost") then
             if force
             then Ok (<["PartialRenorm" := partial_notmost_warning]> warns)
             else Raise PartialOverlap
           else if decide (stat ≠ "full") then Raise SynphotError
           else Ok warns);
        renorm_from self renorm_val band vegaspec warns
  | _ => Raise SynphotError
  end.

(** *** Trimming *)

(** [units.validate_quantity(w, unit, equivalencies=u.spectral())] for a
    wavelength limit: a number is taken to be in [unit], a quantity is
    converted to it. *)
Definition validate_limit (w : ScalarLike) (unit : Unit) : result Qc :=
  match w with
  | Number x => Ok x
  | ScalarQty x u =>
      v ← spectral_to u unit [x];
      match v with
      | [y] => Ok y
      | _ => Raise UnitsError
      end
  end.

Definition trim_spectrum (self : Spectrum) (min_wave max_wave : ScalarLike)
  : result Spectrum :=
  minw ← validate_limit min_wave (unit_of (wave self));
  maxw ← validate_limit max_wave (unit_of (wave self));
  let mask :=
    (λ x, bool_decide (minw <= x) && bool_decide (x <= maxw)) <$>
      value (wave self) in
  new_wave ← np.mask_index (value (wave self)) mask;
  new_flux ← np.mask_index (value (flux self)) mask;
  __init__ (cls self)
           (Qty {| value := new_wave; unit_of := unit_of (wave self) |})
           (Qty {| value := new_flux; unit_of := unit_of (flux self) |})
           FLAM (area_arg (primary_area self)) (metadata self).

(** *** The default header

    [BaseSpectrum.__init__] called without [header].  The default value
    [{}] is one dict, made when the function is defined and shared by all
    such calls and all classes; the instance keeps it as its [metadata]
    and the constructor writes ["expr"] into it.  [default_header] is the
    content of that dict before the call; the content after the call is
    returned with the instance. *)
Definition init_default_header (default_header : gmap string string)
    (c : Class) (wavelengths fluxes : ArrayLike) (flux_unit : Unit)
    (area : option ScalarLike)
  : result (Spectrum * gmap string string) :=
  s ← __init__ c wavelengths fluxes flux_unit area default_header;
  Ok (s, metadata s).

(** *** Vocabulary of the properties *)

(** [self op other] as Python dispatches it. *)
Definition operator (op : OpType) (self : Spectrum) (other : PyObj)
  : result Spectrum :=
  match op with
  | Add => __add__ self other
  | Sub => __sub__ self other
  | Mul => __mul__ self other
  | Div => __truediv__ self other
  end.

(** One operand is a source spectrum and the other a passband. *)
Definition cross_variant (self other : Spectrum) : Prop :=
  (cls self = SourceSpectrum ∧
   isinstance (cls other) BaseUnitlessSpectrum = true) ∨
  (isinstance (cls self) BaseUnitlessSpectrum = true ∧
   cls other = SourceSpectrum).

(** The four compatibility rules, each in its violated form. *)
Definition incompatible (self other : Spectrum) (op : OpType) : Prop :=
  primary_area self ≠ primary_area other ∨
  (op = Div ∧ unit_of (flux other) ≠ dimensionless_unscaled) ∨
  (op = Mul ∧ unit_of (flux self) ≠ dimensionless_unscaled ∧
              unit_of (flux other) ≠ dimensionless_unscaled) ∨
  ((op = Add ∨ op = Sub) ∧ cross_variant self other).

(** [self * other] is handed over to [other]: [self] is of a unitless
    class and [other] is a source spectrum. *)
Definition delegated (op : OpType) (self : Spectrum) (other : PyObj) : bool :=
  bool_decide (op = Mul) && isinstance (cls self) BaseUnitlessSpectrum &&
  match other with
  | PySpec o => isinstance (cls o) SourceSpectrum
  | _ => false
  end.

(** The metadata of the right operand: none for a scalar. *)
Definition operand_metadata (other : PyObj) : gmap string string :=
  match other with
  | PySpec o => metadata o
  | _ => ∅
  end.

(** The same operand with other warnings. *)
Definition with_warnings (other : PyObj) (w : gmap string string) : PyObj :=
  match other with
  | PySpec o => PySpec (set_warnings o w)
  | _ => other
  end.

(** The warnings of an instance straight from the constructor. *)
Definition fresh_warnings (r : Spectrum) : Prop :=
  warnings r = ∅ ∨
  ∃ n size, warnings r = {[ "NegativeFlux" := negative_flux_warning n size ]}.

(** The redshifted grid of [apply_redshift]. *)
Definition redshifted (s : Spectrum) (z : Qc) : Quantity :=
  if decide (physical_type (unit_of (wave s)) = "length")
  then quantity_op_scalar Mul (wave s) (1 + z)
  else quantity_op_scalar Div (wave s) (1 + z).

(** What [check_overlap] adds up as [excluded]: the results of
    [integrate] on the two-point arrays [[a_min, b_min]] and
    [[b_max, a_max]], each taken when it is not empty. *)
Definition end_point_integrals (self : Spectrum)
    (a_min a_max b_min b_max : Qc) : result Qc :=
  left_tail ←
    (if decide (a_min < b_min)
     then e ← integrate self (Some (Raw [a_min; b_min])); Ok (fst e)
     else Ok 0);
  right_tail ←
    (if decide (b_max < a_max)
     then e ← integrate self (Some (Raw [b_max; a_max])); Ok (fst e)
     else Ok 0);
  Ok (left_tail + right_tail).

(** The total flux of [self], as [self.integrate()] computes it. *)
Definition total_flux (self : Spectrum) : Qc :=
  utils.trapezoid_integration (value (wave self)) (value (flux self)).

(** Magnitudes on one side and linear flux on the other: the last of the
    compatibility rules of [_operate_on], in its violated form. *)
Definition mag_mismatch (self other : Spectrum) : Prop :=
  (decompose (unit_of (flux self)) = mag ∧
   decompose (unit_of (flux other)) ≠ dimensionless_unscaled ∧
   decompose (unit_of (flux other)) ≠ mag) ∨
  (decompose (unit_of (flux self)) ≠ mag ∧
   decompose (unit_of (flux other)) = mag).

(** The grid and the values of [s] as [resample] hands them to
    [np.interp]: as stored when the first wavelength is below the last,
    both reversed otherwise. *)
Definition interp_arrays (s : Spectrum) : list Qc * list Qc :=
  match np.first (value (wave s)), np.last (value (wave s)) with
  | Ok o0, Ok o1 =>
      if decide (o0 < o1) then (value (wave s), value (flux s))
      else (reverse (value (wave s)), reverse (value (flux s)))
  | _, _ => (value (wave s), value (flux s))
  end.

(** The value of [s] at the wavelength [x] (in the unit of the grid):
    linear interpolation between grid points, the end values outside. *)
Definition value_at (s : Spectrum) (x : Qc) : Qc :=
  np.interp1 x (interp_arrays s).1 (interp_arrays s).2.

(** The flux of [self] between the wavelengths [lo] and [hi]: the
    trapezoid rule over [lo], the grid points of [self] that lie strictly
    between the two, and [hi], with the value of [self] at each. *)
Definition flux_between (self : Spectrum) (lo hi : Qc) : Qc :=
  let x := lo :: filter (λ x, lo < x ∧ x < hi) (interp_arrays self).1
              ++ [hi] in
  utils.trapezoid_integration x (value_at self <$> x).

(** The flux of [self] that falls outside the range [[b_min, b_max]], as
    the spec words it: integrated over the left tail [[a_min, b_min]]
    when [a_min < b_min], and over the right tail [[b_max, a_max]] when
    [b_max < a_max]. *)
Definition tail_flux (self : Spectrum) (a_min a_max b_min b_max : Qc)
  : Qc :=
  (if decide (a_min < b_min) then flux_between self a_min b_min else 0) +
  (if decide (b_max < a_max) then flux_between self b_max a_max else 0).

(** [self] has no grid point strictly inside a tail. *)
Definition tails_unsampled (self : Spectrum)
    (a_min a_max b_min b_max : Qc) : Prop :=
  Forall (λ x, ¬ (a_min < x ∧ x < b_min) ∧ ¬ (b_max < x ∧ x < a_max))
         (value (wave self)).

(** [s] with its arrays stored in the opposite order. *)
Definition reversed (s : Spectrum) : Spectrum :=
  {| cls := cls s;
     wave := {| value := reverse (value (wave s));
                unit_of := unit_of (wave s) |};
     flux := {| value := reverse (value (flux s));
                unit_of := unit_of (flux s) |};
     primary_area := primary_area s; metadata := metadata s;
     warnings := warnings s |}.

(** The wavelengths of [s] that lie within [[lo, hi]], with their
    values. *)
Definition within (lo hi : Qc) (s : Spectrum) : list (Qc * Qc) :=
  filter (λ p, lo <= fst p ∧ fst p <= hi)
         (zip (value (wave s)) (value (flux s))).

(** The instance a constructor call rebuilds from [s] with the arrays
    [w] and [f]: no warnings. *)
Definition rebuilt (s : Spectrum) (w f : list Qc)
    (md : gmap string string) : Spectrum :=
  {| cls := cls s;
     wave := {| value := w; unit_of := unit_of (wave s) |};
     flux := {| value := f; unit_of := unit_of (flux s) |};
     primary_area := primary_area s; metadata := md; warnings := ∅ |}.

End Spectrum.

Arguments Quantity {US}.
Arguments Spectrum {US}.
Arguments Collaborators {US}.

(** ** Passband statistics

    Statistics of [SpectralElement] that need nothing but the arrays.
    [utils.to_length], which brings the grid to a unit of length and lies
    outside the source file, is a parameter. *)

Section PassbandStatistics.

Context `{US : UnitSystem}.

Variable to_length : Quantity → result Quantity.

(** [tpeak]: [self.thru.max()], a scalar quantity (value and unit). *)
Definition tpeak (self : Spectrum) : result (Qc * Unit) :=
  m ← np.max (value (thru self));
  Ok (m, unit_of (thru self)).

(** [wpeak]: [wave[self.thru == self.tpeak()][0]]. *)
Definition wpeak (self : Spectrum) : result (Qc * Unit) :=
  wave ← to_length (wave self);
  t ← tpeak self;
  let mask := (λ y, bool_decide (y = fst t)) <$> value (thru self) in
  sel ← np.mask_index (value wave) mask;
  w ← np.first sel;
  Ok (w, unit_of wave).

(** [equivwidth]: the integral of the throughput over the grid. *)
Definition equivwidth (self : Spectrum) : result (Qc * Unit) :=
  wave ← to_length (wave self);
  let equvw :=
    utils.trapezoid_integration (value wave) (value (thru self)) in
  Ok (equvw, unit_of wave).

(** [rectwidth]: the equivalent width over the peak throughput, zero when
    the peak is zero. *)
Definition rectwidth (self : Spectrum) : result (Qc * Unit) :=
  equvw ← equivwidth self;
  tpeak ← tpeak self;
  if decide (fst tpeak = 0) then Ok (0, snd equvw)
  else Ok (fst equvw / fst tpeak, unit_div (snd equvw) (snd tpeak)).

End PassbandStatistics.

(** ** A small unit system

    A concrete [UnitSystem] with the units the source names, used to run
    the definitions on examples.  Conversion is provided between equal
    units and, for grids, between Angstrom and Hertz. *)

Module Units.

Inductive unit_name :=
  | u_dimensionless | u_mag | u_count | u_AA | u_Hz | u_cm2
  | u_FLAM | u_PHOTLAM | u_PHOTNU | u_FNU | u_OBMAG | u_VEGAMAG.

#[global] Instance unit_name_eq_dec : EqDecision unit_name.
Proof. solve_decision. Defined.

Definition name (u : unit_name) : string :=
  match u with
  | u_dimensionless => ""
  | u_mag => "mag"
  | u_count => "ct"
  | u_AA => "Angstrom"
  | u_Hz => "Hz"
  | u_cm2 => "cm2"
  | u_FLAM => "FLAM"
  | u_PHOTLAM => "PHOTLAM"
  | u_PHOTNU => "PHOTNU"
  | u_FNU => "FNU"
  | u_OBMAG => "OBMAG"
  | u_VEGAMAG => "VEGAMAG"
  end.

Definition phys (u : unit_name) : string :=
  match u with
  | u_dimensionless => "dimensionless"
  | u_AA => "length"
  | u_Hz => "frequency"
  | u_cm2 => "area"
  | u_FNU => "spectral flux density"
  | _ => "unknown"
  end.

Definition decomposed (u : unit_name) : unit_name :=
  match u with
  | u_OBMAG | u_VEGAMAG => u_mag
  | _ => u
  end.

Definition times (u v : unit_name) : unit_name :=
  if decide (v = u_dimensionless) then u
  else if decide (u = u_dimensionless) then v
  else u.

Definition over (u v : unit_name) : unit_name := times u v.

Definition to (u v : unit_name) (a : list Qc) : result (list Qc) :=
  if decide (u = v) then Ok a else Raise UnitsError.

(** The speed of light in Angstrom per second. *)
Definition c_AA : Qc := qz 2997924580000000000.

Definition spectral (u v : unit_name) (a : list Qc) : result (list Qc) :=
  if decide (u = v) then Ok a
  else match u, v with
       | u_AA, u_Hz | u_Hz, u_AA => Ok ((λ x, c_AA / x) <$> a)
       | _, _ => Raise UnitsError
       end.

Definition flux_to (wu : unit_name) (w : list Qc) (fu : unit_name)
    (f : list Qc) (out : unit_name) (area : option Qc)
  : result (list Qc) :=
  if decide (fu = out) then Ok f else Raise UnitsError.

#[global] Instance system : UnitSystem := {|
  Unit := unit_name;
  dimensionless_unscaled := u_dimensionless;
  mag := u_mag;
  count := u_count;
  AA := u_AA;
  decompose := decomposed;
  to_string := name;
  physical_type := phys;
  unit_mul := times;
  unit_div := over;
  quantity_to := to;
  spectral_to := spectral;
  FLAM := u_FLAM;
  PHOTLAM := u_PHOTLAM;
  PHOTNU := u_PHOTNU;
  THROUGHPUT := u_dimensionless;
  AREA := u_cm2;
  OBMAG := u_OBMAG;
  VEGAMAG := u_VEGAMAG;
  convert_flux_values := flux_to
|}.

(** Collaborators for the examples: the merged grid is the ascending
    union of the two grids; the flat spectrum has the value one. *)
Definition merge (w1 w2 : list Qc) : list Qc :=
  merge_sort Qcle (remove_dups (w1 ++ w2)).

Definition flat (fu wu : unit_name) (area : option Qc) (w : Quantity)
  : result Spectrum :=
  __init__ SourceSpectrum (Qty w)
           (Qty {| value := (λ _, 1) <$> value w; unit_of := fu |})
           FLAM (area_arg area) ∅.

Definition show (x : Qc) : string :=
  pretty (Qnum (this x)) +:+ "/" +:+ pretty (Zpos (Qden (this x))).

(** The examples stay in linear flux units, where neither [np.log10] nor
    [10 ** x] is called; both are set to zero here. *)
Definition const0 (x : Qc) : Qc := 0.

#[global] Instance collaborators : Collaborators := {|
  merge_wavelengths := merge;
  flat_spectrum := flat;
  log10 := const0;
  pow10 := const0;
  format_number := show
|}.

(** [utils.to_length] on a grid that is in a unit of length already: there
    is nothing to convert. *)
Definition as_length (q : Quantity) : result Quantity := Ok q.

End Units.

(** ** Concrete spectra *)

Module Examples.

Definition spectrum (c : Class) (w f : list Z) (wu fu : Unit)
    (md : gmap string string) : Spectrum :=
  {| cls := c;
     wave := {| value := qz <$> w; unit_of := wu |};
     flux := {| value := qz <$> f; unit_of := fu |};
     primary_area := None; metadata := md; warnings := ∅ |}.

(** A flat source of 1 FLAM over 3000 to 6000 Angstrom. *)
Definition star : Spectrum :=
  spectrum SourceSpectrum [3000; 4000; 5000; 6000]%Z [1; 1; 1; 1]%Z AA FLAM
           {[ "expr" := "star"; "owner" := "star" ]}.

(** The same source on a descending grid, with a slope. *)
Definition falling : Spectrum :=
  spectrum SourceSpectrum [6000; 5000; 4000; 3000]%Z [4; 3; 2; 1]%Z AA FLAM
           {[ "expr" := "falling" ]}.

(** A source on a frequency grid. *)
Definition radio : Spectrum :=
  spectrum SourceSpectrum [100; 200; 400]%Z [1; 2; 3]%Z Units.u_Hz FLAM
           {[ "expr" := "radio" ]}.

(** Flat passbands: inside the range of [star], reaching beyond it, away
    from it, and one that is zero everywhere. *)
Definition band_v : Spectrum :=
  spectrum SpectralElement [4000; 5000]%Z [1; 1]%Z AA THROUGHPUT
           {[ "expr" := "V"; "owner" := "band"; "filter" := "V" ]}.

Definition band_wide : Spectrum :=
  spectrum SpectralElement [4000; 7000]%Z [1; 1]%Z AA THROUGHPUT
           {[ "expr" := "wide" ]}.

Definition band_blue : Spectrum :=
  spectrum SpectralElement [1000; 1100]%Z [1; 1]%Z AA THROUGHPUT
           {[ "expr" := "blue" ]}.

Definition band_blank : Spectrum :=
  spectrum SpectralElement [1000; 2000]%Z [0; 0]%Z AA THROUGHPUT
           {[ "expr" := "blank" ]}.

(** A source with a strong line at 2000 Angstrom, below the range of
    [star]. *)
Definition emission_line : Spectrum :=
  spectrum SourceSpectrum [1000; 2000; 3000; 4000]%Z [1; 1000; 1; 1]%Z
           AA FLAM {[ "expr" := "line" ]}.

(** A source observed with a collecting area. *)
Definition star_with_area : Spectrum :=
  {| cls := SourceSpectrum; wave := wave star; flux := flux star;
     primary_area := Some (qz 100); metadata := metadata star;
     warnings := ∅ |}.

(** A passband of a single point. *)
Definition band_point : Spectrum :=
  spectrum SpectralElement [5000]%Z [1]%Z AA THROUGHPUT
           {[ "expr" := "point" ]}.

(** A passband that reaches its peak at two points. *)
Definition band_peaked : Spectrum :=
  spectrum SpectralElement [4000; 5000; 6000; 7000]%Z [1; 3; 3; 2]%Z
           AA THROUGHPUT {[ "expr" := "peaked" ]}.

(** Two spectra of the base class, one in magnitudes and one in linear
    flux. *)
Definition in_magnitudes : Spectrum :=
  spectrum BaseSpectrum [1; 2]%Z [1; 1]%Z AA mag {[ "expr" := "mags" ]}.

Definition in_flam : Spectrum :=
  spectrum BaseSpectrum [1; 2]%Z [1; 1]%Z AA FLAM {[ "expr" := "flam" ]}.

End Examples.

(** * Properties *)

(** ** The small unit system is lawful *)

Lemma units_to_same : quantity_to_same.
Proof. intros u v. cbn. unfold Units.to. by rewrite decide_True. Qed.

Lemma units_spectral_same : spectral_to_same.
Proof. intros u v. cbn. unfold Units.spectral. by rewrite decide_True. Qed.


(** ** Auxiliary facts about the numpy routines *)

Lemma minimum_le_l (x y : Qc) : np.minimum x y <= x.
Proof.
  unfold np.minimum. case_decide.
  - by apply Qclt_le_weak.
  - apply Qcle_refl.
Qed.

Lemma minimum_le_r (x y : Qc) : np.minimum x y <= y.
Proof.
  unfold np.minimum. case_decide.
  - apply Qcle_refl.
  - by apply Qcnot_lt_le.
Qed.

Lemma minimum_cases (x y : Qc) : np.minimum x y = x ∨ np.minimum x y = y.
Proof. unfold np.minimum. case_decide; auto. Qed.

Lemma foldl_minimum_spec (a : list Qc) (x : Qc) :
  foldl np.minimum x a <= x ∧
  Forall (λ y, foldl np.minimum x a <= y) a ∧
  (foldl np.minimum x a = x ∨ foldl np.minimum x a ∈ a).
Proof.
  revert x. induction a as [|y a IH]; intros x; cbn.
  - split; [apply Qcle_refl|]. split; [constructor | by left].
  - destruct (IH (np.minimum x y)) as (H1 & H2 & H3).
    split; [|split].
    + eapply Qcle_trans; [exact H1 | apply minimum_le_l].
    + constructor; [|exact H2].
      eapply Qcle_trans; [exact H1 | apply minimum_le_r].
    + destruct H3 as [H3|H3].
      * rewrite H3. destruct (minimum_cases x y) as [E|E]; rewrite E.
        -- by left.
        -- right. apply list_elem_of_here.
      * right. by apply list_elem_of_further.
Qed.

(** [a.min()] is an element of [a] below all the others. *)
Lemma np_min_spec (a : list Qc) (m : Qc) :
  np.min a = Ok m → m ∈ a ∧ Forall (λ y, m <= y) a.
Proof.
  destruct a as [|x a]; [discriminate|]. cbn. intros [= <-].
  destruct (foldl_minimum_spec a x) as (H1 & H2 & H3). split.
  - destruct H3 as [-> | H3]; [apply list_elem_of_here | by apply list_elem_of_further].
  - by constructor.
Qed.

Lemma np_min_nonempty (a : list Qc) : a ≠ [] → ∃ m, np.min a = Ok m.
Proof. destruct a; [done|]. intros _. by eexists. Qed.

Lemma np_min_negative (a : list Qc) (m : Qc) :
  np.min a = Ok m → (m < 0 ↔ Exists (λ x, x < 0) a).
Proof.
  intros H. destruct (np_min_spec a m H) as [Hin Hle]. split.
  - intros Hm. apply Exists_exists. eauto.
  - intros (x & Hx & Hneg)%Exists_exists.
    rewrite Forall_forall in Hle.
    eapply Qcle_lt_trans; [by apply Hle | done].
Qed.

Lemma zero_negatives_nonneg (v : list Qc) :
  Forall (λ x, 0 <= x) (zero_negatives v).
Proof.
  unfold zero_negatives. apply Forall_fmap, Forall_true. intros x. cbn.
  case_decide; [apply Qcle_refl | by apply Qcnot_lt_le].
Qed.

Lemma zero_negatives_lookup (v : list Qc) (i : nat) (x : Qc) :
  v !! i = Some x →
  zero_negatives v !! i = Some (if decide (x < 0) then 0 else x).
Proof. intros H. unfold zero_negatives. by rewrite list_lookup_fmap, H. Qed.

Lemma count_negatives_pos (v : list Qc) :
  Exists (λ x, x < 0) v → (0 < count_negatives v)%nat.
Proof.
  unfold count_negatives. induction 1 as [x v Hx | x v _ IH].
  - rewrite filter_cons_True by done. cbn. lia.
  - rewrite filter_cons. case_decide; cbn; lia.
Qed.

(** ** Construction *)

Section Construction.

Context `{US : UnitSystem}.

Lemma validate_flux_value_negative (fl : Quantity) (w : gmap string string) :
  decompose (unit_of fl) ≠ mag →
  Exists (λ x, x < 0) (value fl) →
  _validate_flux_value fl w =
    Ok ({| value := zero_negatives (value fl); unit_of := unit_of fl |},
        <["NegativeFlux" :=
            negative_flux_warning (count_negatives (value fl))
                                  (length (value fl))]> w).
Proof.
  intros Hmag Hneg. unfold _validate_flux_value.
  rewrite decide_True by done.
  destruct (np_min_nonempty (value fl)) as [m Hm].
  { intros E. rewrite E in Hneg. by apply Exists_nil in Hneg. }
  rewrite Hm. cbn.
  rewrite decide_True; [done|]. by apply (np_min_negative _ _ Hm).
Qed.


End Construction.


(** ** Tapering *)

Lemma np_last_snoc (a : list Qc) (x : Qc) : np.last (a ++ [x]) = Ok x.
Proof. unfold np.last. by rewrite reverse_snoc. Qed.

Lemma np_first_snoc (a : list Qc) (x y : Qc) :
  np.first a = Ok y → np.first (a ++ [x]) = Ok y.
Proof. by destruct a. Qed.

Lemma np_last_cons (a : list Qc) (x y : Qc) :
  np.last a = Ok y → np.last (x :: a) = Ok y.
Proof.
  unfold np.last. rewrite reverse_cons.
  destruct (reverse a); [discriminate | done].
Qed.

Section Taper.

Context `{US : UnitSystem}.

(** After a successful [taper] both end values are zero. *)
Lemma taper_ends_zero (s s' : Spectrum) :
  taper s = Ok s' →
  np.first (value (flux s')) = Ok 0 ∧ np.last (value (flux s')) = Ok 0.
Proof.
  unfold taper.
  destruct (np.first (value (flux s))) as [f0|] eqn:Hf0; [cbn|discriminate].
  destruct (decide (f0 ≠ 0)) as [Hn0|Hz0]; cbn.
  - destruct (np.first (value (wave s))) as [w0|]; [cbn|discriminate].
    destruct (np.second (value (wave s))) as [w1|]; [cbn|discriminate].
    destruct (np.last (np.insert_front (value (flux s)) 0))
      as [fl|] eqn:Hfl; [cbn|discriminate].
    destruct (decide (fl ≠ 0)) as [Hnl|Hzl]; cbn.
    + do 2 step_bind.
      intros [= <-]. cbn. split; [done|].
      apply (np_last_snoc (0 :: _)).
    + intros [= <-]. cbn. split; [done|].
      apply dec_stable in Hzl. by rewrite Hfl, Hzl.
  - apply dec_stable in Hz0. subst f0.
    destruct (np.last (value (flux s))) as [fl|] eqn:Hfl; [cbn|discriminate].
    destruct (decide (fl ≠ 0)) as [Hnl|Hzl]; cbn.
    + do 2 step_bind.
      intros [= <-]. cbn. split; [by apply np_first_snoc | apply np_last_snoc].
    + intros [= <-]. apply dec_stable in Hzl. by subst fl.
Qed.

Lemma taper_zero_ends (s : Spectrum) :
  np.first (value (flux s)) = Ok 0 →
  np.last (value (flux s)) = Ok 0 →
  taper s = Ok s.
Proof.
  intros Hf Hl. unfold taper. rewrite Hf. cbn.
  rewrite decide_False by (by intros []). cbn.
  rewrite Hl. cbn. by rewrite decide_False by (by intros []).
Qed.

(** C10. A spectrum whose first and last values are both zero is left
    exactly as it is by [taper]; and calling [taper] twice gives the same
    outcome (the same state, or the same exception) as calling it
    once. *)
Theorem taper_idempotent (s : Spectrum) :
  (np.first (value (flux s)) = Ok 0 →
   np.last (value (flux s)) = Ok 0 →
   taper s = Ok s) ∧
  (taper s ≫= taper) = taper s.
Proof.
  split; [apply taper_zero_ends|].
  destruct (taper s) as [s'|e] eqn:Ht; [cbn|done].
  apply taper_ends_zero in Ht as [Hf Hl]. by apply taper_zero_ends.
Qed.

End Taper.

(** ** Wavelength grids *)

Lemma validate_wavelengths_ok (w : list Qc) :
  utils.validate_wavelengths w = Ok () →
  (utils.ascending w = true ∨ utils.descending w = true) ∧
  NoDup w ∧ Forall (λ x, 0 < x) w.
Proof.
  unfold utils.validate_wavelengths.
  destruct (utils.ascending w || utils.descending w) eqn:Hmono; [|done].
  cbn. case_bool_decide as Hdup; [|done]. cbn.
  case_bool_decide as Hzero; [done|]. intros _.
  split; [by apply orb_true_iff|]. split; [done|].
  apply Forall_forall. intros x Hx.
  destruct (decide (0 < x)) as [|Hn]; [done|].
  exfalso. apply Hzero, Exists_exists. exists x. split; [done|].
  by apply Qcnot_lt_le.
Qed.

Lemma ascending_strict (w : list Qc) :
  utils.ascending w = true → NoDup w → StronglySorted Qclt w.
Proof.
  intros Ha Hd. apply Sorted_StronglySorted; [apply _|].
  induction w as [|x [|y w] IH]; [constructor | by repeat constructor |].
  cbn in Ha. apply andb_true_iff in Ha as [Hxy Ha].
  apply bool_decide_eq_true in Hxy.
  apply NoDup_cons in Hd as [Hx Hd].
  constructor; [by apply IH|]. constructor.
  destruct (Qcle_lt_or_eq _ _ Hxy) as [| ->]; [done|].
  exfalso. apply Hx, list_elem_of_here.
Qed.

Lemma descending_strict (w : list Qc) :
  utils.descending w = true → NoDup w → StronglySorted Qclt (reverse w).
Proof.
  intros Ha Hd. apply Sorted_StronglySorted; [apply _|].
  apply (Sorted_reverse (flip Qclt)).
  induction w as [|x [|y w] IH]; [constructor | by repeat constructor |].
  cbn in Ha. apply andb_true_iff in Ha as [Hxy Ha].
  apply bool_decide_eq_true in Hxy.
  apply NoDup_cons in Hd as [Hx Hd].
  constructor; [by apply IH|]. constructor. unfold flip.
  destruct (Qcle_lt_or_eq _ _ Hxy) as [| <-]; [done|].
  exfalso. apply Hx, list_elem_of_here.
Qed.

Lemma np_last_elem (w : list Qc) (b : Qc) : np.last w = Ok b → b ∈ w.
Proof.
  unfold np.last. destruct (reverse w) as [|x r] eqn:E; [done|].
  intros [= ->]. apply elem_of_reverse. rewrite E. apply list_elem_of_here.
Qed.

Lemma np_last_nonempty (w : list Qc) : w ≠ [] → ∃ b, np.last w = Ok b.
Proof.
  intros H. unfold np.last. destruct (reverse w) as [|x r] eqn:E.
  - apply (f_equal reverse) in E. rewrite reverse_involutive in E. done.
  - by eexists.
Qed.

Lemma sorted_first_last (w : list Qc) (a b : Qc) :
  StronglySorted Qclt w → np.first w = Ok a → np.last w = Ok b →
  a < b ∨ w = [a].
Proof.
  intros Hs Ha Hb. destruct w as [|x w]; [done|]. injection Ha as ->.
  destruct w as [|y w]; [by right|]. left.
  apply StronglySorted_inv in Hs as [_ Hall].
  destruct (np_last_nonempty (y :: w)) as [b' Hb']; [done|].
  rewrite (np_last_cons _ a _ Hb') in Hb. injection Hb as ->.
  rewrite Forall_forall in Hall. by apply Hall, np_last_elem.
Qed.

(** A valid grid runs upwards, or its reverse does; the comparison of the
    two end points tells which. *)
Lemma grid_orientation (w : list Qc) (n0 n1 : Qc) :
  utils.validate_wavelengths w = Ok () →
  np.first w = Ok n0 → np.last w = Ok n1 →
  (n0 < n1 ∧ StronglySorted Qclt w) ∨
  (¬ n0 < n1 ∧ StronglySorted Qclt (reverse w)).
Proof.
  intros (Hmono & Hdup & _)%validate_wavelengths_ok H0 H1.
  destruct Hmono as [Ha|Hd].
  - pose proof (ascending_strict w Ha Hdup) as Hs.
    destruct (sorted_first_last w n0 n1 Hs H0 H1) as [| ->]; [by left|].
    right. injection H1 as <-. split; [apply irreflexivity, _ | done].
  - pose proof (descending_strict w Hd Hdup) as Hs. right. split; [|done].
    assert (np.last (reverse w) = Ok n0) as H0'.
    { unfold np.last. by rewrite reverse_involutive. }
    destruct (sorted_first_last (reverse w) n1 n0 Hs H1 H0') as [Hlt|E].
    + intros Hgt. by apply (Qclt_not_le _ _ Hlt), Qclt_le_weak.
    + rewrite E in H0'. injection H0' as ->. apply irreflexivity, _.
Qed.

(** ** Interpolation at the grid points *)

Lemma interp_from_start (x0 y0 : Qc) (xp fp : list Qc) :
  StronglySorted Qclt (x0 :: xp) → np.interp_from x0 x0 y0 xp fp = y0.
Proof.
  intros Hs. destruct xp as [|x1 xp], fp as [|y1 fp]; try done. cbn.
  apply StronglySorted_inv in Hs as [_ Hall].
  apply Forall_cons in Hall as [Hlt _].
  rewrite decide_True by done.
  replace (x0 - x0) with 0 by ring. ring.
Qed.

Lemma interp_from_grid (xp fp : list Qc) (x0 y0 : Qc) :
  StronglySorted Qclt (x0 :: xp) → length xp = length fp →
  (λ x, np.interp_from x x0 y0 xp fp) <$> xp = fp.
Proof.
  revert fp x0 y0. induction xp as [|x1 xp IH]; intros [|y1 fp] x0 y0 Hs Hlen;
    try done.
  apply StronglySorted_inv in Hs as [Hs Hall].
  apply Forall_cons in Hall as [Hlt Hall]. cbn -[np.interp_from].
  f_equal.
  - cbn. rewrite decide_False by (apply irreflexivity, _).
    by apply interp_from_start.
  - transitivity ((λ x, np.interp_from x x1 y1 xp fp) <$> xp);
      [|apply IH; [done | by injection Hlen]].
    apply list_fmap_ext. intros i x Hx. cbn.
    pose proof (StronglySorted_inv Hs) as [_ Hall1].
    rewrite Forall_forall in Hall1.
    rewrite decide_False; [done|].
    intros Hgt. apply (Qclt_not_le _ _ Hgt), Qclt_le_weak, Hall1.
    by eapply list_elem_of_lookup_2.
Qed.

(** Interpolating a table at its own abscissae returns its ordinates. *)
Lemma interp_own_grid (xp fp : list Qc) :
  StronglySorted Qclt xp → xp ≠ [] → length xp = length fp →
  np.interp xp xp fp = Ok fp.
Proof.
  intros Hs Hne Hlen. unfold np.interp.
  rewrite decide_False by done. rewrite decide_True by done. f_equal.
  destruct xp as [|x0 xp]; [done|]. destruct fp as [|y0 fp]; [done|].
  cbn -[np.interp_from]. f_equal.
  - rewrite decide_False by (apply irreflexivity, _).
    by apply interp_from_start.
  - transitivity ((λ x, np.interp_from x x0 y0 xp fp) <$> xp);
      [|apply interp_from_grid; [done | by injection Hlen]].
    apply list_fmap_ext. intros i x Hx. cbn -[np.interp_from].
    apply StronglySorted_inv in Hs as [_ Hall]. rewrite Forall_forall in Hall.
    rewrite decide_False; [done|].
    intros Hgt. apply (Qclt_not_le _ _ Hgt), Qclt_le_weak, Hall.
    by eapply list_elem_of_lookup_2.
Qed.

(** ** Resampling *)

Section Resample.

Context `{US : UnitSystem}.

Lemma np_first_nonempty (w : list Qc) : w ≠ [] → ∃ a, np.first w = Ok a.
Proof. destruct w; [done|]. by eexists. Qed.

Lemma resample_onto_own_grid (s : Spectrum) (wavelengths : ArrayLike) :
  spectral_to_same → valid s →
  as_quantity wavelengths (unit_of (wave s)) = wave s →
  resample s wavelengths = Ok (flux s).
Proof.
  intros Hsame (_ & _ & Hgrid & Hlen & Hne & _) Hq.
  unfold resample. rewrite Hq, Hgrid. cbn. rewrite Hsame. cbn.
  destruct (np_first_nonempty _ Hne) as [n0 H0].
  destruct (np_last_nonempty _ Hne) as [n1 H1].
  rewrite H0, H1. cbn.
  destruct (grid_orientation _ _ _ Hgrid H0 H1) as [[Hlt Hs]|[Hge Hs]].
  - rewrite !decide_True by done. cbn.
    rewrite interp_own_grid by done. cbn.
    rewrite decide_False by (by intros []). by destruct (flux s).
  - rewrite !decide_False by done. cbn.
    rewrite interp_own_grid; [cbn| done | |].
    + rewrite decide_False by (by intros []).
      rewrite reverse_involutive. by destruct (flux s).
    + intros E. apply Hne. apply (f_equal reverse) in E.
      by rewrite reverse_involutive in E.
    + by rewrite !length_reverse.
Qed.

(** C6. Resampling a valid spectrum onto its own wavelength grid, given
    as the quantity [self.wave] or as its bare values, returns the value
    array of the spectrum, entry for entry in the order of the grid.  The
    grid of a valid spectrum is strictly ascending or strictly
    descending; both are covered.  With rationals in place of floats the
    two arrays are equal. *)
Theorem resample_own_grid (s : Spectrum) :
  spectral_to_same → valid s →
  resample s (Qty (wave s)) = Ok (flux s) ∧
  resample s (Raw (value (wave s))) = Ok (flux s).
Proof.
  intros Hsame Hv. split; apply resample_onto_own_grid; try done.
  cbn. by destruct (wave s).
Qed.

Lemma init_metadata_expr (c : Class) (header : gmap string string) :
  is_Some (init_metadata c header !! "expr").
Proof.
  unfold init_metadata. destruct (header !! "expr") eqn:E.
  - rewrite E. by eexists.
  - rewrite lookup_insert_eq. by eexists.
Qed.

(** The constructor establishes the invariants (for a unit that is not a
    magnitude). *)
Lemma init_valid (c : Class) (wavelengths fluxes : ArrayLike)
    (flux_unit : Unit) (area : option ScalarLike)
    (header : gmap string string) (s : Spectrum) :
  __init__ c wavelengths fluxes flux_unit area header = Ok s →
  decompose (unit_of (flux s)) ≠ mag →
  cls s = c ∧ valid s.
Proof.
  unfold __init__.
  set (fl := as_quantity fluxes _). set (wv := as_quantity wavelengths AA).
  destruct (_validate_flux_unit c (unit_of fl)) as [[]|] eqn:Hu; [cbn|done].
  unfold _validate_flux_value.
  destruct (decide (decompose (unit_of fl) ≠ mag)) as [Hm|Hm]; cbn.
  - destruct (np.min (value fl)) as [m|] eqn:Hmin; [cbn|done].
    assert (value fl ≠ []) as Hfne by (intros E; by rewrite E in Hmin).
    destruct (decide (m < 0)) as [Hneg|Hpos]; cbn.
    + destruct (utils.validate_wavelengths (value wv)) as [[]|] eqn:Hw;
        [cbn|done].
      case_decide as Hlen; [done|].
      destruct (validate_area_arg area); [cbn|done].
      intros [= <-] _. cbn. split; [done|]. repeat split; try done.
      * intros _. apply zero_negatives_nonneg.
      * intros E. cbn in E. rewrite E in Hlen. cbn in Hlen.
        unfold zero_negatives in Hlen. rewrite length_fmap in Hlen.
        by destruct (value fl).
      * apply init_metadata_expr.
    + destruct (utils.validate_wavelengths (value wv)) as [[]|] eqn:Hw;
        [cbn|done].
      case_decide as Hlen; [done|].
      destruct (validate_area_arg area); [cbn|done].
      intros [= <-] _. cbn. split; [done|]. repeat split; try done.
      * intros _. apply np_min_spec in Hmin as [_ Hall].
        eapply Forall_impl; [exact Hall|]. cbn. intros x Hx.
        eapply Qcle_trans; [|exact Hx]. by apply Qcnot_lt_le.
      * intros E. cbn in E. rewrite E in Hlen. by destruct (value fl).
      * apply init_metadata_expr.
  - destruct (utils.validate_wavelengths (value wv)) as [[]|]; [cbn|done].
    case_decide; [done|]. destruct (validate_area_arg area); [cbn|done].
    intros [= <-]. cbn. intros Hm'. by destruct Hm.
Qed.

End Resample.

(** ** The constructor, read backwards *)

Section Init.

Context `{US : UnitSystem}.

Lemma init_inv (c : Class) (wavelengths fluxes : ArrayLike)
    (flux_unit : Unit) (area : option ScalarLike)
    (header : gmap string string) (r : Spectrum) :
  let fl := as_quantity fluxes
              (if isinstance c BaseUnitlessSpectrum then THROUGHPUT
               else flux_unit) in
  __init__ c wavelengths fluxes flux_unit area header = Ok r →
  cls r = c ∧
  wave r = as_quantity wavelengths AA ∧
  metadata r = init_metadata c header ∧
  validate_area_arg area = Ok (primary_area r) ∧
  _validate_flux_value fl ∅ = Ok (flux r, warnings r).
Proof.
  intros fl. unfold __init__. fold fl.
  destruct (_validate_flux_unit c (unit_of fl)) as [[]|]; [cbn|done].
  destruct (_validate_flux_value fl ∅) as [[fl' w']|]; [cbn|done].
  destruct (utils.validate_wavelengths _) as [[]|]; [cbn|done].
  case_decide; [done|].
  destruct (validate_area_arg area); [cbn|done].
  by intros [= <-].
Qed.

(** A freshly constructed instance carries no warning but, possibly,
    [NegativeFlux]. *)
Lemma validate_flux_value_warnings (fl fl' : Quantity)
    (w : gmap string string) :
  _validate_flux_value fl ∅ = Ok (fl', w) →
  w = ∅ ∨
  w = {[ "NegativeFlux" :=
           negative_flux_warning (count_negatives (value fl))
                                 (length (value fl)) ]}.
Proof.
  unfold _validate_flux_value. case_decide; [|intros [= <- <-]; by left].
  destruct (np.min (value fl)); [cbn|done].
  case_decide; intros [= <- <-]; [by right | by left].
Qed.

(** Values that are already admissible pass [_validate_flux_value] as
    they are. *)
Lemma validate_flux_value_unchanged (fl : Quantity) :
  value fl ≠ [] →
  (decompose (unit_of fl) ≠ mag → Forall (λ x, 0 <= x) (value fl)) →
  _validate_flux_value fl ∅ = Ok (fl, ∅).
Proof.
  intros Hne Hpos. unfold _validate_flux_value.
  case_decide as Hm; [|done].
  destruct (np_min_nonempty _ Hne) as [m Hmin]. rewrite Hmin. cbn.
  rewrite decide_False; [done|].
  intros Hneg. apply (np_min_negative _ _ Hmin) in Hneg.
  apply Exists_exists in Hneg as (x & Hx & Hlt).
  specialize (Hpos Hm). rewrite Forall_forall in Hpos.
  by apply (Qclt_not_le _ _ Hlt), Hpos.
Qed.

Lemma validate_area_stored (a : option Qc) :
  quantity_to_same → validate_area_arg (area_arg a) = Ok a.
Proof.
  intros Hsame. destruct a as [x|]; [|done]. cbn. by rewrite Hsame.
Qed.

(** Rebuilding a valid instance from its own attributes, on a grid [wv]
    of the same length. *)
Lemma init_rebuild_on (s : Spectrum) (wv : Quantity) (fu : Unit)
    (header : gmap string string) :
  quantity_to_same → valid s →
  utils.validate_wavelengths (value wv) = Ok () →
  length (value wv) = length (value (flux s)) →
  __init__ (cls s) (Qty wv) (Qty (flux s)) fu
           (area_arg (primary_area s)) header =
    Ok {| cls := cls s; wave := wv; flux := flux s;
          primary_area := primary_area s;
          metadata := init_metadata (cls s) header; warnings := ∅ |}.
Proof.
  intros Hsame (Hunit & Hpos & Hgrid & Hlen & Hne & _) Hwv Hlen'.
  unfold __init__. cbn. rewrite Hunit. cbn.
  rewrite validate_flux_value_unchanged; [cbn| |done].
  - rewrite Hwv. cbn. rewrite decide_False by (by intros []).
    by rewrite validate_area_stored.
  - intros E. rewrite E in Hlen. by destruct (value (wave s)).
Qed.

Lemma init_rebuild (s : Spectrum) (fu : Unit) (header : gmap string string) :
  quantity_to_same → valid s →
  __init__ (cls s) (Qty (wave s)) (Qty (flux s)) fu
           (area_arg (primary_area s)) header =
    Ok {| cls := cls s; wave := wave s; flux := flux s;
          primary_area := primary_area s;
          metadata := init_metadata (cls s) header; warnings := ∅ |}.
Proof.
  intros Hsame Hv. apply init_rebuild_on; try done; apply Hv.
Qed.

End Init.

(** ** Arithmetic *)

Section Arithmetic.

Context `{US : UnitSystem} `{Co : !Collaborators}.

Lemma cross_variant_not_instance (self other : Spectrum) :
  cross_variant self other → isinstance (cls other) (cls self) = false.
Proof.
  intros [[-> H]|[H ->]]; [by destruct (cls other) | by destruct (cls self)].
Qed.

Lemma operate_on_incompatible (self other : Spectrum) (op : OpType) :
  incompatible self other op →
  _operate_on self (PySpec other) op = Raise IncompatibleSources.
Proof.
  intros Hinc. unfold _operate_on.
  destruct (decide (primary_area self ≠ primary_area other)) as [|Harea];
    [done|].
  destruct (bool_decide (op = Div) &&
            bool_decide (unit_of (flux other) ≠ dimensionless_unscaled))
    eqn:Hdiv; [done|].
  destruct (bool_decide (op = Mul) &&
            bool_decide (unit_of (flux self) ≠ dimensionless_unscaled) &&
            bool_decide (unit_of (flux other) ≠ dimensionless_unscaled))
    eqn:Hmul; [done|].
  destruct (bool_decide (op ∈ [Add; Sub]) &&
            negb (isinstance (cls other) (cls self)))
    eqn:Hadd; [done|].
  exfalso. destruct Hinc as [Ha|[[-> Hd]|[(-> & H1 & H2)|[Hop Hx]]]].
  - done.
  - by rewrite !bool_decide_eq_true_2 in Hdiv.
  - by rewrite !bool_decide_eq_true_2 in Hmul.
  - rewrite (cross_variant_not_instance _ _ Hx) in Hadd.
    rewrite bool_decide_eq_true_2 in Hadd; [done|].
    destruct Hop as [-> | ->]; set_solver.
Qed.

Lemma incompatible_mul_sym (self other : Spectrum) :
  incompatible self other Mul → incompatible other self Mul.
Proof.
  intros [Ha|[[? _]|[(_ & H1 & H2)|[[?|?] _]]]]; try done.
  - by left.
  - right. right. by left.
Qed.

(** C1. When two spectra violate one of the compatibility rules, namely
    (1) their collecting areas differ (one undefined and the other not,
    or two different values), (2) the operation is a division and the
    right operand is not dimensionless, (3) the operation is a
    multiplication and neither operand is dimensionless, (4) the
    operation is an addition or a subtraction and one operand is a source
    spectrum while the other is a passband, then [_operate_on], and so
    each of the four operators, raises [IncompatibleSources].  This holds
    for every grid and every value array of the operands and for every
    implementation of the grid merge: the rules are checked before
    anything is computed from the arrays.  The operands are values that
    the function cannot alter. *)
Theorem incompatible_operands (self other : Spectrum) (op : OpType) :
  incompatible self other op →
  _operate_on self (PySpec other) op = Raise IncompatibleSources ∧
  operator op self (PySpec other) = Raise IncompatibleSources.
Proof.
  intros Hinc. split; [by apply operate_on_incompatible|].
  destruct op; cbn; try by apply operate_on_incompatible.
  unfold __mul__.
  destruct (isinstance (cls self) BaseUnitlessSpectrum);
    [|by apply operate_on_incompatible].
  destruct (isinstance (cls other) SourceSpectrum);
    [|by apply operate_on_incompatible].
  by apply operate_on_incompatible, incompatible_mul_sym.
Qed.

(** *** The result of an operation *)

(** Every result of [_operate_on] comes out of the constructor of the
    class of [self], called with the merged metadata less its ["expr"]
    entry. *)
Lemma operate_on_inv (self : Spectrum) (other : PyObj) (op : OpType)
    (r : Spectrum) :
  _operate_on self other op = Ok r →
  ∃ new_wave result,
    __init__ (cls self) (Qty new_wave) (Qty result) FLAM
             (area_arg (primary_area self))
             (delete "expr" (metadata self ∪ operand_metadata other)) = Ok r.
Proof.
  unfold _operate_on. destruct other as [x|o|x u| |]; try done.
  - cbn. destruct (_ !! "expr"); [eauto|done].
  - destruct (decide (primary_area self ≠ primary_area o)); [done|].
    destruct (bool_decide (op = Div) && _); [done|].
    destruct (bool_decide (op = Mul) && _ && _); [done|].
    destruct (bool_decide (op ∈ [Add; Sub]) && _); [done|].
    destruct (_ || _); [done|].
    destruct (merge_wave self o) as [nw|]; [cbn|done].
    destruct (resample self (Qty nw)) as [f1|]; [cbn|done].
    match goal with
    | |- context [mbind _ (if ?c then ?a else ?b)] =>
        destruct (if c then a else b) as [f2|]; [cbn|done]
    end.
    destruct (quantity_op op f1 f2) as [res|]; [cbn|done].
    destruct (_ !! "expr"); [eauto|done].
Qed.

Lemma resample_set_warnings (s : Spectrum) (w : gmap string string)
    (wl : ArrayLike) :
  resample (set_warnings s w) wl = resample s wl.
Proof. reflexivity. Qed.

Lemma convert_flux_set_warnings (s : Spectrum) (w : gmap string string)
    (u : Unit) (wl : ArrayLike) :
  (s' ← convert_flux (set_warnings s w) u; resample s' wl) =
  (s' ← convert_flux s u; resample s' wl).
Proof.
  unfold convert_flux. cbn. destruct (cls s); try done.
  destruct (_validate_flux_unit _ _); [cbn|done].
  by destruct (convert_flux_values _ _ _ _ _ _).
Qed.

Lemma operate_on_ignores_warnings (self : Spectrum) (other : PyObj)
    (op : OpType) (w1 w2 : gmap string string) :
  _operate_on (set_warnings self w1) (with_warnings other w2) op =
  _operate_on self other op.
Proof.
  destruct other as [x|o|x u| |]; try done.
  unfold _operate_on; cbn.
  repeat (match goal with
          | |- context [if ?c then Raise IncompatibleSources else _] =>
              destruct c; [done|]
          end).
  change (merge_wave (set_warnings self w1) (set_warnings o w2))
    with (merge_wave self o).
  destruct (merge_wave self o) as [nw|]; [cbn|done].
  change (resample (set_warnings self w1) (Qty nw))
    with (resample self (Qty nw)).
  destruct (resample self (Qty nw)) as [f1|]; [cbn|reflexivity].
  destruct (bool_decide (op ∈ [Add; Sub])); [|reflexivity].
  by rewrite convert_flux_set_warnings.
Qed.

Lemma operate_on_warnings (self : Spectrum) (other : PyObj) (op : OpType)
    (r : Spectrum) :
  _operate_on self other op = Ok r → fresh_warnings r.
Proof.
  intros Hop. destruct (operate_on_inv _ _ _ _ Hop) as (nw & res & Hinit).
  apply init_inv in Hinit as (_ & _ & _ & _ & Hval). unfold fresh_warnings.
  apply validate_flux_value_warnings in Hval as [->| ->];
    [by left | right; eauto].
Qed.

Lemma mul_warnings (self : Spectrum) (other : PyObj) (r : Spectrum) :
  __mul__ self other = Ok r → fresh_warnings r.
Proof.
  unfold __mul__. destruct (isinstance _ _); [|apply operate_on_warnings].
  destruct other; try apply operate_on_warnings.
  destruct (isinstance _ _); apply operate_on_warnings.
Qed.

Lemma add_mag_warnings (self : Spectrum) (m : PyObj) (r : Spectrum) :
  add_mag self m = Ok r → fresh_warnings r.
Proof.
  unfold add_mag.
  destruct m as [x| |x u| |]; try done;
    (destruct (negb _); [done|]; case_decide;
     [apply operate_on_warnings | apply mul_warnings]).
Qed.

(** The metadata of a result of the engine. *)
Lemma operate_on_metadata (self : Spectrum) (other : PyObj) (op : OpType)
    (r : Spectrum) :
  _operate_on self other op = Ok r →
  cls r = cls self ∧
  metadata r = <["expr" := class_name (cls self)]>
                 (delete "expr" (metadata self ∪ operand_metadata other)).
Proof.
  intros Hop.
  destruct (operate_on_inv _ _ _ _ Hop) as (nw & res & Hinit).
  apply init_inv in Hinit as (Hcls & _ & Hmd & _).
  unfold init_metadata in Hmd. by rewrite lookup_delete_eq in Hmd.
Qed.

Lemma operator_engine (self : Spectrum) (other : PyObj) (op : OpType) :
  operator op self other =
    if delegated op self other
    then match other with
         | PySpec o => _operate_on o (PySpec self) Mul
         | _ => _operate_on self other op
         end
    else _operate_on self other op.
Proof.
  unfold delegated. destruct op; try reflexivity.
  change (operator Mul self other) with (__mul__ self other). unfold __mul__.
  rewrite bool_decide_eq_true_2 by done.
  destruct (isinstance (cls self) BaseUnitlessSpectrum); [|reflexivity].
  destruct other as [x|o|x u| |]; reflexivity.
Qed.

(** C4 (amended). For the result [r] of a binary operation [self op other]
    that succeeds.  With a spectrum [o] on the right, and except for
    passband times source, the metadata of [r] is the metadata of the
    right operand updated by that of the left one: outside ["expr"] a key
    of the left operand keeps the value the left operand gives it and any
    other key has the value of the right operand.  For passband times
    source, which the passband hands over to the source, the roles are
    exchanged and the keys of the source prevail.  With a scalar on the
    right only the metadata of [self] enters.  In every case ["expr"] is
    dropped and set again by the constructor, to the class name of the
    result.  The warnings of the operands have no influence on the result,
    whose own warnings are those of its construction: none, or
    [NegativeFlux] alone. *)
Theorem result_metadata (self : Spectrum) (other : PyObj) (op : OpType)
    (r : Spectrum) :
  operator op self other = Ok r →
  match other with
  | PySpec o =>
      if delegated op self other then
        metadata r = <["expr" := class_name (cls o)]>
                       (delete "expr" (metadata o ∪ metadata self))
      else
        metadata r = <["expr" := class_name (cls self)]>
                       (delete "expr" (metadata self ∪ metadata o)) ∧
        (∀ k v, k ≠ "expr" → metadata self !! k = Some v →
                metadata r !! k = Some v) ∧
        (∀ k, k ≠ "expr" → metadata self !! k = None →
              metadata r !! k = metadata o !! k)
  | _ =>
      metadata r = <["expr" := class_name (cls self)]>
                     (delete "expr" (metadata self))
  end ∧
  metadata r !! "expr" = Some (class_name (cls r)) ∧
  (∀ w1 w2,
     operator op (set_warnings self w1) (with_warnings other w2) = Ok r) ∧
  (warnings r = ∅ ∨
   ∃ n size, warnings r = {[ "NegativeFlux" := negative_flux_warning n size ]}).
Proof.
  intros Hop. pose proof Hop as Heng. rewrite operator_engine in Heng.
  assert (if delegated op self other
          then ∃ o, other = PySpec o ∧ _operate_on o (PySpec self) Mul = Ok r
          else _operate_on self other op = Ok r) as Hcase.
  { revert Heng. unfold delegated.
    destruct other as [x|o|x u| |]; rewrite ?andb_false_r; try done.
    destruct (_ && _ && _); [|done]. intros Heng. by exists o. }
  clear Heng. split; [|split; [|split]].
  - destruct (delegated op self other).
    + destruct Hcase as (o & -> & H).
      by apply operate_on_metadata in H as [_ ->].
    + apply operate_on_metadata in Hcase as [_ ->].
      destruct other as [x|o|x u| |]; cbn;
        rewrite ?(right_id_L ∅ (∪)); try done.
      split; [done|]. split.
      * intros k v Hk Hs.
        rewrite lookup_insert_ne, lookup_delete_ne by done.
        by apply lookup_union_Some_l.
      * intros k Hk Hs.
        rewrite lookup_insert_ne, lookup_delete_ne by done.
        by apply lookup_union_r.
  - destruct (delegated op self other).
    + destruct Hcase as (o & -> & H).
      apply operate_on_metadata in H as [-> ->]. apply lookup_insert_eq.
    + apply operate_on_metadata in Hcase as [-> ->]. apply lookup_insert_eq.
  - intros w1 w2. rewrite operator_engine.
    assert (delegated op (set_warnings self w1) (with_warnings other w2) =
            delegated op self other) as -> by by destruct other.
    destruct (delegated op self other).
    + destruct Hcase as (o & -> & H).
      change (_operate_on (set_warnings o w2)
                (with_warnings (PySpec self) w1) Mul = Ok r).
      by rewrite operate_on_ignores_warnings.
    + by rewrite operate_on_ignores_warnings.
  - destruct (delegated op self other).
    + destruct Hcase as (o & -> & H). by apply (operate_on_warnings _ _ _ _ H).
    + by apply (operate_on_warnings _ _ _ _ Hcase).
Qed.

(** *** Neutral scalars *)

Lemma quantity_add_zero (q : Quantity) : quantity_op_scalar Add q 0 = q.
Proof.
  destruct q as [v u]. unfold quantity_op_scalar. cbn. f_equal.
  induction v as [|x v IH]; [done|]. cbn. f_equal; [ring | done].
Qed.

Lemma quantity_mul_one (q : Quantity) : quantity_op_scalar Mul q 1 = q.
Proof.
  destruct q as [v u]. unfold quantity_op_scalar. cbn. f_equal.
  induction v as [|x v IH]; [done|]. cbn. f_equal; [ring | done].
Qed.

Lemma operate_on_neutral (s : Spectrum) (op : OpType) (x : Qc) :
  quantity_to_same → valid s →
  quantity_op_scalar op (flux s) x = flux s →
  _operate_on s (PyNum x) op =
    Ok {| cls := cls s; wave := wave s; flux := flux s;
          primary_area := primary_area s;
          metadata := <["expr" := class_name (cls s)]> (metadata s);
          warnings := ∅ |}.
Proof.
  intros Hsame Hv Hq. unfold _operate_on. cbn. rewrite Hq.
  rewrite (right_id_L ∅ (∪)).
  destruct Hv as (Hv1 & Hv2 & Hv3 & Hv4 & Hv5 & [e He]). rewrite He.
  rewrite init_rebuild by done. do 2 f_equal.
  unfold init_metadata. rewrite lookup_delete_eq. apply insert_delete_eq.
Qed.

(** C7. Adding the scalar 0 to a valid spectrum and multiplying it by
    the scalar 1 both succeed, and both give a spectrum of the same class
    with the wavelength array, the value array and the area of the
    original (equal, with rationals in place of floats), no warnings, and
    the metadata of the original except that ["expr"] is the class name
    set by the constructor, whatever the original held there. *)
Theorem scalar_identities (s : Spectrum) :
  quantity_to_same → valid s →
  operator Add s (PyNum 0) =
    Ok {| cls := cls s; wave := wave s; flux := flux s;
          primary_area := primary_area s;
          metadata := <["expr" := class_name (cls s)]> (metadata s);
          warnings := ∅ |} ∧
  operator Mul s (PyNum 1) =
    Ok {| cls := cls s; wave := wave s; flux := flux s;
          primary_area := primary_area s;
          metadata := <["expr" := class_name (cls s)]> (metadata s);
          warnings := ∅ |}.
Proof.
  intros Hsame Hv. split; cbn.
  - apply operate_on_neutral; [done..|apply quantity_add_zero].
  - unfold __mul__. destruct (isinstance _ _);
      (apply operate_on_neutral; [done..|apply quantity_mul_one]).
Qed.

(** *** Passband times source *)

(** C9. For a passband [p] (an instance of a unitless class) and a source
    spectrum [s], the multiplication of [p] hands the operation to [s]:
    [p * s] is computed as [s._operate_on(p, '*')], so it is the very
    computation of [s * p] (same values, same outcome), and any result is
    a [SourceSpectrum], not an instance of the class of the left operand
    [p]. *)
Theorem passband_times_source (p s : Spectrum) :
  isinstance (cls p) BaseUnitlessSpectrum = true →
  cls s = SourceSpectrum →
  __mul__ p (PySpec s) = _operate_on s (PySpec p) Mul ∧
  __mul__ p (PySpec s) = __mul__ s (PySpec p) ∧
  ∀ r, __mul__ p (PySpec s) = Ok r →
       cls r = SourceSpectrum ∧ cls r ≠ cls p.
Proof.
  intros Hp Hs.
  assert (__mul__ p (PySpec s) = _operate_on s (PySpec p) Mul) as Hd.
  { unfold __mul__. by rewrite Hp, Hs. }
  split; [done|]. split.
  - rewrite Hd. unfold __mul__. by rewrite Hs.
  - intros r Hr. rewrite Hd in Hr.
    destruct (operate_on_inv _ _ _ _ Hr) as (nw & res & Hinit).
    apply init_inv in Hinit as (Hc & _). rewrite Hc, Hs. split; [done|].
    intros E. rewrite <- E in Hp. done.
Qed.

End Arithmetic.

(** ** Redshift *)

Lemma validate_wavelengths_intro (w : list Qc) :
  utils.ascending w = true ∨ utils.descending w = true →
  NoDup w → Forall (λ x, 0 < x) w →
  utils.validate_wavelengths w = Ok ().
Proof.
  intros Hmono Hdup Hpos. unfold utils.validate_wavelengths.
  apply orb_true_iff in Hmono. rewrite Hmono. cbn.
  rewrite bool_decide_eq_true_2 by done. cbn.
  rewrite bool_decide_eq_false_2; [done|].
  intros (x & Hx & Hle)%Exists_exists.
  rewrite Forall_forall in Hpos. by apply (Qclt_not_le _ _ (Hpos x Hx)).
Qed.

Lemma ascending_scale (w : list Qc) (c : Qc) :
  0 < c → utils.ascending w = true →
  utils.ascending ((λ x, x * c) <$> w) = true.
Proof.
  intros Hc. induction w as [|x [|y w] IH]; [done..|].
  cbn. intros [Hxy Ha]%andb_true_iff. apply andb_true_iff. split.
  - apply bool_decide_eq_true in Hxy. apply bool_decide_eq_true.
    by apply Qcmult_le_mono_pos_r.
  - by apply IH.
Qed.

Lemma descending_scale (w : list Qc) (c : Qc) :
  0 < c → utils.descending w = true →
  utils.descending ((λ x, x * c) <$> w) = true.
Proof.
  intros Hc. induction w as [|x [|y w] IH]; [done..|].
  cbn. intros [Hxy Ha]%andb_true_iff. apply andb_true_iff. split.
  - apply bool_decide_eq_true in Hxy. apply bool_decide_eq_true.
    by apply Qcmult_le_mono_pos_r.
  - by apply IH.
Qed.

Lemma scale_inj (c : Qc) : 0 < c → Inj (=) (=) (λ x : Qc, x * c).
Proof.
  intros Hc x y Hxy. cbn in Hxy.
  destruct (Qclt_le_dec x y) as [Hlt|Hle].
  - apply (Qcmult_lt_mono_pos_r _ _ _ Hc) in Hlt. rewrite Hxy in Hlt.
    by apply irreflexivity in Hlt; [|apply _].
  - destruct (Qcle_lt_or_eq _ _ Hle) as [Hlt|]; [|done].
    apply (Qcmult_lt_mono_pos_r _ _ _ Hc) in Hlt. rewrite Hxy in Hlt.
    by apply irreflexivity in Hlt; [|apply _].
Qed.

(** Scaling a valid grid by a positive factor gives a valid grid. *)
Lemma validate_wavelengths_scale (w : list Qc) (c : Qc) :
  0 < c → utils.validate_wavelengths w = Ok () →
  utils.validate_wavelengths ((λ x, x * c) <$> w) = Ok ().
Proof.
  intros Hc (Hmono & Hdup & Hpos)%validate_wavelengths_ok.
  apply validate_wavelengths_intro.
  - destruct Hmono; [left; by apply ascending_scale
                    | right; by apply descending_scale].
  - apply NoDup_fmap_2; [by apply scale_inj | done].
  - apply Forall_fmap. eapply Forall_impl; [exact Hpos|].
    intros x Hx. cbn. by apply Qcmult_pos_pos.
Qed.

Section Redshift.

Context `{US : UnitSystem} `{Co : !Collaborators}.

Lemma redshifted_valid (s : Spectrum) (z : Qc) :
  valid s → 0 < 1 + z →
  utils.validate_wavelengths (value (redshifted s z)) = Ok () ∧
  length (value (redshifted s z)) = length (value (flux s)).
Proof.
  intros (_ & _ & Hgrid & Hlen & _) Hz. unfold redshifted.
  case_decide; cbn; rewrite length_fmap; (split; [|done]).
  - by apply validate_wavelengths_scale.
  - apply (validate_wavelengths_scale _ (/ (1 + z)));
      [by apply Qcinv_pos | done].
Qed.

Lemma redshifted_zero (s : Spectrum) : redshifted s 0 = wave s.
Proof.
  unfold redshifted, quantity_op_scalar. destruct (wave s) as [v u]. cbn.
  case_decide; f_equal.
  - induction v as [|x v IH]; [done|]. cbn. f_equal; [ring | done].
  - induction v as [|x v IH]; [done|]. cbn. f_equal; [|done].
    by field.
Qed.

(** C8. For a numeric [z], any spectrum [apply_redshift] returns is of
    the class of [self] and has the grid of [self], in the same unit,
    with every wavelength multiplied by [1 + z] when the unit is a
    length, and divided by [1 + z] otherwise (frequency, wavenumber).
    For a valid spectrum and [1 + z] positive the call does return, with
    the values and the area of the original; at [z = 0] the wavelengths
    returned are those of the original.  A [z] that is not a number
    raises [SynphotError].  The original is a value the function cannot
    alter. *)
Theorem apply_redshift_wavelengths (s : Spectrum) (z : Qc) :
  (∀ r, apply_redshift s (PyNum z) = Ok r →
        cls r = cls s ∧
        unit_of (wave r) = unit_of (wave s) ∧
        (physical_type (unit_of (wave s)) = "length" →
         value (wave r) = (λ w, w * (1 + z)) <$> value (wave s)) ∧
        (physical_type (unit_of (wave s)) ≠ "length" →
         value (wave r) = (λ w, w / (1 + z)) <$> value (wave s))) ∧
  (quantity_to_same → valid s → 0 < 1 + z →
   ∃ r, apply_redshift s (PyNum z) = Ok r ∧
        flux r = flux s ∧ primary_area r = primary_area s) ∧
  (quantity_to_same → valid s →
   ∃ r, apply_redshift s (PyNum 0) = Ok r ∧ wave r = wave s) ∧
  (∀ o, (∀ x, o ≠ PyNum x) → apply_redshift s o = Raise SynphotError).
Proof.
  assert (∀ z', quantity_to_same → valid s → 0 < 1 + z' →
    apply_redshift s (PyNum z') =
      Ok {| cls := cls s; wave := redshifted s z'; flux := flux s;
            primary_area := primary_area s;
            metadata :=
              init_metadata (cls s)
                (<["expr" := default "" (metadata s !! "expr") +:+
                             " at z=" +:+ format_number z']> (metadata s));
            warnings := ∅ |}) as Htotal.
  { intros z' Hsame Hv Hz. unfold apply_redshift, __str__.
    destruct (redshifted_valid s z' Hv Hz) as [Hw Hl].
    pose proof Hv as (_ & _ & _ & _ & _ & [e He]). rewrite He. cbn.
    fold (redshifted s z'). by rewrite init_rebuild_on. }
  repeat split.
  - unfold apply_redshift in H. destruct (__str__ s); [cbn in H|done].
    by apply init_inv in H as (? & _).
  - unfold apply_redshift in H. destruct (__str__ s); [cbn in H|done].
    apply init_inv in H as (_ & -> & _). cbn. by case_decide.
  - intros Hlen. unfold apply_redshift in H.
    destruct (__str__ s); [cbn in H|done].
    apply init_inv in H as (_ & -> & _). cbn. by rewrite decide_True.
  - intros Hlen. unfold apply_redshift in H.
    destruct (__str__ s); [cbn in H|done].
    apply init_inv in H as (_ & -> & _). cbn. by rewrite decide_False.
  - intros Hsame Hv Hz. eexists. by rewrite Htotal.
  - intros Hsame Hv. rewrite Htotal; [|done|done|by vm_compute].
    eexists. split; [done|]. apply redshifted_zero.
  - intros o Ho. destruct o; try done. by destruct (Ho x).
Qed.

End Redshift.

(** ** Overlap *)

Lemma maximum_ge_l (x y : Qc) : x <= np.maximum x y.
Proof.
  unfold np.maximum. case_decide; [by apply Qclt_le_weak | apply Qcle_refl].
Qed.

Lemma maximum_ge_r (x y : Qc) : y <= np.maximum x y.
Proof.
  unfold np.maximum. case_decide; [apply Qcle_refl | by apply Qcnot_lt_le].
Qed.

Lemma foldl_maximum_ge (a : list Qc) (x : Qc) :
  x <= foldl np.maximum x a ∧ Forall (λ y, y <= foldl np.maximum x a) a.
Proof.
  revert x. induction a as [|y a IH]; intros x; cbn.
  - split; [apply Qcle_refl | constructor].
  - destruct (IH (np.maximum x y)) as [H1 H2]. split.
    + eapply Qcle_trans; [apply maximum_ge_l | exact H1].
    + constructor; [|exact H2].
      eapply Qcle_trans; [apply maximum_ge_r | exact H1].
Qed.

Lemma np_min_le_max (a : list Qc) (m M : Qc) :
  np.min a = Ok m → np.max a = Ok M → m <= M.
Proof.
  destruct a as [|x a]; [done|]. cbn. intros [= <-] [= <-].
  destruct (foldl_minimum_spec a x) as [H1 _].
  destruct (foldl_maximum_ge a x) as [H2 _].
  by eapply Qcle_trans.
Qed.

Lemma np_max_nonempty (a : list Qc) : a ≠ [] → ∃ m, np.max a = Ok m.
Proof. destruct a; [done|]. intros _. by eexists. Qed.

Section Overlap.

Context `{US : UnitSystem}.

Lemma nonzero_wave_nonempty (s : Spectrum) :
  length (value (wave s)) = length (value (flux s)) →
  Exists (λ y, y ≠ 0) (value (flux s)) →
  nonzero_wave s ≠ [].
Proof.
  unfold nonzero_wave.
  generalize (value (wave s)) as w, (value (flux s)) as f.
  intros w f Hlen Hex. revert w Hlen.
  induction Hex as [y f Hy | y f _ IH]; intros [|x w] Hlen; try done;
    change (zip (x :: w) (y :: f)) with ((x, y) :: zip w f).
  - by rewrite filter_cons_True.
  - rewrite filter_cons. case_decide; [done|]. apply IH. by injection Hlen.
Qed.

Lemma check_overlap_full (self other : Spectrum) (threshold : Qc)
    (b : list Qc) (a1 a2 b1 b2 : Qc) :
  spectral_to (unit_of (wave other)) (unit_of (wave self))
              (nonzero_wave other) = Ok b →
  np.min (nonzero_wave self) = Ok a1 → np.max (nonzero_wave self) = Ok a2 →
  np.min b = Ok b1 → np.max b = Ok b2 →
  b1 <= a1 → a2 <= b2 →
  check_overlap self other threshold = Ok "full".
Proof.
  intros Hb Ha1 Ha2 Hb1 Hb2 H1 H2. unfold check_overlap.
  rewrite Hb. cbn -[integrate]. unfold utils.overlap_status.
  rewrite Ha1, Ha2, Hb1, Hb2. cbn -[integrate].
  rewrite !bool_decide_eq_true_2 by done. reflexivity.
Qed.

End Overlap.

(** ** Renormalisation *)

Section Renorm.

Context `{US : UnitSystem} `{Co : !Collaborators}.

(** Whatever [renorm_from] returns carries the warnings it was given,
    and beside them only those of the construction of the result. *)
Lemma renorm_from_warnings (self : Spectrum) (renorm_val : ScalarLike)
    (band : Spectrum) (vegaspec : PyObj) (warns : gmap string string)
    (r : Spectrum) :
  renorm_from self renorm_val band vegaspec warns = Ok r →
  ∃ newsp, fresh_warnings newsp ∧ warnings r = warns ∪ warnings newsp.
Proof.
  unfold renorm_from.
  destruct renorm_val as [x|x u];
    (destruct (__mul__ self (PySpec band)) as [sp|]; [|done]);
    cbn -[__mul__ add_mag integrate convert_flux];
    (match goal with
     | |- context [mbind _ (if ?c then ?a else ?b)] =>
         destruct (if c then a else b) as [[tf sf]|]; [|done]
     end);
    cbn -[__mul__ add_mag integrate convert_flux];
    (destruct (utils.validate_totalflux tf); [|done]);
    cbn -[__mul__ add_mag integrate convert_flux];
    (case_decide;
     [destruct (add_mag _ _) as [newsp|] eqn:Hn; [|done]
     |destruct (__mul__ self (PyNum _)) as [newsp|] eqn:Hn; [|done]]);
    cbn; intros [= <-]; exists newsp;
    (split; [|done]); eauto using add_mag_warnings, mul_warnings.
Qed.

Lemma fresh_warnings_no_partial (newsp : Spectrum) :
  fresh_warnings newsp → warnings newsp !! "PartialRenorm" = None.
Proof. by intros [->|(n & size & ->)]. Qed.

(** C2. For [renorm] with a [SpectralElement] as [band], let [stat] be
    the overlap class of [band] against the spectrum (threshold 1%).  If
    it is ['none'] the call raises [DisjointError] whatever [force] is;
    if it is ['partial_notmost'] and [force] is false it raises
    [PartialOverlap].  If it is ['partial_most'], or ['partial_notmost']
    with [force] true, the rest of the procedure is carried out with a
    [PartialRenorm] warning recorded, and every spectrum returned
    carries that warning; if it is ['full'] the rest is carried out with
    no warning recorded and no spectrum returned has a [PartialRenorm]
    warning. *)
Theorem renorm_overlap (self band : Spectrum) (renorm_val : ScalarLike)
    (vegaspec : PyObj) (stat : string) :
  cls band = SpectralElement →
  check_overlap band self (qfrac 1 100) = Ok stat →
  (stat = "none" →
   ∀ force, renorm self renorm_val (PySpec band) force vegaspec =
            Raise DisjointError) ∧
  (stat = "partial_notmost" →
   renorm self renorm_val (PySpec band) false vegaspec =
     Raise PartialOverlap) ∧
  (stat = "partial_most" →
   ∀ force,
     renorm self renorm_val (PySpec band) force vegaspec =
       renorm_from self renorm_val band vegaspec
         {[ "PartialRenorm" := partial_most_warning ]} ∧
     ∀ r, renorm self renorm_val (PySpec band) force vegaspec = Ok r →
          warnings r !! "PartialRenorm" = Some partial_most_warning) ∧
  (stat = "partial_notmost" →
   renorm self renorm_val (PySpec band) true vegaspec =
     renorm_from self renorm_val band vegaspec
       {[ "PartialRenorm" := partial_notmost_warning ]} ∧
   ∀ r, renorm self renorm_val (PySpec band) true vegaspec = Ok r →
        warnings r !! "PartialRenorm" = Some partial_notmost_warning) ∧
  (stat = "full" →
   ∀ force,
     renorm self renorm_val (PySpec band) force vegaspec =
       renorm_from self renorm_val band vegaspec ∅ ∧
     ∀ r, renorm self renorm_val (PySpec band) force vegaspec = Ok r →
          warnings r !! "PartialRenorm" = None).
Proof.
  intros Hcls Hstat.
  assert (∀ force, renorm self renorm_val (PySpec band) force vegaspec =
    (warns ←
       (if decide (stat = "none") then Raise DisjointError
        else if decide (stat = "partial_most") then
          Ok (<["PartialRenorm" := partial_most_warning]> ∅)
        else if decide (stat = "partial_notmost") then
          if force
          then Ok (<["PartialRenorm" := partial_notmost_warning]> ∅)
          else Raise PartialOverlap
        else if decide (stat ≠ "full") then Raise SynphotError
        else Ok ∅);
     renorm_from self renorm_val band vegaspec warns)) as Hrenorm.
  { intros force. unfold renorm. rewrite Hcls. cbn -[renorm_from].
    by rewrite Hstat. }
  split; [|split; [|split; [|split]]].
  - intros -> force. by rewrite Hrenorm.
  - intros ->. by rewrite Hrenorm.
  - intros -> force. rewrite Hrenorm. cbn -[renorm_from].
    split; [done|]. intros r (newsp & _ & ->)%renorm_from_warnings.
    apply lookup_union_Some_l, lookup_insert_eq.
  - intros ->. rewrite Hrenorm. cbn -[renorm_from].
    split; [done|]. intros r (newsp & _ & ->)%renorm_from_warnings.
    apply lookup_union_Some_l, lookup_insert_eq.
  - intros -> force. rewrite Hrenorm. cbn -[renorm_from].
    split; [done|]. intros r (newsp & Hf & ->)%renorm_from_warnings.
    rewrite (left_id_L ∅ (∪)). by apply fresh_warnings_no_partial.
Qed.

End Renorm.

(** * Further properties

    Properties of the methods beyond the ones above: what [resample],
    [trim_spectrum], the operators, [taper], [apply_redshift], the
    constructor, [integrate], [renorm] and the passband statistics do on
    every input of their domain. *)

Lemma Qclt_irreflexive (x : Qc) : ¬ x < x.
Proof. intros H. by apply (Qclt_not_le _ _ H), Qcle_refl. Qed.

Lemma np_first_reverse (w : list Qc) : np.first (reverse w) = np.last w.
Proof. reflexivity. Qed.

Lemma np_last_reverse (w : list Qc) : np.last (reverse w) = np.first w.
Proof. unfold np.last. by rewrite reverse_involutive. Qed.

Lemma interp_reverse (x xp fp : list Qc) :
  np.interp (reverse x) xp fp = (r ← np.interp x xp fp; Ok (reverse r)).
Proof.
  unfold np.interp. repeat case_decide; try done. cbn.
  by rewrite fmap_reverse.
Qed.

Section ResampleForm.

Context `{US : UnitSystem}.

Lemma resample_interp (self : Spectrum) (wavelengths : ArrayLike) :
  resample self wavelengths =
    (let q := as_quantity wavelengths (unit_of (wave self)) in
     _ ← utils.validate_wavelengths (value q);
     old_wave ← spectral_to (unit_of (wave self)) (unit_of q)
                            (value (wave self));
     _ ← np.first (value q);
     o0 ← np.first old_wave;
     o1 ← np.last old_wave;
     r ← (if decide (o0 < o1)
          then np.interp (value q) old_wave (value (flux self))
          else np.interp (value q) (reverse old_wave)
                         (reverse (value (flux self))));
     Ok {| value := r; unit_of := unit_of (flux self) |}).
Proof.
  unfold resample. cbn.
  destruct (utils.validate_wavelengths _); [cbn|done].
  destruct (spectral_to _ _ _) as [old|]; [cbn|done].
  destruct (np.first (value _)) as [n0|] eqn:Hn0; [cbn|done].
  assert (∃ n1, np.last (value (as_quantity wavelengths (unit_of (wave self))))
                = Ok n1) as [n1 Hn1].
  { apply np_last_nonempty. intros E. by rewrite E in Hn0. }
  rewrite Hn1. cbn.
  destruct (decide (n0 < n1)); cbn;
    (destruct (np.first old) as [o0|]; [cbn|done]);
    (destruct (np.last old) as [o1|]; [cbn|done]);
    destruct (decide (o0 < o1)); cbn;
    rewrite ?interp_reverse;
    (destruct (np.interp _ _ _) as [r|]; [cbn|done]);
    rewrite ?reverse_involutive; repeat case_decide; try done;
    by rewrite ?reverse_involutive.
Qed.

End ResampleForm.

(** ** Orientation of a grid *)

Lemma ascending_Sorted (w : list Qc) :
  utils.ascending w = true ↔ Sorted Qcle w.
Proof.
  induction w as [|x [|y w] IH]; cbn.
  - split; [constructor|done].
  - split; [repeat constructor|done].
  - rewrite andb_true_iff, bool_decide_eq_true, IH. split.
    + intros [Hxy Hs]. constructor; [done|by constructor].
    + intros Hs. apply Sorted_inv in Hs as [Hs Hh]. split; [|done].
      by inversion Hh.
Qed.

Lemma descending_Sorted (w : list Qc) :
  utils.descending w = true ↔ Sorted (flip Qcle) w.
Proof.
  induction w as [|x [|y w] IH]; cbn.
  - split; [constructor|done].
  - split; [repeat constructor|done].
  - rewrite andb_true_iff, bool_decide_eq_true, IH. split.
    + intros [Hxy Hs]. constructor; [done|by constructor].
    + intros Hs. apply Sorted_inv in Hs as [Hs Hh]. split; [|done].
      by inversion Hh.
Qed.

Lemma ascending_reverse (w : list Qc) :
  utils.ascending (reverse w) = utils.descending w.
Proof.
  apply eq_true_iff_eq. rewrite ascending_Sorted, descending_Sorted. split.
  - intros H. apply Sorted_reverse in H. by rewrite reverse_involutive in H.
  - intros H. apply (Sorted_reverse (flip Qcle)) in H. done.
Qed.

Lemma descending_reverse (w : list Qc) :
  utils.descending (reverse w) = utils.ascending w.
Proof. by rewrite <- ascending_reverse, reverse_involutive. Qed.

Lemma validate_wavelengths_reverse (w : list Qc) :
  utils.validate_wavelengths (reverse w) = utils.validate_wavelengths w.
Proof.
  unfold utils.validate_wavelengths.
  rewrite ascending_reverse, descending_reverse, (orb_comm (utils.descending w)).
  rewrite (bool_decide_ext (NoDup (reverse w)) (NoDup w))
    by (by rewrite reverse_Permutation).
  rewrite (bool_decide_ext (Exists (λ x, x <= 0) (reverse w))
                           (Exists (λ x, x <= 0) w)); [done|].
  rewrite !Exists_exists. by setoid_rewrite elem_of_reverse.
Qed.

Section ResampleProps.

Context `{US : UnitSystem}.

Lemma interp_arrays_sorted (s : Spectrum) :
  valid s →
  ∃ xs fs, interp_arrays s = (xs, fs) ∧
           StronglySorted Qclt xs ∧ xs ≠ [] ∧ length xs = length fs ∧
           ((xs = value (wave s) ∧ fs = value (flux s)) ∨
            (xs = reverse (value (wave s)) ∧ fs = reverse (value (flux s)))).
Proof.
  intros (_ & _ & Hw & Hlen & Hne & _). unfold interp_arrays.
  destruct (np_first_nonempty _ Hne) as [a Ha].
  destruct (np_last_nonempty _ Hne) as [b Hb].
  rewrite Ha, Hb.
  destruct (grid_orientation _ _ _ Hw Ha Hb) as [[Hlt Hs]|[Hlt Hs]].
  - rewrite decide_True by done. eexists _, _. repeat split; eauto.
  - rewrite decide_False by done. eexists _, _. repeat split; eauto.
    + intros E. apply Hne. by rewrite <- (reverse_involutive (value _)), E.
    + by rewrite !length_reverse.
Qed.

Lemma interp_arrays_reversed (s : Spectrum) :
  valid s → interp_arrays (reversed s) = interp_arrays s.
Proof.
  intros (_ & _ & Hw & Hlen & Hne & _). unfold interp_arrays, reversed. cbn -[reverse np.first np.last].
  rewrite np_first_reverse, np_last_reverse.
  destruct (np_first_nonempty _ Hne) as [a Ha].
  destruct (np_last_nonempty _ Hne) as [b Hb].
  rewrite Ha, Hb, !reverse_involutive.
  destruct (grid_orientation _ _ _ Hw Ha Hb) as [[Hlt Hs]|[Hlt Hs]].
  - rewrite (decide_True _ _ Hlt), decide_False; [done|].
    intros Hba. by eapply Qclt_irreflexive, Qclt_trans.
  - rewrite (decide_False _ _ Hlt).
    destruct (sorted_first_last (reverse (value (wave s))) b a) as [Hba|E];
      [done| |by rewrite np_last_reverse| |].
    { done. }
    + by rewrite decide_True.
    + assert (value (wave s) = [b]) as Ew
        by (by rewrite <- (reverse_involutive (value _)), E).
      rewrite Ew in Ha. injection Ha as <-.
      rewrite decide_False by apply Qclt_irreflexive.
      rewrite Ew in *. destruct (value (flux s)) as [|y [|??]]; done.
Qed.

Lemma resample_values (s : Spectrum) (w : list Qc) (q : Quantity) :
  spectral_to_same → valid s →
  resample s (Raw w) = Ok q →
  value q = value_at s <$> w ∧ unit_of q = unit_of (flux s).
Proof.
  intros Hsame Hv. rewrite resample_interp. cbn. rewrite Hsame.
  destruct (utils.validate_wavelengths w) as [[]|]; [cbn|done].
  destruct (np.first w) as [n0|]; [cbn|done].
  pose proof Hv as (_ & _ & Hw & Hlen & Hne & _).
  destruct (np_first_nonempty _ Hne) as [a Ha].
  destruct (np_last_nonempty _ Hne) as [b Hb].
  rewrite Ha, Hb. cbn.
  unfold value_at, interp_arrays. rewrite Ha, Hb.
  case_decide; unfold np.interp; repeat case_decide; cbn; try done;
    by intros [= <-].
Qed.

Lemma resample_returns (s : Spectrum) (w : list Qc) :
  spectral_to_same → valid s →
  utils.validate_wavelengths w = Ok () → w ≠ [] →
  resample s (Raw w) =
    Ok {| value := value_at s <$> w; unit_of := unit_of (flux s) |}.
Proof.
  intros Hsame Hv Hw Hne.
  destruct (resample s (Raw w)) as [q|e] eqn:Hr.
  - apply resample_values in Hr as [E1 E2]; [|done..].
    destruct q. cbn in *. by subst.
  - exfalso. revert Hr. rewrite resample_interp. cbn. rewrite Hsame, Hw. cbn.
    destruct (np_first_nonempty _ Hne) as [n0 ->]. cbn.
    pose proof Hv as (_ & _ & Hgrid & Hlen & Hgne & _).
    destruct (np_first_nonempty _ Hgne) as [a ->].
    destruct (np_last_nonempty _ Hgne) as [b ->]. cbn.
    case_decide; unfold np.interp; repeat case_decide; cbn; try done;
      try (by rewrite !length_reverse in * );
      exfalso; apply Hgne;
      match goal with
      | H : reverse _ = [] |- _ =>
          by rewrite <- (reverse_involutive (value _)), H
      end.
Qed.

End ResampleProps.

Lemma Qcminus_nonneg (x y : Qc) : x <= y → 0 <= y - x.
Proof. intros H. by apply Qcle_minus_iff in H. Qed.

Lemma Qcminus_pos (x y : Qc) : x < y → 0 < y - x.
Proof. intros H. by apply Qclt_minus_iff in H. Qed.

Lemma Qcpos_nonzero (x : Qc) : 0 < x → x ≠ 0.
Proof. intros H ->. by apply (Qclt_not_le _ _ H), Qcle_refl. Qed.

Lemma interp_segment_bounds (lo hi x x0 x1 y0 y1 : Qc) :
  x0 <= x → x < x1 → lo <= y0 → y0 <= hi → lo <= y1 → y1 <= hi →
  lo <= (y1 - y0) / (x1 - x0) * (x - x0) + y0 ∧
  (y1 - y0) / (x1 - x0) * (x - x0) + y0 <= hi.
Proof.
  intros Hx0 Hx1 Hl0 Hh0 Hl1 Hh1.
  assert (0 < x1 - x0) as Hd
    by (apply Qcminus_pos; by eapply Qcle_lt_trans).
  pose proof (Qcpos_nonzero _ Hd) as Hd0.
  pose proof (Qclt_le_weak _ _ (Qcinv_pos _ Hd)) as Hinv.
  pose proof (Qcminus_nonneg _ _ Hx0) as He.
  pose proof (Qcminus_nonneg _ _ (Qclt_le_weak _ _ Hx1)) as He'.
  split; apply Qcle_minus_iff.
  - replace ((y1 - y0) / (x1 - x0) * (x - x0) + y0 + - lo)
      with (((y1 - lo) * (x - x0) + (y0 - lo) * (x1 - x)) * / (x1 - x0))
      by (field; done).
    apply Qcmult_nonneg_nonneg; [|done].
    apply Qcplus_nonneg_nonneg; apply Qcmult_nonneg_nonneg;
      try done; by apply Qcminus_nonneg.
  - replace (hi + - ((y1 - y0) / (x1 - x0) * (x - x0) + y0))
      with (((hi - y1) * (x - x0) + (hi - y0) * (x1 - x)) * / (x1 - x0))
      by (field; done).
    apply Qcmult_nonneg_nonneg; [|done].
    apply Qcplus_nonneg_nonneg; apply Qcmult_nonneg_nonneg;
      try done; by apply Qcminus_nonneg.
Qed.

Lemma interp_from_bounds (lo hi x : Qc) (xp fp : list Qc) (x0 y0 : Qc) :
  x0 <= x → lo <= y0 → y0 <= hi →
  Forall (λ y, lo <= y ∧ y <= hi) fp →
  lo <= np.interp_from x x0 y0 xp fp ∧ np.interp_from x x0 y0 xp fp <= hi.
Proof.
  revert fp x0 y0. induction xp as [|x1 xp IH]; intros fp x0 y0 Hx Hl Hh Hfp.
  - done.
  - destruct fp as [|y1 fp]; [done|]. cbn.
    apply Forall_cons in Hfp as [[Hl1 Hh1] Hfp].
    case_decide.
    + by apply interp_segment_bounds.
    + apply IH; try done. by apply Qcnot_lt_le.
Qed.

Lemma interp1_bounds (lo hi x : Qc) (xp fp : list Qc) :
  xp ≠ [] → length xp = length fp →
  Forall (λ y, lo <= y ∧ y <= hi) fp →
  lo <= np.interp1 x xp fp ∧ np.interp1 x xp fp <= hi.
Proof.
  intros Hne Hlen Hfp. destruct xp as [|x0 xp]; [done|].
  destruct fp as [|y0 fp]; [done|]. cbn.
  apply Forall_cons in Hfp as [[Hl0 Hh0] Hfp].
  case_decide; [done|]. apply interp_from_bounds; try done.
  by apply Qcnot_lt_le.
Qed.

(** Left of the grid and on its first point: the first value. *)
Lemma interp1_left (x : Qc) (xp fp : list Qc) (x0 y0 : Qc) :
  StronglySorted Qclt xp → np.first xp = Ok x0 → np.first fp = Ok y0 →
  x <= x0 → np.interp1 x xp fp = y0.
Proof.
  intros Hs Hx0 Hy0 Hx. destruct xp as [|? xp]; [done|].
  destruct fp as [|? fp]; [done|]. cbn in *.
  injection Hx0 as ->. injection Hy0 as ->.
  case_decide; [done|].
  assert (x = x0) as -> by (apply Qcle_antisym; [done|by apply Qcnot_lt_le]).
  by apply interp_from_start.
Qed.

Lemma interp_from_right (x : Qc) (xp fp : list Qc) (x0 y0 yl : Qc) :
  Forall (λ xi, xi <= x) xp → length xp = length fp →
  np.last (y0 :: fp) = Ok yl →
  np.interp_from x x0 y0 xp fp = yl.
Proof.
  revert fp x0 y0. induction xp as [|x1 xp IH]; intros fp x0 y0 Hx Hlen Hl.
  - destruct fp; [|done]. cbn in *. by injection Hl.
  - destruct fp as [|y1 fp]; [done|]. cbn.
    apply Forall_cons in Hx as [Hx1 Hx].
    rewrite decide_False by by apply Qcle_not_lt.
    apply IH; [done|by injection Hlen|].
    unfold np.last in *. rewrite reverse_cons in Hl.
    destruct (reverse (y1 :: fp)) as [|z r] eqn:E.
    { apply (f_equal length) in E. rewrite length_reverse in E. done. }
    done.
Qed.

Lemma sorted_last_max (w : list Qc) (xl : Qc) :
  StronglySorted Qclt w → np.last w = Ok xl → Forall (λ x, x <= xl) w.
Proof.
  induction 1 as [|a l Hs IH Ha]; intros Hl; [done|].
  destruct (decide (l = [])) as [->|Hne].
  - cbn in Hl. injection Hl as ->. repeat constructor. apply Qcle_refl.
  - destruct (np_last_nonempty _ Hne) as [b Hb].
    rewrite (np_last_cons _ a _ Hb) in Hl. injection Hl as ->.
    constructor; [|by apply IH].
    apply Qclt_le_weak. rewrite Forall_forall in Ha.
    by apply Ha, np_last_elem.
Qed.

Lemma sorted_first_min (w : list Qc) (x0 : Qc) :
  StronglySorted Qclt w → np.first w = Ok x0 → Forall (λ x, x0 <= x) w.
Proof.
  intros Hs H0. destruct w as [|a l]; [done|]. injection H0 as ->.
  apply StronglySorted_inv in Hs as [_ Ha].
  constructor; [apply Qcle_refl|].
  eapply Forall_impl; [exact Ha|]. intros ?. apply Qclt_le_weak.
Qed.

(** Right of the grid and on its last point: the last value. *)
Lemma interp1_right (x : Qc) (xp fp : list Qc) (xl yl : Qc) :
  StronglySorted Qclt xp → length xp = length fp →
  np.last xp = Ok xl → np.last fp = Ok yl →
  xl <= x → np.interp1 x xp fp = yl.
Proof.
  intros Hs Hlen Hxl Hyl Hx.
  assert (Forall (λ xi, xi <= x) xp) as Hall.
  { eapply Forall_impl; [exact (sorted_last_max _ _ Hs Hxl)|].
    intros xi Hxi. exact (Qcle_trans _ _ _ Hxi Hx). }
  destruct xp as [|x0 xp]; [done|].
  destruct fp as [|y0 fp]; [done|]. cbn.
  apply Forall_cons in Hall as [H0 Hall].
  rewrite decide_False by by apply Qcle_not_lt.
  apply interp_from_right; [done|by injection Hlen|done].
Qed.

Lemma np_first_lookup (l : list Qc) (x : Qc) :
  np.first l = Ok x ↔ l !! 0%nat = Some x.
Proof. destruct l; cbn; split; by intros [= ->]. Qed.

Lemma np_last_lookup (l : list Qc) (x : Qc) :
  np.last l = Ok x ↔ l !! (length l - 1)%nat = Some x ∧ l ≠ [].
Proof.
  unfold np.last. rewrite np_first_lookup, reverse_lookup_Some. split.
  - intros [H Hlt]. split; [done|]. intros ->. cbn in Hlt. lia.
  - intros [H Hne]. split; [done|]. destruct l; [done|]. cbn. lia.
Qed.

Lemma sorted_NoDup (w : list Qc) : StronglySorted Qclt w → NoDup w.
Proof.
  induction 1 as [|a l Hs IH Ha]; constructor; [|done].
  intros Hin. rewrite Forall_forall in Ha.
  by apply (Qclt_irreflexive a), Ha.
Qed.

Section InterpArrays.

Context `{US : UnitSystem}.

(** A grid point and its value are found at one index of the arrays handed
    to [np.interp]. *)
Lemma interp_arrays_paired (s : Spectrum) (i : nat) (xe ye : Qc) :
  valid s →
  value (wave s) !! i = Some xe → value (flux s) !! i = Some ye →
  ∃ k, (interp_arrays s).1 !! k = Some xe ∧
       (interp_arrays s).2 !! k = Some ye.
Proof.
  intros Hv Hx Hy.
  destruct (interp_arrays_sorted s Hv) as (xs & fs & -> & _ & _ & _ & Hor).
  pose proof Hv as (_ & _ & _ & Hlen & _).
  destruct Hor as [[-> ->]|[-> ->]]; cbn -[reverse].
  - by exists i.
  - pose proof (lookup_lt_Some _ _ _ Hx) as Hlt.
    exists (length (value (wave s)) - S i)%nat.
    rewrite !reverse_lookup by (rewrite <- ?Hlen; lia).
    rewrite <- Hlen.
    replace (length (value (wave s)) - S (length (value (wave s)) - S i))%nat
      with i by lia.
    done.
Qed.

Lemma value_at_bounds (s : Spectrum) (x lo hi : Qc) :
  valid s →
  Forall (λ y, lo <= y ∧ y <= hi) (value (flux s)) →
  lo <= value_at s x ∧ value_at s x <= hi.
Proof.
  intros Hv Hf. unfold value_at.
  destruct (interp_arrays_sorted s Hv) as (xs & fs & -> & _ & Hne & Hlen & Hor).
  cbn. apply interp1_bounds; [done..|].
  destruct Hor as [[_ ->]|[_ ->]]; [done|by apply Forall_reverse].
Qed.

Lemma value_at_left (s : Spectrum) (i : nat) (xe ye x : Qc) :
  valid s →
  value (wave s) !! i = Some xe → value (flux s) !! i = Some ye →
  Forall (λ v, xe <= v) (value (wave s)) →
  x <= xe → value_at s x = ye.
Proof.
  intros Hv Hx Hy Hmin Hle. unfold value_at.
  destruct (interp_arrays_paired s i xe ye Hv Hx Hy) as (k & Hk1 & Hk2).
  destruct (interp_arrays_sorted s Hv)
    as (xs & fs & E & Hs & Hne & Hlen & Hor).
  rewrite E in *. cbn -[reverse] in *.
  destruct (np_first_nonempty _ Hne) as [x0 Hx0].
  assert (x0 = xe) as ->.
  { apply Qcle_antisym.
    - pose proof (sorted_first_min _ _ Hs Hx0) as Hall.
      rewrite Forall_forall in Hall. by eapply Hall, list_elem_of_lookup_2.
    - rewrite Forall_forall in Hmin. apply Hmin.
      apply np_first_lookup, list_elem_of_lookup_2 in Hx0.
      destruct Hor as [[-> _]|[-> _]]; [done|by apply elem_of_reverse]. }
  assert (k = 0%nat) as ->.
  { eapply NoDup_lookup; [|exact Hk1|by apply np_first_lookup].
    by apply sorted_NoDup. }
  apply (interp1_left _ _ _ xe ye); try done. by apply np_first_lookup.
Qed.

Lemma value_at_right (s : Spectrum) (i : nat) (xe ye x : Qc) :
  valid s →
  value (wave s) !! i = Some xe → value (flux s) !! i = Some ye →
  Forall (λ v, v <= xe) (value (wave s)) →
  xe <= x → value_at s x = ye.
Proof.
  intros Hv Hx Hy Hmax Hle. unfold value_at.
  destruct (interp_arrays_paired s i xe ye Hv Hx Hy) as (k & Hk1 & Hk2).
  destruct (interp_arrays_sorted s Hv)
    as (xs & fs & E & Hs & Hne & Hlen & Hor).
  rewrite E in *. cbn -[reverse] in *.
  destruct (np_last_nonempty _ Hne) as [xl Hxl].
  assert (xl = xe) as ->.
  { apply Qcle_antisym.
    - rewrite Forall_forall in Hmax. apply Hmax.
      apply np_last_elem in Hxl.
      destruct Hor as [[-> _]|[-> _]]; [done|by apply elem_of_reverse].
    - pose proof (sorted_last_max _ _ Hs Hxl) as Hall.
      rewrite Forall_forall in Hall. by eapply Hall, list_elem_of_lookup_2. }
  pose proof Hxl as [Hl _]%np_last_lookup.
  assert (k = (length xs - 1)%nat) as ->.
  { eapply NoDup_lookup; [|exact Hk1|exact Hl].
    by apply sorted_NoDup. }
  apply (interp1_right _ _ _ xe ye); try done.
  apply np_last_lookup. rewrite <- Hlen. split; [done|].
  intros ->. by destruct xs.
Qed.

End InterpArrays.

(** ** Resampling *)

Section ResampleTheorems.

Context `{US : UnitSystem}.

(** X4. Resampling onto a grid given in the opposite order gives the same
    values in the opposite order, and fails in the same way when it
    fails. *)
Theorem resample_reversed_request (self : Spectrum) (w : list Qc) :
  resample self (Raw (reverse w)) =
    (q ← resample self (Raw w);
     Ok {| value := reverse (value q); unit_of := unit_of q |}).
Proof.
  rewrite !resample_interp. cbn -[reverse].
  rewrite validate_wavelengths_reverse.
  destruct (utils.validate_wavelengths w) as [[]|]; [cbn -[reverse]|done].
  destruct (spectral_to _ _ _) as [old|]; [cbn -[reverse]|done].
  rewrite np_first_reverse.
  destruct w as [|x w]; [done|].
  destruct (np_last_nonempty (x :: w)) as [b ->]; [done|]. cbn -[reverse].
  destruct (np.first old) as [o0|]; [cbn -[reverse]|done].
  destruct (np.last old) as [o1|]; [cbn -[reverse]|done].
  rewrite !interp_reverse.
  case_decide; destruct (np.interp _ _ _); done.
Qed.

(** X3. Resampling a valid spectrum onto a valid, non-empty grid in its own
    unit always returns, and the value returned for a wavelength is the
    value of the spectrum at that wavelength: it does not depend on the
    other wavelengths asked for, nor on their order. *)
Theorem resample_pointwise (s : Spectrum) (w : list Qc) :
  spectral_to_same → valid s →
  utils.validate_wavelengths w = Ok () → w ≠ [] →
  resample s (Raw w) =
    Ok {| value := value_at s <$> w; unit_of := unit_of (flux s) |} ∧
  ∀ i x, w !! i = Some x →
         (q ← resample s (Raw w); Ok (value q !! i)) =
         (q ← resample s (Raw [x]); Ok (value q !! 0%nat)).
Proof.
  intros Hsame Hv Hw Hne.
  rewrite resample_returns by done. split; [done|].
  intros i x Hi.
  assert (utils.validate_wavelengths [x] = Ok ()) as Hx.
  { apply validate_wavelengths_ok in Hw as (_ & _ & Hpos).
    apply validate_wavelengths_intro; [by left|apply NoDup_singleton|].
    rewrite Forall_forall in Hpos. repeat constructor.
    by eapply Hpos, list_elem_of_lookup_2. }
  rewrite resample_returns by done. cbn.
  by rewrite list_lookup_fmap, Hi.
Qed.

(** X5. The order in which a spectrum stores its arrays does not matter to
    [resample]: the spectrum with both arrays reversed resamples to the
    same values. *)
Theorem resample_storage_order (s : Spectrum) (w : list Qc) :
  spectral_to_same → valid s →
  resample (reversed s) (Raw w) = resample s (Raw w).
Proof.
  intros Hsame Hv. rewrite !resample_interp. cbn -[reverse].
  rewrite !Hsame.
  destruct (utils.validate_wavelengths w) as [[]|]; [cbn -[reverse]|done].
  destruct (np.first w) as [n0|]; [cbn -[reverse]|done].
  pose proof (interp_arrays_reversed s Hv) as E.
  unfold interp_arrays, reversed in E. cbn -[reverse np.first np.last] in E.
  pose proof Hv as (_ & _ & _ & _ & Hne & _).
  destruct (np_first_nonempty _ Hne) as [a Ha].
  destruct (np_last_nonempty _ Hne) as [b Hb].
  rewrite np_first_reverse, np_last_reverse, Ha, Hb in E.
  rewrite np_first_reverse, np_last_reverse, Ha, Hb. cbn -[reverse].
  destruct (decide (b < a)), (decide (a < b)); try done;
    by injection E as -> ->.
Qed.


(** X7. Outside the grid [resample] holds the end values: a wavelength at or
    below the smallest one of the grid gets the value stored with the
    smallest one, a wavelength at or above the largest one the value
    stored with the largest, whatever the order of either grid. *)
Theorem resample_outside_grid (s : Spectrum) (w : list Qc) (q : Quantity)
    (i : nat) (xe ye : Qc) :
  spectral_to_same → valid s →
  resample s (Raw w) = Ok q →
  value (wave s) !! i = Some xe → value (flux s) !! i = Some ye →
  (Forall (λ v, xe <= v) (value (wave s)) →
   ∀ j x, w !! j = Some x → x <= xe → value q !! j = Some ye) ∧
  (Forall (λ v, v <= xe) (value (wave s)) →
   ∀ j x, w !! j = Some x → xe <= x → value q !! j = Some ye).
Proof.
  intros Hsame Hv Hr Hx Hy.
  apply resample_values in Hr as [-> _]; [|done..].
  split; intros Hall j x Hj Hle; rewrite list_lookup_fmap, Hj; cbn; f_equal.
  - by eapply value_at_left.
  - by eapply value_at_right.
Qed.

End ResampleTheorems.

(** ** Selection by a mask *)

Lemma sorted_filter {A} (R : relation A) (P : A → Prop)
    `{∀ x, Decision (P x)} (l : list A) :
  StronglySorted R l → StronglySorted R (filter P l).
Proof.
  induction 1 as [|a l Hs IH Ha]; [constructor|].
  rewrite filter_cons. case_decide; [|done].
  constructor; [done|].
  rewrite Forall_forall in Ha. apply Forall_forall.
  intros x [_ Hx]%list_elem_of_filter. by apply Ha.
Qed.

Lemma ascending_filter (P : Qc → Prop) `{∀ x, Decision (P x)} (w : list Qc) :
  utils.ascending w = true → utils.ascending (filter P w) = true.
Proof.
  rewrite !ascending_Sorted. intros Hs.
  apply StronglySorted_Sorted, sorted_filter.
  apply Sorted_StronglySorted; [|done].
  intros x y z. apply Qcle_trans.
Qed.

Lemma descending_filter (P : Qc → Prop) `{∀ x, Decision (P x)} (w : list Qc) :
  utils.descending w = true → utils.descending (filter P w) = true.
Proof.
  rewrite <- !ascending_reverse, <- filter_reverse. apply ascending_filter.
Qed.

Lemma validate_wavelengths_filter (P : Qc → Prop) `{∀ x, Decision (P x)}
    (w : list Qc) :
  utils.validate_wavelengths w = Ok () →
  utils.validate_wavelengths (filter P w) = Ok ().
Proof.
  intros (Hmono & Hnd & Hpos)%validate_wavelengths_ok.
  apply validate_wavelengths_intro.
  - destruct Hmono; [left; by apply ascending_filter
                    |right; by apply descending_filter].
  - by apply NoDup_filter.
  - rewrite Forall_forall in Hpos. apply Forall_forall.
    intros x [_ Hx]%list_elem_of_filter. by apply Hpos.
Qed.

(** The mask of [trim_spectrum]. *)
Lemma mask_index_pairs (lo hi : Qc) (w a : list Qc) :
  length w = length a →
  np.mask_index a
    ((λ x, bool_decide (lo <= x) && bool_decide (x <= hi)) <$> w) =
  Ok ((filter (λ p, lo <= p.1 ∧ p.1 <= hi) (zip w a)).*2).
Proof.
  intros Hlen. unfold np.mask_index.
  rewrite length_fmap, decide_True by done. f_equal.
  revert a Hlen. induction w as [|x w IH]; intros [|y a] Hlen; try done.
  csimpl. rewrite !filter_cons. csimpl.
  injection Hlen as Hlen. specialize (IH a Hlen).
  destruct (decide (lo <= x)) as [H1|H1], (decide (x <= hi)) as [H2|H2].
  - rewrite !bool_decide_eq_true_2 by done. cbn.
    rewrite decide_True, decide_True by done. cbn. by f_equal.
  - rewrite (bool_decide_eq_false_2 (x <= hi)), andb_false_r by done.
    rewrite decide_False, decide_False by (by intros [_ ?] || done). done.
  - rewrite (bool_decide_eq_false_2 (lo <= x)) by done. cbn.
    rewrite decide_False, decide_False by (by intros [? _] || done). done.
  - rewrite (bool_decide_eq_false_2 (lo <= x)) by done. cbn.
    rewrite decide_False, decide_False by (by intros [? _] || done). done.
Qed.

Lemma filter_zip_fst (lo hi : Qc) (l k : list Qc) :
  length l = length k →
  (filter (λ p, lo <= p.1 ∧ p.1 <= hi) (zip l k)).*1 =
  filter (λ x, lo <= x ∧ x <= hi) l.
Proof.
  revert k. induction l as [|x l IH]; intros [|y k] Hlen; try done.
  csimpl. rewrite !filter_cons. csimpl. injection Hlen as Hlen.
  case_decide; csimpl; by rewrite IH.
Qed.

Lemma mask_index_self (lo hi : Qc) (w : list Qc) :
  np.mask_index w
    ((λ x, bool_decide (lo <= x) && bool_decide (x <= hi)) <$> w) =
  Ok (filter (λ x, lo <= x ∧ x <= hi) w).
Proof.
  unfold np.mask_index.
  rewrite length_fmap, decide_True by done. f_equal.
  induction w as [|x w IH]; [done|].
  csimpl. rewrite !filter_cons. csimpl.
  destruct (decide (lo <= x)) as [H1|H1], (decide (x <= hi)) as [H2|H2].
  - rewrite !bool_decide_eq_true_2 by done. cbn.
    rewrite decide_True, decide_True by done. cbn. by f_equal.
  - rewrite (bool_decide_eq_false_2 (x <= hi)), andb_false_r by done.
    rewrite decide_False, decide_False by (by intros [_ ?] || done). done.
  - rewrite (bool_decide_eq_false_2 (lo <= x)) by done. cbn.
    rewrite decide_False, decide_False by (by intros [? _] || done). done.
  - rewrite (bool_decide_eq_false_2 (lo <= x)) by done. cbn.
    rewrite decide_False, decide_False by (by intros [? _] || done). done.
Qed.

Section Trim.

Context `{US : UnitSystem}.

Lemma within_wave (lo hi : Qc) (s : Spectrum) :
  length (value (wave s)) = length (value (flux s)) →
  (within lo hi s).*1 = filter (λ x, lo <= x ∧ x <= hi) (value (wave s)).
Proof.
  intros Hlen. unfold within.
  by apply filter_zip_fst.
Qed.

Lemma within_elem (lo hi : Qc) (s : Spectrum) (x y : Qc) :
  (x, y) ∈ within lo hi s →
  x ∈ value (wave s) ∧ y ∈ value (flux s) ∧ lo <= x ∧ x <= hi.
Proof.
  unfold within. intros [[H1 H2] Hin]%list_elem_of_filter.
  apply list_elem_of_lookup in Hin as [i Hi].
  apply lookup_zip_with_Some in Hi as (x' & y' & [= -> ->] & Hx & Hy).
  repeat split; try done; by eapply list_elem_of_lookup_2.
Qed.

Lemma rebuilt_valid (lo hi : Qc) (s : Spectrum) :
  valid s → within lo hi s ≠ [] →
  valid (rebuilt s (within lo hi s).*1 (within lo hi s).*2 (metadata s)).
Proof.
  intros (Hu & Hpos & Hw & Hlen & Hne & Hexpr) Hsel.
  split; [done|]. split; [|split; [|split; [|split]]]; cbn; try done.
  - intros Hmag. specialize (Hpos Hmag). rewrite Forall_forall in Hpos.
    apply Forall_forall. intros y Hy.
    apply list_elem_of_fmap in Hy as ([x y'] & -> & Hin).
    apply within_elem in Hin as (_ & Hin & _). by apply Hpos.
  - rewrite within_wave by done. by apply validate_wavelengths_filter.
  - by rewrite !length_fmap.
  - intros E. apply Hsel. by apply fmap_nil_inv in E.
Qed.

Lemma init_metadata_keep (c : Class) (md : gmap string string) :
  is_Some (md !! "expr") → init_metadata c md = md.
Proof. intros [e He]. unfold init_metadata. by rewrite He. Qed.

Lemma trim_spectrum_form (s : Spectrum) (lo hi : Qc) :
  quantity_to_same → valid s → decompose (unit_of (flux s)) ≠ mag →
  trim_spectrum s (Number lo) (Number hi) =
    if decide (within lo hi s = []) then Raise ValueError
    else Ok (rebuilt s (within lo hi s).*1 (within lo hi s).*2 (metadata s)).
Proof.
  intros Hsame Hv Hmag. unfold trim_spectrum. cbn.
  pose proof Hv as (Hu & _ & _ & Hlen & _ & Hexpr).
  rewrite mask_index_self, mask_index_pairs by done. cbn.
  rewrite <- (within_wave lo hi s Hlen). fold (within lo hi s).
  case_decide as Hsel.
  - rewrite Hsel. unfold __init__. cbn.
    destruct (isinstance (cls s) BaseUnitlessSpectrum); cbn;
      rewrite Hu; cbn; unfold _validate_flux_value; cbn;
      by rewrite decide_True.
  - pose proof (init_rebuild _ FLAM (metadata s) Hsame
                  (rebuilt_valid lo hi s Hv Hsel)) as E.
    etrans; [exact E|]. unfold rebuilt. cbn.
    by rewrite init_metadata_keep.
Qed.

Lemma within_nil (lo hi : Qc) (s : Spectrum) :
  length (value (wave s)) = length (value (flux s)) →
  within lo hi s = [] ↔
  Forall (λ x, ¬ (lo <= x ∧ x <= hi)) (value (wave s)).
Proof.
  intros Hlen. split.
  - intros E. apply Forall_forall. intros x Hx HP.
    assert (x ∈ filter (λ x, lo <= x ∧ x <= hi) (value (wave s))) as Hin
      by (by apply list_elem_of_filter).
    rewrite <- within_wave, E in Hin by done. by apply elem_of_nil in Hin.
  - intros Hall. eapply fmap_nil_inv. rewrite within_wave by done.
    clear Hlen. induction Hall as [|x l Hx _ IH]; [done|].
    by rewrite filter_cons_False.
Qed.

Lemma within_all (lo hi : Qc) (s : Spectrum) :
  Forall (λ x, lo <= x ∧ x <= hi) (value (wave s)) →
  within lo hi s = zip (value (wave s)) (value (flux s)).
Proof.
  unfold within. intros Hall. generalize (value (flux s)).
  induction Hall as [|x w Hx _ IH]; intros [|y k]; try done.
  csimpl. rewrite filter_cons_True by done. by rewrite IH.
Qed.

Lemma within_rebuilt (lo hi lo' hi' : Qc) (s : Spectrum)
    (md : gmap string string) :
  within lo' hi'
    (rebuilt s (within lo hi s).*1 (within lo hi s).*2 md) =
  within (np.maximum lo lo') (np.minimum hi hi') s.
Proof.
  unfold within at 1. cbn. rewrite zip_fst_snd. unfold within.
  rewrite list_filter_filter. apply list_filter_iff. intros [x y]. cbn.
  unfold np.maximum, np.minimum. repeat case_decide; split.
  all: intros [[H1 H2] [H3 H4]] || intros [H1 H2]; repeat split; try done.
  all: try (eapply Qcle_trans; [|done]; by apply Qclt_le_weak).
  all: try (eapply Qcle_trans; [done|]; by apply Qclt_le_weak).
  all: try (eapply Qcle_trans; [|done]; by apply Qcnot_lt_le).
  all: try (eapply Qcle_trans; [done|]; by apply Qcnot_lt_le).
Qed.

End Trim.

(** ** Trimming *)

Section TrimTheorems.

Context `{US : UnitSystem}.

(** X18. [trim_spectrum] with numeric limits, on a valid spectrum that is not in
    magnitudes and has a grid point within the limits: the result holds
    exactly the grid points [lo <= w <= hi] with their values, in the
    order of the original; class, units, area and metadata are those of
    the original, there are no warnings, and the result is valid. *)
Theorem trim_spectrum_selects (s : Spectrum) (lo hi : Qc) :
  quantity_to_same → valid s → decompose (unit_of (flux s)) ≠ mag →
  Exists (λ x, lo <= x ∧ x <= hi) (value (wave s)) →
  ∃ r, trim_spectrum s (Number lo) (Number hi) = Ok r ∧
       cls r = cls s ∧ primary_area r = primary_area s ∧
       metadata r = metadata s ∧ warnings r = ∅ ∧
       unit_of (wave r) = unit_of (wave s) ∧
       unit_of (flux r) = unit_of (flux s) ∧
       value (wave r) = filter (λ x, lo <= x ∧ x <= hi) (value (wave s)) ∧
       zip (value (wave r)) (value (flux r)) =
         filter (λ p, lo <= p.1 ∧ p.1 <= hi)
                (zip (value (wave s)) (value (flux s))) ∧
       valid r.
Proof.
  intros Hsame Hv Hmag Hex.
  pose proof Hv as (_ & _ & _ & Hlen & _).
  assert (within lo hi s ≠ []) as Hsel.
  { intros E. apply within_nil in E; [|done].
    apply Exists_exists in Hex as (x & Hx & HP).
    rewrite Forall_forall in E. by apply (E x). }
  rewrite trim_spectrum_form, decide_False by done.
  eexists. split; [done|]. cbn.
  repeat split; try (by apply rebuilt_valid).
  - by apply within_wave.
  - apply zip_fst_snd.
Qed.

(** X19. When no grid point lies within the limits (for one, when the limits
    are given in the wrong order) the selection is empty and the
    constructor raises [ValueError], from the minimum it takes of the
    values. *)
Theorem trim_spectrum_empty (s : Spectrum) (lo hi : Qc) :
  quantity_to_same → valid s → decompose (unit_of (flux s)) ≠ mag →
  (Forall (λ x, ¬ (lo <= x ∧ x <= hi)) (value (wave s)) →
   trim_spectrum s (Number lo) (Number hi) = Raise ValueError) ∧
  (hi < lo → trim_spectrum s (Number lo) (Number hi) = Raise ValueError).
Proof.
  intros Hsame Hv Hmag.
  pose proof Hv as (_ & _ & _ & Hlen & _).
  assert (Forall (λ x, ¬ (lo <= x ∧ x <= hi)) (value (wave s)) →
          trim_spectrum s (Number lo) (Number hi) = Raise ValueError) as Hempty.
  { intros Hall. rewrite trim_spectrum_form, decide_True; try done.
    by apply within_nil. }
  split; [done|]. intros Hlt. apply Hempty, Forall_true.
  intros x [H1 H2]. apply (Qclt_not_le _ _ Hlt). by eapply Qcle_trans.
Qed.

(** X20. Trimming twice is trimming once to the intersection of the two
    ranges; the outcomes agree also when a selection is empty. *)
Theorem trim_spectrum_compose (s : Spectrum) (lo hi lo' hi' : Qc) :
  quantity_to_same → valid s → decompose (unit_of (flux s)) ≠ mag →
  (r ← trim_spectrum s (Number lo) (Number hi);
   trim_spectrum r (Number lo') (Number hi')) =
  trim_spectrum s (Number (np.maximum lo lo')) (Number (np.minimum hi hi')).
Proof.
  intros Hsame Hv Hmag.
  pose proof Hv as (_ & _ & _ & Hlen & _).
  rewrite !trim_spectrum_form by done.
  destruct (decide (within lo hi s = [])) as [E|Hsel];
    cbn -[trim_spectrum].
  - rewrite decide_True; [done|].
    apply within_nil; [done|]. apply within_nil in E; [|done].
    eapply Forall_impl; [exact E|]. intros x Hx [H1 H2]. apply Hx.
    split.
    + eapply Qcle_trans; [apply (maximum_ge_l _ lo')|done].
    + eapply Qcle_trans; [done|apply minimum_le_l].
  - rewrite trim_spectrum_form; [|done|by apply rebuilt_valid|done].
    rewrite within_rebuilt. by case_decide.
Qed.

(** X21. Trimming to limits that contain the whole grid returns the spectrum
    itself, without its warnings. *)
Theorem trim_spectrum_covering (s : Spectrum) (lo hi : Qc) :
  quantity_to_same → valid s → decompose (unit_of (flux s)) ≠ mag →
  Forall (λ x, lo <= x ∧ x <= hi) (value (wave s)) →
  trim_spectrum s (Number lo) (Number hi) = Ok (set_warnings s ∅).
Proof.
  intros Hsame Hv Hmag Hall.
  pose proof Hv as (_ & _ & _ & Hlen & Hne & _).
  rewrite trim_spectrum_form by done.
  rewrite within_all by done.
  rewrite decide_False.
  - rewrite fst_zip, snd_zip by lia.
    unfold rebuilt, set_warnings. by destruct s as [? [] [] ? ? ?].
  - intros E. apply (f_equal (fmap fst)) in E.
    rewrite fst_zip in E by lia. done.
Qed.

End TrimTheorems.

(** ** Clamping *)

Lemma zero_negatives_id (v : list Qc) :
  ¬ Exists (λ x, x < 0) v → zero_negatives v = v.
Proof.
  intros Hn. unfold zero_negatives.
  induction v as [|x v IH]; [done|]. cbn.
  rewrite decide_False by (intros H; apply Hn; by left).
  f_equal. apply IH. intros H. apply Hn. by right.
Qed.

Lemma nonneg_no_negative (v : list Qc) :
  Forall (λ x, 0 <= x) v → ¬ Exists (λ x, x < 0) v.
Proof.
  intros Hall (x & Hx & Hneg)%Exists_exists.
  rewrite Forall_forall in Hall. by apply (Qclt_not_le _ _ Hneg), Hall.
Qed.

Section Clamp.

Context `{US : UnitSystem}.

(** The warnings the constructor records for the values [v]. *)
Lemma validate_flux_value_clamp (fl : Quantity) :
  decompose (unit_of fl) ≠ mag → value fl ≠ [] →
  _validate_flux_value fl ∅ =
    Ok ({| value := zero_negatives (value fl); unit_of := unit_of fl |},
        if decide (Exists (λ x, x < 0) (value fl))
        then {[ "NegativeFlux" :=
                  negative_flux_warning (count_negatives (value fl))
                                        (length (value fl)) ]}
        else ∅).
Proof.
  intros Hmag Hne. unfold _validate_flux_value.
  rewrite decide_True by done.
  destruct (np_min_nonempty _ Hne) as [m Hm]. rewrite Hm. cbn.
  pose proof (np_min_negative _ _ Hm) as Hiff.
  destruct (decide (m < 0)) as [Hneg|Hpos].
  - rewrite decide_True by by apply Hiff. done.
  - rewrite decide_False by (intros H; by apply Hpos, Hiff).
    rewrite zero_negatives_id by (intros H; by apply Hpos, Hiff).
    by destruct fl.
Qed.

(** The constructor called on the grid, the area and the class of a valid
    spectrum, with other values in the same unit. *)
Lemma init_with_flux (s : Spectrum) (v : list Qc)
    (header : gmap string string) :
  quantity_to_same → valid s → decompose (unit_of (flux s)) ≠ mag →
  length v = length (value (flux s)) →
  __init__ (cls s) (Qty (wave s))
           (Qty {| value := v; unit_of := unit_of (flux s) |}) FLAM
           (area_arg (primary_area s)) header =
    Ok {| cls := cls s; wave := wave s;
          flux := {| value := zero_negatives v;
                     unit_of := unit_of (flux s) |};
          primary_area := primary_area s;
          metadata := init_metadata (cls s) header;
          warnings :=
            if decide (Exists (λ x, x < 0) v)
            then {[ "NegativeFlux" :=
                      negative_flux_warning (count_negatives v) (length v) ]}
            else ∅ |}.
Proof.
  intros Hsame (Hu & _ & Hw & Hlen & Hne & _) Hmag Hv.
  unfold __init__. cbn.
  rewrite Hu. cbn.
  rewrite validate_flux_value_clamp; cbn; [|done|].
  - rewrite Hw. cbn.
    rewrite decide_False.
    + by rewrite validate_area_stored.
    + unfold zero_negatives. rewrite length_fmap. intros H. apply H. congruence.
  - intros ->. apply Hne. apply length_zero_iff_nil. by rewrite Hlen, <- Hv.
Qed.

End Clamp.

(** ** Arithmetic with a number *)

Section Scalar.

Context `{US : UnitSystem} `{Co : !Collaborators}.

Lemma operator_number (op : OpType) (s : Spectrum) (x : Qc) :
  operator op s (PyNum x) = _operate_on s (PyNum x) op.
Proof. destruct op; try done. cbn. unfold __mul__. by case_match. Qed.

Lemma expr_reset (c : Class) (md : gmap string string) :
  init_metadata c (delete "expr" md) = <["expr" := class_name c]> md.
Proof.
  unfold init_metadata. rewrite lookup_delete_eq. apply insert_delete_eq.
Qed.

Lemma operate_on_scalar (s : Spectrum) (op : OpType) (x : Qc) :
  quantity_to_same → valid s → decompose (unit_of (flux s)) ≠ mag →
  _operate_on s (PyNum x) op =
    Ok {| cls := cls s; wave := wave s;
          flux := {| value := zero_negatives
                                ((λ y, scalar_op op y x) <$> value (flux s));
                     unit_of := unit_of (flux s) |};
          primary_area := primary_area s;
          metadata := <["expr" := class_name (cls s)]> (metadata s);
          warnings :=
            if decide (Exists (λ y, y < 0)
                         ((λ y, scalar_op op y x) <$> value (flux s)))
            then {[ "NegativeFlux" :=
                      negative_flux_warning
                        (count_negatives
                           ((λ y, scalar_op op y x) <$> value (flux s)))
                        (length ((λ y, scalar_op op y x) <$> value (flux s))) ]}
            else ∅ |}.
Proof.
  intros Hsame Hv Hmag. unfold _operate_on. cbn.
  rewrite (right_id_L ∅ (∪)).
  pose proof Hv as (_ & _ & _ & _ & _ & [e He]). rewrite He.
  unfold quantity_op_scalar.
  rewrite init_with_flux by (done || by rewrite length_fmap).
  by rewrite expr_reset.
Qed.

(** The values of a valid spectrum stay as they are under an operation
    that keeps them non-negative. *)
Lemma operate_on_scalar_nonneg (s : Spectrum) (op : OpType) (x : Qc) :
  quantity_to_same → valid s → decompose (unit_of (flux s)) ≠ mag →
  Forall (λ y, 0 <= scalar_op op y x) (value (flux s)) →
  _operate_on s (PyNum x) op =
    Ok (rebuilt s (value (wave s))
                ((λ y, scalar_op op y x) <$> value (flux s))
                (<["expr" := class_name (cls s)]> (metadata s))).
Proof.
  intros Hsame Hv Hmag Hpos. rewrite operate_on_scalar by done.
  assert (¬ Exists (λ y, y < 0) ((λ y, scalar_op op y x) <$> value (flux s)))
    as Hn by (by apply nonneg_no_negative, Forall_fmap).
  rewrite zero_negatives_id, decide_False by done.
  unfold rebuilt. by destruct (wave s).
Qed.

End Scalar.

Section ScalarTheorems.

Context `{US : UnitSystem} `{Co : !Collaborators}.

(** X8. An operation between a valid spectrum (not in magnitudes) and a number
    always returns: the grid, the class, the area and the unit are kept,
    each value is combined with the number and a negative outcome is
    replaced by zero; there is a warning exactly when that happened, and
    the result is valid.  Division by zero is left aside, where floats
    give infinities. *)
Theorem scalar_operation (s : Spectrum) (op : OpType) (x : Qc) :
  quantity_to_same → valid s → decompose (unit_of (flux s)) ≠ mag →
  (op = Div → x ≠ 0) →
  ∃ r, operator op s (PyNum x) = Ok r ∧
       cls r = cls s ∧ wave r = wave s ∧
       primary_area r = primary_area s ∧
       unit_of (flux r) = unit_of (flux s) ∧
       length (value (flux r)) = length (value (flux s)) ∧
       (∀ i y, value (flux s) !! i = Some y →
               value (flux r) !! i =
                 Some (np.maximum (scalar_op op y x) 0)) ∧
       (warnings r = ∅ ↔
        Forall (λ y, 0 <= scalar_op op y x) (value (flux s))) ∧
       valid r.
Proof.
  intros Hsame Hv Hmag _.
  rewrite operator_number, operate_on_scalar by done.
  eexists. split; [done|]. cbn.
  pose proof Hv as (Hu & _ & Hw & Hlen & Hne & _).
  repeat split; try done.
  - unfold zero_negatives. by rewrite !length_fmap.
  - intros i y Hi. unfold zero_negatives.
    rewrite !list_lookup_fmap, Hi. cbn. unfold np.maximum.
    by case_decide.
  - case_decide as Hex.
    + intros E. exfalso. revert E. apply insert_non_empty.
    + intros _. apply Forall_forall. intros y Hy.
      apply Qcnot_lt_le. intros Hneg. apply Hex, Exists_exists.
      exists (scalar_op op y x). split; [|done].
      apply list_elem_of_fmap. by exists y.
  - intros Hall. rewrite decide_False; [done|].
    by apply nonneg_no_negative, Forall_fmap.
  - intros _. cbn. apply zero_negatives_nonneg.
  - cbn. unfold zero_negatives. by rewrite !length_fmap.
  - cbn. rewrite lookup_insert_eq. by eexists.
Qed.

(** X11. Multiplying a valid spectrum by a negative number does not change the
    sign of its values: every value of the result is zero. *)
Theorem negative_factor_zeroes (s : Spectrum) (a : Qc) :
  quantity_to_same → valid s → decompose (unit_of (flux s)) ≠ mag →
  a < 0 →
  ∃ r, operator Mul s (PyNum a) = Ok r ∧
       wave r = wave s ∧
       length (value (flux r)) = length (value (flux s)) ∧
       Forall (λ y, y = 0) (value (flux r)) ∧
       (warnings r = ∅ ↔ Forall (λ y, y = 0) (value (flux s))).
Proof.
  intros Hsame Hv Hmag Ha.
  pose proof Hv as (_ & Hpos & _). specialize (Hpos Hmag).
  rewrite operator_number, operate_on_scalar by done.
  eexists. split; [done|]. cbn.
  assert (∀ y, 0 <= y → y * a < 0 ↔ y ≠ 0) as Hsign.
  { intros y Hy. split.
    - intros H ->. revert H. replace (0 * a) with 0 by ring.
      apply Qclt_irreflexive.
    - intros Hne. apply Qcle_lt_or_eq in Hy as [Hy|<-]; [|done].
      assert (a * y < 0 * y) as H by (by apply Qcmult_lt_compat_r).
      replace (0 * y) with 0 in H by ring. by rewrite Qcmult_comm. }
  rewrite Forall_forall in Hpos.
  repeat split.
  - unfold zero_negatives. by rewrite !length_fmap.
  - unfold zero_negatives. rewrite <- list_fmap_compose.
    apply Forall_fmap, Forall_forall. intros y Hy. cbn.
    case_decide as Hneg; [done|].
    destruct (decide (y = 0)) as [->|Hne]; [ring|].
    exfalso. apply Hneg, Hsign; [by apply Hpos|done].
  - case_decide as Hex.
    + intros E. exfalso. revert E. apply insert_non_empty.
    + intros _. apply Forall_forall. intros y Hy.
      destruct (decide (y = 0)) as [|Hne]; [done|].
      exfalso. apply Hex, Exists_fmap, Exists_exists. exists y.
      split; [done|]. cbn. apply Hsign; [by apply Hpos|done].
  - intros Hall. rewrite decide_False; [done|].
    intros (y & Hy & Hneg)%Exists_fmap%Exists_exists. cbn in Hneg.
    rewrite Forall_forall in Hall. rewrite (Hall y Hy) in Hneg.
    revert Hneg. replace (0 * a) with 0 by ring. apply Qclt_irreflexive.
Qed.

End ScalarTheorems.

(** ** Arithmetic between spectra *)

Lemma isinstance_refl (c : Class) : isinstance c c = true.
Proof. by destruct c. Qed.

Section SpectraTheorems.

Context `{US : UnitSystem} `{Co : !Collaborators}.

Lemma resample_unit (s : Spectrum) (w : ArrayLike) (q : Quantity) :
  resample s w = Ok q → unit_of q = unit_of (flux s).
Proof.
  rewrite resample_interp. cbn.
  destruct (utils.validate_wavelengths _); [cbn|done].
  destruct (spectral_to _ _ _); [cbn|done].
  destruct (np.first (value _)); [cbn|done].
  destruct (np.first _); [cbn|done].
  destruct (np.last _); [cbn|done].
  destruct (if decide _ then _ else _); [cbn|done].
  by intros [= <-].
Qed.

(** X12. Magnitudes do not mix with linear flux: when one operand is in
    magnitudes and the other is neither in magnitudes nor dimensionless
    (or the left one is not in magnitudes and the right one is),
    [_operate_on] raises [IncompatibleSources] for every operation, and so
    does every operator that is not handed over to the other operand. *)
Theorem magnitudes_do_not_mix (self other : Spectrum) (op : OpType) :
  mag_mismatch self other →
  _operate_on self (PySpec other) op = Raise IncompatibleSources ∧
  (delegated op self (PySpec other) = false →
   operator op self (PySpec other) = Raise IncompatibleSources).
Proof.
  intros Hmm.
  assert (_operate_on self (PySpec other) op = Raise IncompatibleSources)
    as Hop.
  { unfold _operate_on.
    destruct (decide (primary_area self ≠ primary_area other)); [done|].
    destruct (bool_decide (op = Div) && _); [done|].
    destruct (bool_decide (op = Mul) && _ && _); [done|].
    destruct (bool_decide (op ∈ [Add; Sub]) && _); [done|].
    destruct (_ || _) eqn:Hm; [done|]. exfalso.
    apply orb_false_iff in Hm as [Hm1 Hm2].
    destruct Hmm as [(H1 & H2 & H3)|[H1 H2]].
    - rewrite (bool_decide_eq_true_2 _ H1) in Hm1.
      rewrite bool_decide_eq_true_2 in Hm1; [done|].
      rewrite !not_elem_of_cons. repeat split; try done. apply not_elem_of_nil.
    - by rewrite !bool_decide_eq_true_2 in Hm2. }
  split; [done|]. intros Hd. by rewrite operator_engine, Hd.
Qed.

(** X13. What an operator returns is a well-formed instance: unless it is in
    magnitudes, the result satisfies the invariants of the constructor.
    Its class is that of the left operand, or [SourceSpectrum] when a
    passband has handed the multiplication over to a source. *)
Theorem operator_result_valid (self : Spectrum) (other : PyObj)
    (op : OpType) (r : Spectrum) :
  operator op self other = Ok r →
  (decompose (unit_of (flux r)) ≠ mag → valid r) ∧
  cls r = (if delegated op self other then SourceSpectrum else cls self).
Proof.
  rewrite operator_engine.
  destruct (delegated op self other) eqn:Hd.
  - destruct other as [x|o|x u| |];
      try (unfold delegated in Hd; by rewrite andb_false_r in Hd).
    intros Hr.
    apply andb_true_iff in Hd as [_ Ho].
    assert (cls o = SourceSpectrum) as Hc by (by destruct (cls o)).
    apply operate_on_inv in Hr as (nw & res & Hi).
    split.
    + intros Hm. by apply init_valid in Hi as [_ ?].
    + apply init_inv in Hi as [-> _]. done.
  - intros Hr. apply operate_on_inv in Hr as (nw & res & Hi). split.
    + intros Hm. by apply init_valid in Hi as [_ ?].
    + by apply init_inv in Hi as [-> _].
Qed.

(** X14. A spectrum minus itself is zero everywhere: whatever grid the merge
    gives, every value of the result is zero and there is no warning. *)
Theorem subtract_itself (s r : Spectrum) :
  quantity_to_same → convert_flux_same →
  operator Sub s (PySpec s) = Ok r →
  Forall (λ y, y = 0) (value (flux r)) ∧ warnings r = ∅ ∧
  unit_of (flux r) = unit_of (flux s).
Proof.
  intros Hsame Hconv. cbn. unfold __sub__, _operate_on.
  destruct (decide (primary_area s ≠ primary_area s)); [done|].
  destruct (bool_decide (Sub = Div) && _); [done|].
  destruct (bool_decide (Sub = Mul) && _ && _); [done|].
  destruct (bool_decide (Sub ∈ [Add; Sub]) && _); [done|].
  destruct (_ || _); [done|].
  destruct (merge_wave s s) as [nw|]; [cbn|done].
  destruct (resample s (Qty nw)) as [f1|] eqn:Hf1; [cbn|done].
  rewrite bool_decide_eq_true_2
    by (apply elem_of_cons; right; apply list_elem_of_here).
  assert ((other2 ← convert_flux s (unit_of (flux s));
           resample other2 (Qty nw)) = Ok f1 ∨
          ∃ e, (other2 ← convert_flux s (unit_of (flux s));
                resample other2 (Qty nw)) = Raise e) as [->| [e ->]];
    [|cbn|done].
  { unfold convert_flux. destruct (cls s) eqn:Hc; cbn.
    - right. by eexists.
    - by left.
    - case_match; cbn; [right; by eexists|].
      rewrite Hconv. cbn. left. rewrite <- Hf1.
      unfold set_flux. by destruct s as [? ? [] ? ? ?].
    - by left. }
  unfold quantity_op. rewrite Hsame. cbn.
  destruct (_ !! "expr"); [|done].
  intros Hi. apply init_inv in Hi as (_ & _ & _ & _ & Hfv). cbn in Hfv.
  assert (Forall (λ y, y = 0)
            (zip_with (scalar_op Sub) (value f1) (value f1))) as Hz.
  { apply Forall_forall. intros y Hy.
    apply list_elem_of_lookup in Hy as [i Hi].
    apply lookup_zip_with_Some in Hi as (a & b & -> & Ha & Hb).
    rewrite Ha in Hb. injection Hb as <-. cbn. ring. }
  revert Hfv. unfold _validate_flux_value. cbn.
  case_decide; cbn.
  - destruct (np.min _) as [m|] eqn:Hm; [cbn|done].
    rewrite decide_False.
    + intros [= <- <-]. cbn. by rewrite (resample_unit _ _ _ Hf1).
    + apply np_min_spec in Hm as [Hin _]. rewrite Forall_forall in Hz.
      rewrite (Hz m Hin). apply Qclt_irreflexive.
  - intros [= <- <-]. cbn. by rewrite (resample_unit _ _ _ Hf1).
Qed.

End SpectraTheorems.

Lemma zip_add_self (f : list Qc) :
  zip_with (scalar_op Add) f f = (λ y, scalar_op Mul y (qz 2)) <$> f.
Proof.
  induction f as [|y f IH]; [done|]. cbn. f_equal; [|exact IH].
  replace (qz 2) with (1 + 1) by by_compute. ring.
Qed.

Section AddItself.

Context `{US : UnitSystem} `{Co : !Collaborators}.

(** X15. A spectrum plus itself is the spectrum times two, when merging the
    grid with itself gives the grid: the operation between two spectra and
    the operation with a number end in the same instance. *)
Theorem add_itself_doubles (s : Spectrum) :
  quantity_to_same → spectral_to_same → convert_flux_same →
  valid s → decompose (unit_of (flux s)) ≠ mag →
  cls s ≠ BaseSpectrum →
  merge_wavelengths (value (wave s)) (value (wave s)) = value (wave s) →
  operator Add s (PySpec s) = operator Mul s (PyNum (qz 2)).
Proof.
  intros Hsame Hspec Hconv Hv Hmag Hcls Hmerge.
  pose proof Hv as (Hu & Hpos & _ & _ & _ & [e He]). specialize (Hpos Hmag).
  assert (Forall (λ y, 0 <= scalar_op Mul y (qz 2)) (value (flux s)))
    as Hdouble.
  { eapply Forall_impl; [exact Hpos|]. intros y Hy. cbn.
    apply Qcmult_nonneg_nonneg; [done|by vm_compute]. }
  rewrite operator_number, operate_on_scalar_nonneg by done.
  assert (resample s (Qty (wave s)) = Ok (flux s)) as Hres
    by (by apply resample_onto_own_grid).
  assert (merge_wave s s = Ok (wave s)) as Hmw.
  { unfold merge_wave. rewrite Hspec. cbn. rewrite Hmerge.
    by destruct (wave s). }
  assert ((other2 ← convert_flux s (unit_of (flux s));
           resample other2 (Qty (wave s))) = Ok (flux s)) as Hother.
  { unfold convert_flux. destruct (cls s) eqn:Hc; try done.
    rewrite Hu. cbn -[resample]. rewrite Hconv.
    cbn -[resample].
    assert (set_flux s {| value := value (flux s);
                          unit_of := unit_of (flux s) |} = s) as ->; [|done].
    unfold set_flux. by destruct s as [? ? [] ? ? ?]. }
  pose proof (zip_add_self (value (flux s))) as Hzip.
  cbn -[resample convert_flux merge_wave].
  unfold __add__, _operate_on.
  rewrite decide_False by (by intros []).
  rewrite (bool_decide_eq_false_2 (Add = Div)) by done.
  rewrite (bool_decide_eq_false_2 (Add = Mul)) by done.
  cbn -[resample convert_flux merge_wave].
  rewrite isinstance_refl.
  rewrite (bool_decide_eq_false_2 (decompose (unit_of (flux s)) = mag))
    by done.
  rewrite andb_false_r.
  cbn -[resample convert_flux merge_wave].
  rewrite Hmw. cbn -[resample convert_flux merge_wave].
  rewrite Hres. cbn -[resample convert_flux merge_wave].
  rewrite ?andb_false_r.
  rewrite (bool_decide_eq_true_2 (Add ∈ [Add; Sub]))
    by apply list_elem_of_here.
  rewrite Hother. cbn. rewrite Hsame. cbn.
  rewrite (idemp (∪) (metadata s)), He, Hzip.
  rewrite init_with_flux by (done || by rewrite length_fmap).
  rewrite expr_reset.
  rewrite zero_negatives_id, decide_False
    by (by apply nonneg_no_negative, Forall_fmap).
  unfold rebuilt. rewrite ?(idemp (∪) (metadata s)). by destruct (wave s).
Qed.

End AddItself.

(** ** Tapering *)

Lemma np_last_cons_nonempty (a : list Qc) (x : Qc) :
  a ≠ [] → np.last (x :: a) = np.last a.
Proof.
  intros Hne. destruct (np_last_nonempty a Hne) as [b Hb].
  by rewrite (np_last_cons _ _ _ Hb).
Qed.

Lemma np_second_last_cons (a : list Qc) (x : Qc) :
  (2 <= length a)%nat → np.second_last (x :: a) = np.second_last a.
Proof.
  intros Hlen. unfold np.second_last. rewrite reverse_cons.
  rewrite <- length_reverse in Hlen.
  destruct (reverse a) as [|u [|v r]]; cbn in *; (lia || done).
Qed.

Lemma np_second_last_total (a : list Qc) :
  (2 <= length a)%nat → ∃ z, np.second_last a = Ok z.
Proof.
  intros Hlen. unfold np.second_last.
  rewrite <- length_reverse in Hlen.
  destruct (reverse a) as [|u [|v r]]; cbn in *; try lia. by eexists.
Qed.

Section TaperForm.

Context `{US : UnitSystem}.

Lemma taper_inv (s s' : Spectrum) :
  taper s = Ok s' →
  ∃ front back,
    (np.first (value (flux s)) = Ok 0 ∧ front = [] ∨
     ∃ f0 w0 w1,
       np.first (value (flux s)) = Ok f0 ∧ f0 ≠ 0 ∧
       np.first (value (wave s)) = Ok w0 ∧
       np.second (value (wave s)) = Ok w1 ∧ front = [w0 * w0 / w1]) ∧
    (np.last (value (flux s)) = Ok 0 ∧ back = [] ∨
     ∃ fl wl wl2,
       np.last (value (flux s)) = Ok fl ∧ fl ≠ 0 ∧
       np.last (front ++ value (wave s)) = Ok wl ∧
       np.second_last (front ++ value (wave s)) = Ok wl2 ∧
       back = [wl * wl / wl2]) ∧
    value (wave s') = front ++ value (wave s) ++ back ∧
    value (flux s') =
      ((λ _, 0) <$> front) ++ value (flux s) ++ ((λ _, 0) <$> back) ∧
    unit_of (wave s') = unit_of (wave s) ∧
    unit_of (flux s') = unit_of (flux s) ∧
    cls s' = cls s ∧ primary_area s' = primary_area s ∧
    metadata s' = metadata s ∧ warnings s' = warnings s.
Proof.
  unfold taper.
  destruct (np.first (value (flux s))) as [f0|] eqn:Hf0; [cbn|discriminate].
  assert (value (flux s) ≠ []) as Hfne by (intros E; by rewrite E in Hf0).
  destruct (decide (f0 ≠ 0)) as [Hn0|Hz0]; cbn.
  - destruct (np.first (value (wave s))) as [w0|] eqn:Hw0; [cbn|discriminate].
    destruct (np.second (value (wave s))) as [w1|] eqn:Hw1; [cbn|discriminate].
    unfold np.insert_front.
    rewrite (np_last_cons_nonempty (value (flux s))) by exact Hfne.
    destruct (np.last (value (flux s))) as [fl|] eqn:Hfl; [cbn|discriminate].
    destruct (decide (fl ≠ 0)) as [Hnl|Hzl]; cbn.
    + destruct (np.last (_ :: value (wave s))) as [wl|] eqn:Hwl;
        [cbn|discriminate].
      destruct (np.second_last (_ :: value (wave s))) as [wl2|] eqn:Hwl2;
        [cbn|discriminate].
      intros [= <-]. cbn. exists [w0 * w0 / w1], [wl * wl / wl2].
      split; [right; by eauto 10|]. split; [right; by eauto 10|]. done.
    + intros [= <-]. cbn. exists [w0 * w0 / w1], [].
      apply dec_stable in Hzl. subst fl.
      split; [right; by eauto 10|]. split; [by left|].
      by rewrite !app_nil_r.
  - apply dec_stable in Hz0. subst f0.
    destruct (np.last (value (flux s))) as [fl|] eqn:Hfl; [cbn|discriminate].
    destruct (decide (fl ≠ 0)) as [Hnl|Hzl]; cbn.
    + destruct (np.last (value (wave s))) as [wl|] eqn:Hwl;
        [cbn|discriminate].
      destruct (np.second_last (value (wave s))) as [wl2|] eqn:Hwl2;
        [cbn|discriminate].
      intros [= <-]. cbn. exists [], [wl * wl / wl2].
      split; [by left|]. split; [right; by eauto 10|]. done.
    + intros [= <-]. exists [], [].
      apply dec_stable in Hzl. subst fl.
      split; [by left|]. split; [by left|]. cbn. by rewrite !app_nil_r.
Qed.

End TaperForm.

(** ** Grids in terms of sortedness *)

Lemma sorted_ascending (w : list Qc) :
  StronglySorted Qclt w → utils.ascending w = true.
Proof.
  intros Hs. apply ascending_Sorted.
  induction Hs as [|a l Hs IH Ha]; [constructor|].
  constructor; [done|]. destruct l as [|b l]; constructor.
  apply Forall_cons in Ha as [Hab _]. by apply Qclt_le_weak.
Qed.

Lemma validate_wavelengths_sorted (w : list Qc) :
  utils.validate_wavelengths w = Ok () ↔
  (StronglySorted Qclt w ∨ StronglySorted Qclt (reverse w)) ∧
  Forall (λ x, 0 < x) w.
Proof.
  split.
  - intros (Hmono & Hnd & Hpos)%validate_wavelengths_ok. split; [|done].
    destruct Hmono; [left; by apply ascending_strict
                    |right; by apply descending_strict].
  - intros [Hs Hpos]. apply validate_wavelengths_intro; [| |done].
    + destruct Hs as [Hs|Hs]; [left; by apply sorted_ascending|right].
      rewrite <- ascending_reverse. by apply sorted_ascending.
    + destruct Hs as [Hs|Hs]; [by apply sorted_NoDup|].
      apply sorted_NoDup in Hs. by rewrite reverse_Permutation in Hs.
Qed.

(** The point [taper] puts before an ascending grid, [w0 ** 2 / w1], lies
    below its first point. *)
Lemma front_point_sorted (w : list Qc) (w0 w1 : Qc) :
  StronglySorted Qclt w → Forall (λ x, 0 < x) w →
  np.first w = Ok w0 → np.second w = Ok w1 →
  StronglySorted Qclt (w0 * w0 / w1 :: w) ∧ 0 < w0 * w0 / w1.
Proof.
  intros Hs Hpos H0 H1. destruct w as [|a [|b w]]; try done.
  injection H0 as ->. injection H1 as ->.
  apply Forall_cons in Hpos as [Hp0 [Hp1 _]%Forall_cons].
  pose proof Hs as [_ [H01 Hrest]%Forall_cons]%StronglySorted_inv.
  pose proof (Qcpos_nonzero _ Hp1) as Hne.
  assert (0 < w0 * w0 / w1) as Hx.
  { apply Qcmult_pos_pos; [by apply Qcmult_pos_pos|by apply Qcinv_pos]. }
  assert (w0 * w0 / w1 < w0) as Hlt.
  { apply Qclt_minus_iff.
    replace (w0 + - (w0 * w0 / w1)) with (w0 * (w1 - w0) * / w1)
      by (field; done).
    apply Qcmult_pos_pos; [|by apply Qcinv_pos].
    apply Qcmult_pos_pos; [done|by apply Qcminus_pos]. }
  split; [|done]. constructor; [done|].
  constructor; [done|]. constructor; [by eapply Qclt_trans|].
  eapply Forall_impl; [exact Hrest|]. intros x Hx'. cbn in Hx'.
  by eapply Qclt_trans.
Qed.

(** The point [taper] puts after an ascending grid, [wl ** 2 / wl2], lies
    above its last point. *)
Lemma back_point_sorted (w : list Qc) (wl wl2 : Qc) :
  StronglySorted Qclt w → Forall (λ x, 0 < x) w →
  np.last w = Ok wl → np.second_last w = Ok wl2 →
  StronglySorted Qclt (w ++ [wl * wl / wl2]) ∧ 0 < wl * wl / wl2.
Proof.
  intros Hs Hpos Hl Hl2.
  assert (wl2 ∈ w ∧ wl2 < wl) as [Hin2 H21].
  { unfold np.last, np.second_last in *.
    destruct (reverse w) as [|a [|b r]] eqn:E; try done.
    injection Hl as ->. injection Hl2 as ->.
    assert (w = reverse r ++ [wl2] ++ [wl]) as ->.
    { rewrite <- (reverse_involutive w), E.
      by rewrite !reverse_cons, <- app_assoc. }
    split; [set_solver|].
    apply StronglySorted_app in Hs as (_ & _ & Hs).
    by apply StronglySorted_inv in Hs as [_ [? _]%Forall_cons]. }
  rewrite Forall_forall in Hpos.
  pose proof (Hpos _ Hin2) as Hp2.
  pose proof (Hpos _ (np_last_elem _ _ Hl)) as Hpl.
  pose proof (Qcpos_nonzero _ Hp2) as Hne.
  assert (0 < wl * wl / wl2) as Hy.
  { apply Qcmult_pos_pos; [by apply Qcmult_pos_pos|by apply Qcinv_pos]. }
  assert (wl < wl * wl / wl2) as Hlt.
  { apply Qclt_minus_iff.
    replace (wl * wl / wl2 + - wl) with (wl * (wl - wl2) * / wl2)
      by (field; done).
    apply Qcmult_pos_pos; [|by apply Qcinv_pos].
    apply Qcmult_pos_pos; [done|by apply Qcminus_pos]. }
  split; [|done]. apply StronglySorted_app_2; [|done|repeat constructor].
  intros x1 x2 Hx1 ->%list_elem_of_singleton.
  eapply Qcle_lt_trans; [|exact Hlt].
  pose proof (sorted_last_max _ _ Hs Hl) as Hmax.
  rewrite Forall_forall in Hmax. by apply Hmax.
Qed.

Lemma taper_front_grid (w : list Qc) (w0 w1 : Qc) :
  utils.validate_wavelengths w = Ok () →
  np.first w = Ok w0 → np.second w = Ok w1 →
  utils.validate_wavelengths (w0 * w0 / w1 :: w) = Ok ().
Proof.
  rewrite !validate_wavelengths_sorted. intros [Hs Hpos] H0 H1.
  destruct Hs as [Hs|Hs].
  - destruct (front_point_sorted w w0 w1) as [Hs' Hx]; try done.
    split; [by left|by constructor].
  - destruct (back_point_sorted (reverse w) w0 w1) as [Hs' Hx]; try done.
    + by apply Forall_reverse.
    + by rewrite np_last_reverse.
    + unfold np.second_last. by rewrite reverse_involutive.
    + split; [right; by rewrite reverse_cons|by constructor].
Qed.

Lemma taper_back_grid (w : list Qc) (wl wl2 : Qc) :
  utils.validate_wavelengths w = Ok () →
  np.last w = Ok wl → np.second_last w = Ok wl2 →
  utils.validate_wavelengths (w ++ [wl * wl / wl2]) = Ok ().
Proof.
  rewrite !validate_wavelengths_sorted. intros [Hs Hpos] Hl Hl2.
  destruct Hs as [Hs|Hs].
  - destruct (back_point_sorted w wl wl2) as [Hs' Hx]; try done.
    split; [by left|]. apply Forall_app. split; [done|by constructor].
  - destruct (front_point_sorted (reverse w) wl wl2) as [Hs' Hx]; try done.
    + by apply Forall_reverse.
    + split; [right; by rewrite reverse_app|].
      apply Forall_app. split; [done|by constructor].
Qed.

Section TaperTheorems.

Context `{US : UnitSystem}.

(** X22. What [taper] changes: a returned instance holds the arrays of the
    original with at most one point put before them and at most one after
    them, each with the value zero; a point is put at an end exactly when
    the value there is not zero, at the wavelength [w0 ** 2 / w1]
    continuing the ratio of the two points next to it.  Nothing else of
    the instance changes. *)
Theorem taper_adds_end_points (s s' : Spectrum) :
  taper s = Ok s' →
  ∃ front back,
    value (wave s') = front ++ value (wave s) ++ back ∧
    value (flux s') =
      ((λ _, 0) <$> front) ++ value (flux s) ++ ((λ _, 0) <$> back) ∧
    (np.first (value (flux s)) = Ok 0 ∧ front = [] ∨
     ∃ f0 w0 w1,
       np.first (value (flux s)) = Ok f0 ∧ f0 ≠ 0 ∧
       np.first (value (wave s)) = Ok w0 ∧
       np.second (value (wave s)) = Ok w1 ∧ front = [w0 * w0 / w1]) ∧
    (np.last (value (flux s)) = Ok 0 ∧ back = [] ∨
     ∃ fl wl wl2,
       np.last (value (flux s)) = Ok fl ∧ fl ≠ 0 ∧
       np.last (value (wave s)) = Ok wl ∧
       np.second_last (value (wave s)) = Ok wl2 ∧
       back = [wl * wl / wl2]) ∧
    unit_of (wave s') = unit_of (wave s) ∧
    unit_of (flux s') = unit_of (flux s) ∧
    cls s' = cls s ∧ primary_area s' = primary_area s ∧
    metadata s' = metadata s ∧ warnings s' = warnings s.
Proof.
  intros (front & back & Hf & Hb & Hrest)%taper_inv.
  exists front, back. destruct Hrest as (Hw & Hfl & Hrest).
  split; [done|]. split; [done|]. split; [done|]. split; [|done].
  destruct Hb as [Hb|(fl & wl & wl2 & H1 & H2 & H3 & H4 & H5)]; [by left|].
  right. exists fl, wl, wl2. split; [done|]. split; [done|].
  destruct Hf as [[_ ->]|(f0 & w0 & w1 & _ & _ & Hw0 & Hw1 & ->)]; [done|].
  destruct (value (wave s)) as [|a [|b w]]; try done.
  split; [|split; [|done]].
  - rewrite <- H3. cbn -[np.last].
    by rewrite (np_last_cons_nonempty (a :: b :: w)).
  - rewrite <- H4. cbn -[np.second_last].
    rewrite (np_second_last_cons (a :: b :: w)); [done|cbn; lia].
Qed.

(** X23. [taper] keeps the invariants: tapering a valid spectrum gives a valid
    spectrum, the points it adds continue the grid in its direction and
    are positive. *)
Theorem taper_valid (s s' : Spectrum) :
  valid s → taper s = Ok s' → valid s'.
Proof.
  intros (Hu & Hpos & Hw & Hlen & Hne & Hexpr).
  intros (front & back & Hf & Hb & Hwv & Hfl & Hu1 & Hu2 & Hc & _ & Hmd & _)
    %taper_inv.
  assert (utils.validate_wavelengths (front ++ value (wave s)) = Ok ())
    as Hw1.
  { destruct Hf as [[_ ->]|(f0 & w0 & w1 & _ & _ & Hw0 & Hw1 & ->)]; [done|].
    by apply taper_front_grid. }
  assert (utils.validate_wavelengths
            ((front ++ value (wave s)) ++ back) = Ok ()) as Hw2.
  { destruct Hb as [[_ ->]|(fl & wl & wl2 & _ & _ & Hwl & Hwl2 & ->)].
    - by rewrite app_nil_r.
    - by apply taper_back_grid. }
  rewrite <- app_assoc in Hw2.
  unfold valid. rewrite Hwv, Hfl, Hu2, Hc, Hmd.
  split; [done|]. split; [|split; [done|split; [|split; [|done]]]].
  - intros Hm. specialize (Hpos Hm).
    rewrite !Forall_app. repeat split; try done;
      apply Forall_fmap, Forall_true; intros; apply Qcle_refl.
  - rewrite !length_app, !length_fmap. lia.
  - intros E. apply app_eq_nil in E as [_ [E _]%app_eq_nil]. done.
Qed.

(** X24. [taper] on a valid spectrum fails in one case only: a spectrum of a
    single point with a value that is not zero, where the neighbour
    [wave_value[1]] does not exist and [IndexError] is raised.  With two
    grid points or more it returns. *)
Theorem taper_single_point (s : Spectrum) :
  valid s →
  (∀ w f, value (wave s) = [w] → value (flux s) = [f] → f ≠ 0 →
          taper s = Raise IndexError) ∧
  ((2 <= length (value (wave s)))%nat → ∃ s', taper s = Ok s').
Proof.
  intros (Hu & Hpos & Hw & Hlen & Hne & Hexpr). split.
  - intros w f Ew Ef Hf. unfold taper. rewrite Ew, Ef. cbn.
    by rewrite decide_True.
  - intros H2. unfold taper.
    destruct (value (wave s)) as [|w0 [|w1 wv]] eqn:Ew; cbn in H2; try lia.
    destruct (value (flux s)) as [|f0 [|f1 fv]] eqn:Ef; try done.
    cbn -[np.last np.second_last np.insert_back].
    destruct (np_last_nonempty (f0 :: f1 :: fv)) as [fl Hfl]; [done|].
    assert (∃ wl, np.last (w0 :: w1 :: wv) = Ok wl) as [wl Hwl]
      by (by apply np_last_nonempty).
    assert (∃ wl2, np.second_last (w0 :: w1 :: wv) = Ok wl2) as [wl2 Hwl2]
      by (apply np_second_last_total; cbn; lia).
    case_decide; cbn -[np.last np.second_last np.insert_back].
    + unfold np.insert_front.
      rewrite (np_last_cons_nonempty (f0 :: f1 :: fv)) by done.
      rewrite Hfl. cbn -[np.last np.second_last np.insert_back].
      case_decide; cbn -[np.last np.second_last np.insert_back];
        [|by eexists].
      rewrite (np_last_cons_nonempty (w0 :: w1 :: wv)) by done.
      rewrite Hwl. cbn -[np.last np.second_last np.insert_back].
      assert (∃ z, np.second_last (w0 * w0 / w1 :: w0 :: w1 :: wv) = Ok z)
        as [z ->] by (apply np_second_last_total; cbn; lia).
      cbn. by eexists.
    + rewrite Hfl. cbn -[np.last np.second_last np.insert_back].
      case_decide; cbn -[np.last np.second_last np.insert_back];
        [|by eexists].
      rewrite Hwl, Hwl2. cbn. by eexists.
Qed.

(** X17. Tapering a spectrum does not change how another spectrum overlaps it:
    only points with the value zero are added, and [check_overlap] looks
    at the wavelengths where the value is not zero. *)
Theorem check_overlap_tapered (self other other' : Spectrum)
    (threshold : Qc) :
  length (value (wave other)) = length (value (flux other)) →
  taper other = Ok other' →
  nonzero_wave other' = nonzero_wave other ∧
  check_overlap self other' threshold = check_overlap self other threshold.
Proof.
  intros Hlen (front & back & _ & _ & Hwv & Hfl & Hu & _)%taper_inv.
  assert (nonzero_wave other' = nonzero_wave other) as E.
  { unfold nonzero_wave. rewrite Hwv, Hfl.
    rewrite !zip_with_app by (by rewrite ?length_fmap).
    rewrite !filter_app, !fmap_app.
    assert (∀ l : list Qc,
      filter (λ p : Qc * Qc, p.2 ≠ 0) (zip l ((λ _, 0) <$> l)) = []) as Hz.
    { induction l as [|x l IH]; [done|]. csimpl.
      by rewrite filter_cons_False by (by intros []). }
    by rewrite !Hz, app_nil_r. }
  split; [done|]. unfold check_overlap. by rewrite E, Hu.
Qed.

End TaperTheorems.

(** ** Redshift *)

Lemma Qcinv_neg (c : Qc) : c < 0 → / c < 0.
Proof.
  intros Hc.
  assert (c ≠ 0) as Hne by (intros ->; by apply (Qclt_irreflexive 0)).
  assert (0 < - c) as Hpos.
  { apply Qclt_minus_iff in Hc. by rewrite Qcplus_0_l in Hc. }
  pose proof (Qcpos_nonzero _ Hpos) as Hne'.
  apply Qcinv_pos in Hpos.
  replace (/ - c) with (- / c) in Hpos by (field; done).
  apply Qclt_minus_iff. by rewrite Qcplus_0_l.
Qed.

Lemma Qcmult_le_neg (x y c : Qc) : c < 0 → x <= y → y * c <= x * c.
Proof.
  intros Hc Hxy. apply Qcle_minus_iff.
  replace (x * c + - (y * c)) with ((y - x) * - c) by ring.
  apply Qcmult_nonneg_nonneg; [by apply Qcminus_nonneg|].
  apply Qclt_le_weak, Qcle_minus_iff in Hc. by rewrite Qcplus_0_l in Hc.
Qed.

Lemma Qcmult_neg_pos (x c : Qc) : c < 0 → 0 < x → x * c < 0.
Proof.
  intros Hc Hx.
  assert (c * x < 0 * x) as H by (by apply Qcmult_lt_compat_r).
  replace (0 * x) with 0 in H by ring. by rewrite Qcmult_comm.
Qed.

Lemma scale_neg_inj (c : Qc) : c < 0 → Inj (=) (=) (λ x : Qc, x * c).
Proof.
  intros Hc x y E.
  assert (c ≠ 0) as Hne by (intros ->; by apply (Qclt_irreflexive 0)).
  replace x with (x * c * / c) by (field; done).
  rewrite E. field. done.
Qed.

(** A grid scaled by a negative factor fails the validation on its sign
    alone. *)
Lemma validate_wavelengths_scale_neg (w : list Qc) (c : Qc) :
  c < 0 → w ≠ [] → utils.validate_wavelengths w = Ok () →
  utils.validate_wavelengths ((λ x, x * c) <$> w) = Raise ZeroWavelength.
Proof.
  intros Hc Hne (Hmono & Hnd & Hpos)%validate_wavelengths_ok.
  unfold utils.validate_wavelengths.
  assert (utils.ascending ((λ x, x * c) <$> w) ||
          utils.descending ((λ x, x * c) <$> w) = true) as ->.
  { apply orb_true_iff. destruct Hmono as [Ha|Hd]; [right|left].
    - apply descending_Sorted. apply ascending_Sorted in Ha.
      eapply Sorted_fmap; [|exact Ha]. intros x y Hxy. cbn.
      by apply Qcmult_le_neg.
    - apply ascending_Sorted. apply descending_Sorted in Hd.
      eapply Sorted_fmap; [|exact Hd]. intros x y Hxy. cbn.
      by apply Qcmult_le_neg. }
  cbn. rewrite bool_decide_eq_true_2; cbn.
  - rewrite bool_decide_eq_true_2; [done|].
    destruct w as [|x w]; [done|]. apply Forall_cons in Hpos as [Hx _].
    left. by apply Qclt_le_weak, Qcmult_neg_pos.
  - apply NoDup_fmap_2; [by apply scale_neg_inj|done].
Qed.

Section RedshiftTheorems.

Context `{US : UnitSystem} `{Co : !Collaborators}.

Lemma apply_redshift_form (s : Spectrum) (z : Qc) :
  quantity_to_same → valid s → 0 < 1 + z →
  apply_redshift s (PyNum z) =
    Ok {| cls := cls s; wave := redshifted s z; flux := flux s;
          primary_area := primary_area s;
          metadata :=
            <["expr" := default "" (metadata s !! "expr") +:+
                        " at z=" +:+ format_number z]> (metadata s);
          warnings := ∅ |}.
Proof.
  intros Hsame Hv Hz. unfold apply_redshift, __str__.
  destruct (redshifted_valid s z Hv Hz) as [Hw Hl].
  pose proof Hv as (_ & _ & _ & _ & _ & [e He]). rewrite He. cbn.
  fold (redshifted s z). rewrite init_rebuild_on by done.
  rewrite init_metadata_keep; [done|].
  rewrite lookup_insert_eq. by eexists.
Qed.

(** A redshifted valid spectrum is valid. *)
Lemma apply_redshift_valid (s r : Spectrum) (z : Qc) :
  quantity_to_same → valid s → 0 < 1 + z →
  apply_redshift s (PyNum z) = Ok r → valid r.
Proof.
  intros Hsame Hv Hz. rewrite apply_redshift_form by done. intros [= <-].
  destruct (redshifted_valid s z Hv Hz) as [Hw Hl].
  pose proof Hv as (Hu & Hpos & _ & Hlen & Hne & _).
  repeat split; cbn; try done.
  - intros E. apply Hne. apply length_zero_iff_nil.
    by rewrite Hlen, <- Hl, E.
  - rewrite lookup_insert_eq. by eexists.
Qed.

(** X25. Redshifts in a row.  A redshifted valid spectrum is valid again
    and keeps the values, the area and the class of the original, so for
    [1 + z1] and [1 + z2] positive the redshift [z1] followed by [z2]
    returns; each wavelength has been multiplied by [1 + z1] and then by
    [1 + z2] (divided, on a frequency or wavenumber grid), and ['expr']
    records the two steps in their order. *)
Theorem redshifts_in_a_row (s : Spectrum) (z1 z2 : Qc) :
  quantity_to_same → valid s → 0 < 1 + z1 → 0 < 1 + z2 →
  ∃ r r',
    apply_redshift s (PyNum z1) = Ok r ∧ valid r ∧
    apply_redshift r (PyNum z2) = Ok r' ∧ valid r' ∧
    cls r' = cls s ∧ flux r' = flux s ∧
    primary_area r' = primary_area s ∧
    unit_of (wave r') = unit_of (wave s) ∧
    value (wave r') =
      (if decide (physical_type (unit_of (wave s)) = "length")
       then (λ w, w * (1 + z1) * (1 + z2)) <$> value (wave s)
       else (λ w, w / (1 + z1) / (1 + z2)) <$> value (wave s)) ∧
    __str__ r' =
      Ok ((default "" (metadata s !! "expr") +:+
           " at z=" +:+ format_number z1) +:+
          " at z=" +:+ format_number z2).
Proof.
  intros Hsame Hv H1 H2.
  destruct (apply_redshift s (PyNum z1)) as [r|e] eqn:Hr;
    [|by rewrite apply_redshift_form in Hr].
  pose proof (apply_redshift_valid s r z1 Hsame Hv H1 Hr) as Hvr.
  destruct (apply_redshift r (PyNum z2)) as [r'|e] eqn:Hr';
    [|by rewrite apply_redshift_form in Hr'].
  pose proof (apply_redshift_valid r r' z2 Hsame Hvr H2 Hr') as Hvr'.
  exists r, r'. do 4 (split; [done|]).
  rewrite apply_redshift_form in Hr' by done. injection Hr' as <-.
  rewrite apply_redshift_form in Hr by done. injection Hr as <-.
  cbn. unfold redshifted. cbn.
  destruct (decide (physical_type (unit_of (wave s)) = "length")) as [Hl|Hl];
    cbn; [rewrite decide_True by done|rewrite decide_False by done]; cbn;
    rewrite <- list_fmap_compose, lookup_insert_eq; cbn;
    unfold __str__; cbn; rewrite lookup_insert_eq; done.
Qed.

(** X26. A redshift with [1 + z] negative turns every wavelength negative, and
    the constructor raises [ZeroWavelength]. *)
Theorem redshift_below_minus_one (s : Spectrum) (z : Qc) :
  valid s → 1 + z < 0 →
  apply_redshift s (PyNum z) = Raise ZeroWavelength.
Proof.
  intros (Hu & Hpos & Hw & Hlen & Hne & [e He]) Hz.
  unfold apply_redshift, __str__. rewrite He. cbn.
  assert (value (flux s) ≠ []) as Hfne.
  { intros E. apply Hne. apply length_zero_iff_nil. by rewrite Hlen, E. }
  destruct (decide (physical_type (unit_of (wave s)) = "length"));
    unfold __init__; cbn -[utils.validate_wavelengths];
    rewrite Hu; cbn -[utils.validate_wavelengths];
    rewrite validate_flux_value_unchanged by done;
    cbn -[utils.validate_wavelengths].
  - by rewrite validate_wavelengths_scale_neg.
  - rewrite (validate_wavelengths_scale_neg _ (/ (1 + z))); [done| |done..].
    by apply Qcinv_neg.
Qed.

End RedshiftTheorems.

(** ** The constructor *)

Section ConstructorTheorems.

Context `{US : UnitSystem}.

(** X1. What the constructor guarantees: an instance it returns (not in
    magnitudes) satisfies the invariants, is of the class asked for, and
    carries the metadata given with ["expr"] added when it was missing, so
    that [str] of it never fails; every other key is as given. *)
Theorem constructor_invariants (c : Class) (wavelengths fluxes : ArrayLike)
    (flux_unit : Unit) (area : option ScalarLike)
    (header : gmap string string) (s : Spectrum) :
  __init__ c wavelengths fluxes flux_unit area header = Ok s →
  decompose (unit_of (flux s)) ≠ mag →
  valid s ∧ cls s = c ∧
  __str__ s = Ok (default (class_name c) (header !! "expr")) ∧
  (∀ k, k ≠ "expr" → metadata s !! k = header !! k).
Proof.
  intros Hi Hm. pose proof (init_valid _ _ _ _ _ _ _ Hi Hm) as [Hc Hv].
  apply init_inv in Hi as (_ & _ & Hmd & _).
  split; [done|]. split; [done|]. unfold __str__. rewrite Hmd.
  unfold init_metadata.
  destruct (header !! "expr") as [e|] eqn:He.
  - by rewrite He.
  - rewrite lookup_insert_eq. split; [done|].
    intros k Hk. by rewrite lookup_insert_ne.
Qed.

(** X2. The default header is shared.  The first instance made without a
    [header] writes its class name into the default dict; every later
    instance made without a [header], of whatever class, finds ["expr"]
    there and keeps it: its metadata is that of the first instance and
    [str] of it is the name of the class of the first. *)
Theorem default_header_shared (c1 c2 : Class)
    (w1 f1 w2 f2 : ArrayLike) (u1 u2 : Unit) (a1 a2 : option ScalarLike)
    (s1 s2 : Spectrum) (d1 d2 : gmap string string) :
  init_default_header ∅ c1 w1 f1 u1 a1 = Ok (s1, d1) →
  init_default_header d1 c2 w2 f2 u2 a2 = Ok (s2, d2) →
  d1 = {[ "expr" := class_name c1 ]} ∧ d2 = d1 ∧
  metadata s2 = metadata s1 ∧
  __str__ s1 = Ok (class_name c1) ∧
  __str__ s2 = Ok (class_name c1) ∧
  cls s2 = c2.
Proof.
  unfold init_default_header.
  destruct (__init__ c1 _ _ _ _ _) as [r1|] eqn:H1; [cbn|done].
  intros [= <- <-].
  destruct (__init__ c2 _ _ _ _ _) as [r2|] eqn:H2; [cbn|done].
  intros [= <- <-].
  apply init_inv in H1 as (_ & _ & Hm1 & _).
  apply init_inv in H2 as (Hc2 & _ & Hm2 & _).
  assert (metadata r1 = {[ "expr" := class_name c1 ]}) as E1.
  { rewrite Hm1. unfold init_metadata. by rewrite lookup_empty. }
  assert (metadata r2 = metadata r1) as E2.
  { rewrite Hm2, E1. unfold init_metadata. by rewrite lookup_singleton_eq. }
  unfold __str__. rewrite E2, E1, lookup_singleton_eq. done.
Qed.

End ConstructorTheorems.

(** ** Integration *)

Section IntegrateTheorems.

Context `{US : UnitSystem}.

(** X16. Integrating a valid spectrum over its own grid, given as a quantity or
    as bare values, is integrating it without a grid. *)
Theorem integrate_own_grid (s : Spectrum) :
  spectral_to_same → valid s →
  integrate s (Some (Qty (wave s))) = integrate s None ∧
  integrate s (Some (Raw (value (wave s)))) = integrate s None.
Proof.
  intros Hsame Hv. unfold integrate.
  rewrite !resample_onto_own_grid; try done.
  cbn. by destruct (wave s).
Qed.

End IntegrateTheorems.

(** ** Renormalisation *)

Section RenormTheorems.

Context `{US : UnitSystem} `{Co : !Collaborators}.

Lemma operate_on_number_inv (self : Spectrum) (k : Qc) (op : OpType)
    (r : Spectrum) :
  _operate_on self (PyNum k) op = Ok r →
  cls r = cls self ∧ wave r = wave self ∧
  unit_of (flux r) = unit_of (flux self) ∧
  metadata r = <["expr" := class_name (cls self)]> (metadata self) ∧
  (value (flux r) = (λ y, scalar_op op y k) <$> value (flux self) ∨
   value (flux r) =
     zero_negatives ((λ y, scalar_op op y k) <$> value (flux self))).
Proof.
  intros Hr. pose proof (operate_on_metadata _ _ _ _ Hr) as [Hc Hmd].
  cbn in Hmd. rewrite (right_id_L ∅ (∪)), insert_delete_eq in Hmd.
  revert Hr. unfold _operate_on. cbn.
  destruct (_ !! "expr"); [|done].
  intros (_ & Hw & _ & _ & Hfv)%init_inv. cbn in Hw, Hfv.
  revert Hfv. unfold _validate_flux_value. cbn.
  case_decide; cbn.
  - destruct (np.min _); [cbn|done].
    case_decide; intros [= <- _]; cbn; auto 10.
  - intros [= <- _]. cbn. auto 10.
Qed.

Lemma add_mag_number (self : Spectrum) (m : Qc) (newsp : Spectrum) :
  add_mag self (PyNum m) = Ok newsp →
  ∃ op k,
    (op = Mul ∨ op = Add ∧ decompose (unit_of (flux self)) = mag) ∧
    _operate_on self (PyNum k) op = Ok newsp.
Proof.
  unfold add_mag. cbn -[__mul__]. case_decide.
  - intros Hn. exists Add. eexists. split; [by right|exact Hn].
  - intros Hn. exists Mul. eexists. split; [by left|].
    etrans; [symmetry; apply (operator_number Mul)|exact Hn].
Qed.

Lemma renorm_from_scaled (self : Spectrum) (renorm_val : ScalarLike)
    (band : Spectrum) (vegaspec : PyObj) (warns : gmap string string)
    (r : Spectrum) :
  renorm_from self renorm_val band vegaspec warns = Ok r →
  ∃ newsp op k,
    (op = Mul ∨ op = Add ∧ decompose (unit_of (flux self)) = mag) ∧
    _operate_on self (PyNum k) op = Ok newsp ∧
    r = set_warnings newsp (warns ∪ warnings newsp).
Proof.
  unfold renorm_from.
  destruct renorm_val as [x|x u];
    (destruct (__mul__ self (PySpec band)) as [sp|]; [|done]);
    cbn -[__mul__ add_mag integrate convert_flux];
    (match goal with
     | |- context [mbind _ (if ?c then ?a else ?b)] =>
         destruct (if c then a else b) as [[tf sf]|]; [|done]
     end);
    cbn -[__mul__ add_mag integrate convert_flux];
    (destruct (utils.validate_totalflux tf); [|done]);
    cbn -[__mul__ add_mag integrate convert_flux];
    (case_decide;
     [destruct (add_mag _ _) as [newsp|] eqn:Hn; [|done]
     |destruct (__mul__ self (PyNum _)) as [newsp|] eqn:Hn; [|done]]);
    cbn; intros [= <-]; exists newsp.
  all: try (apply add_mag_number in Hn as (op & k & Hop & Hk);
            exists op, k; by repeat split).
  all: exists Mul; eexists; split; [by left|];
       split; [|done];
       (etrans; [symmetry; apply (operator_number Mul)|exact Hn]).
Qed.

(** X27. [renorm] only rescales: a spectrum it returns has the class, the grid
    and the unit of the original, the metadata of the original with
    ["expr"] set to the class name, and its values are those of the
    original combined with one number (multiplied by it, or in magnitudes
    increased by it), a negative outcome being replaced by zero. *)
Theorem renorm_rescales (self : Spectrum) (renorm_val : ScalarLike)
    (band vegaspec : PyObj) (force : bool) (r : Spectrum) :
  renorm self renorm_val band force vegaspec = Ok r →
  cls r = cls self ∧ wave r = wave self ∧
  unit_of (flux r) = unit_of (flux self) ∧
  metadata r = <["expr" := class_name (cls self)]> (metadata self) ∧
  ∃ op k,
    (op = Mul ∨ op = Add ∧ decompose (unit_of (flux self)) = mag) ∧
    (value (flux r) = (λ y, scalar_op op y k) <$> value (flux self) ∨
     value (flux r) =
       zero_negatives ((λ y, scalar_op op y k) <$> value (flux self))).
Proof.
  unfold renorm. destruct band as [x|b|x u| |]; try done.
  destruct (negb _); [done|].
  destruct (check_overlap _ _ _) as [stat|]; [cbn -[renorm_from]|done].
  match goal with
  | |- context [mbind _ ?m] =>
      destruct m as [warns|]; [cbn -[renorm_from]|done]
  end.
  intros (newsp & op & k & Hop & Hk & ->)%renorm_from_scaled.
  apply operate_on_number_inv in Hk as (? & ? & ? & ? & ?).
  repeat split; try done. by exists op, k.
Qed.

End RenormTheorems.

(** ** Passband statistics *)

Lemma maximum_cases (x y : Qc) : np.maximum x y = x ∨ np.maximum x y = y.
Proof. unfold np.maximum. case_decide; auto. Qed.

Lemma foldl_maximum_elem (a : list Qc) (x : Qc) :
  foldl np.maximum x a = x ∨ foldl np.maximum x a ∈ a.
Proof.
  revert x. induction a as [|y a IH]; intros x; cbn; [by left|].
  destruct (IH (np.maximum x y)) as [E|Hin].
  - rewrite E. destruct (maximum_cases x y) as [->| ->];
      [by left|right; apply list_elem_of_here].
  - right. by apply list_elem_of_further.
Qed.

(** [a.max()] is an element of [a] above all the others. *)
Lemma np_max_spec (a : list Qc) (m : Qc) :
  np.max a = Ok m → m ∈ a ∧ Forall (λ y, y <= m) a.
Proof.
  destruct a as [|x a]; [discriminate|]. cbn. intros [= <-].
  destruct (foldl_maximum_ge a x) as [H1 H2]. split.
  - destruct (foldl_maximum_elem a x) as [-> | H3];
      [apply list_elem_of_here | by apply list_elem_of_further].
  - by constructor.
Qed.

(** The first entry a mask of equality selects. *)
Lemma first_match (w f : list Qc) (t : Qc) :
  length w = length f → t ∈ f →
  ∃ i wi,
    f !! i = Some t ∧ (∀ j y, (j < i)%nat → f !! j = Some y → y ≠ t) ∧
    w !! i = Some wi ∧
    np.first
      (filter (λ p : Qc * bool, p.2 = true)
              (zip w ((λ y, bool_decide (y = t)) <$> f))).*1 = Ok wi.
Proof.
  revert w. induction f as [|y f IH]; intros [|x w] Hlen Hin; try done.
  - by apply elem_of_nil in Hin.
  - injection Hlen as Hlen. csimpl. rewrite filter_cons. csimpl.
    destruct (decide (y = t)) as [->|Hne].
    + rewrite bool_decide_eq_true_2, decide_True by done.
      exists 0%nat, x. repeat split; try done. intros j y Hj. lia.
    + rewrite bool_decide_eq_false_2, decide_False by done.
      apply elem_of_cons in Hin as [->|Hin]; [done|].
      destruct (IH w Hlen Hin) as (i & wi & Hi & Hbefore & Hwi & Hfirst).
      exists (S i), wi. repeat split; try done.
      intros [|j] z Hj Hz; cbn in Hz.
      * by injection Hz as <-.
      * apply (Hbefore j); [lia|done].
Qed.

Lemma trapz_zero (x y : list Qc) :
  Forall (λ v, v = 0) y → np.trapz y x = 0.
Proof.
  revert y. induction x as [|x0 [|x1 x] IH]; intros y Hy.
  - by destruct y.
  - by destruct y as [|? [|? ?]].
  - destruct y as [|y0 [|y1 y]]; try done.
    apply Forall_cons in Hy as [-> Hy].
    pose proof Hy as [-> _]%Forall_cons.
    change (np.trapz (0 :: 0 :: y) (x0 :: x1 :: x))
      with ((x1 - x0) * (0 + 0) / qz 2 + np.trapz (0 :: y) (x1 :: x)).
    rewrite (IH (0 :: y)) by done.
    unfold Qcdiv. ring.
Qed.

Section PassbandTheorems.

Context `{US : UnitSystem}.

Variable to_length : Quantity → result Quantity.

(** X28. [wpeak] returns the wavelength at the first grid point whose
    throughput is the peak: every point before it lies strictly below the
    peak.  For a valid passband whose grid [utils.to_length] returns point
    for point the call never fails. *)
Theorem wpeak_first_peak (s : Spectrum) (wl : Quantity) :
  valid s →
  to_length (wave s) = Ok wl →
  length (value wl) = length (value (wave s)) →
  ∃ i t w,
    tpeak s = Ok (t, unit_of (flux s)) ∧
    wpeak to_length s = Ok (w, unit_of wl) ∧
    value (flux s) !! i = Some t ∧ value wl !! i = Some w ∧
    Forall (λ y, y <= t) (value (flux s)) ∧
    (∀ j y, (j < i)%nat → value (flux s) !! j = Some y → y < t).
Proof.
  intros (_ & _ & _ & Hlen & Hne & _) Hto Hl.
  destruct (np_max_nonempty (value (flux s))) as [t Ht].
  { intros E. apply Hne, length_zero_iff_nil. by rewrite Hlen, E. }
  pose proof (np_max_spec _ _ Ht) as [Hin Hall].
  destruct (first_match (value wl) (value (flux s)) t)
    as (i & w & Hi & Hbefore & Hw & Hfirst); [congruence|done|].
  exists i, t, w. unfold wpeak, tpeak, thru. rewrite Hto, Ht. cbn.
  unfold np.mask_index. rewrite length_fmap, decide_True by congruence.
  cbn. rewrite Hfirst. cbn. repeat split; try done.
  intros j y Hj Hy. rewrite Forall_forall in Hall.
  destruct (Qcle_lt_or_eq y t) as [|E]; [|done|].
  - by eapply Hall, list_elem_of_lookup_2.
  - by destruct (Hbefore j y Hj Hy).
Qed.

(** X29. [rectwidth] does not divide by a peak of zero.  For a valid
    passband whose grid [utils.to_length] returns, the three calls
    return; the peak is zero exactly when the throughput is zero
    everywhere, and then the equivalent width is zero and [rectwidth] is
    zero in its unit; otherwise [rectwidth] is the equivalent width
    divided by the peak. *)
Theorem rectwidth_zero_peak (s : Spectrum) (wl : Quantity) :
  valid s → decompose (unit_of (flux s)) ≠ mag →
  to_length (wave s) = Ok wl →
  ∃ t ew rw u,
    tpeak s = Ok (t, unit_of (flux s)) ∧
    equivwidth to_length s = Ok (ew, unit_of wl) ∧
    rectwidth to_length s = Ok (rw, u) ∧
    (t = 0 ↔ Forall (λ y, y = 0) (value (flux s))) ∧
    (t = 0 → ew = 0 ∧ rw = 0 ∧ u = unit_of wl) ∧
    (t ≠ 0 → rw = ew / t ∧
             u = unit_div (unit_of wl) (unit_of (flux s))).
Proof.
  intros (_ & Hpos & _ & Hlen & Hne & _) Hmag Hto. specialize (Hpos Hmag).
  destruct (np_max_nonempty (value (flux s))) as [t Ht].
  { intros E. apply Hne, length_zero_iff_nil. by rewrite Hlen, E. }
  pose proof (np_max_spec _ _ Ht) as [Hin Hall].
  assert (t = 0 ↔ Forall (λ y, y = 0) (value (flux s))) as Hzero.
  { rewrite Forall_forall in Hpos, Hall. split.
    - intros ->. apply Forall_forall. intros y Hy.
      apply Qcle_antisym; [by apply Hall|by apply Hpos].
    - intros Hz. rewrite Forall_forall in Hz. by apply Hz. }
  unfold rectwidth, equivwidth, tpeak, thru. rewrite Hto, Ht. cbn.
  destruct (decide (t = 0)) as [Hz|Hz]; do 4 eexists;
    (do 3 (split; [reflexivity|])); (split; [exact Hzero|]);
    (split; [|done]).
  - intros _. split; [|done].
    unfold utils.trapezoid_integration. apply trapz_zero. by apply Hzero.
  - done.
Qed.

End PassbandTheorems.


(** ** The significance test of [check_overlap] *)

Section OverlapSignificance.

Context `{US : UnitSystem}.

Lemma nonzero_wave_subset (s : Spectrum) (x : Qc) :
  x ∈ nonzero_wave s → x ∈ value (wave s).
Proof.
  unfold nonzero_wave. intros Hx.
  apply list_elem_of_fmap in Hx as ([x' y] & -> & Hp).
  apply list_elem_of_filter in Hp as [_ Hp].
  by apply elem_of_zip_l in Hp.
Qed.

(** [integrate] on two wavelengths: one trapezoid through the values of
    the spectrum at the two. *)
Lemma integrate_two_points (s : Spectrum) (lo hi : Qc) :
  spectral_to_same → valid s → 0 < lo → lo < hi →
  integrate s (Some (Raw [lo; hi])) =
    Ok ((hi - lo) * (value_at s hi + value_at s lo) / qz 2,
        unit_of (flux s)).
Proof.
  intros Hsame Hv Hlo Hlt. unfold integrate.
  rewrite (resample_returns s [lo; hi] Hsame Hv); [|..|done].
  - cbn. unfold utils.trapezoid_integration. cbn.
    do 2 f_equal. ring.
  - apply validate_wavelengths_intro.
    + left. cbn. rewrite bool_decide_eq_true_2; [done|].
      by apply Qclt_le_weak.
    + apply NoDup_cons. split; [|apply NoDup_singleton].
      intros ->%list_elem_of_singleton. by apply (Qclt_irreflexive hi).
    + repeat constructor; [done|]. by eapply Qclt_trans.
Qed.

(** Where the spectrum has no grid point between [lo] and [hi], the flux
    between the two is that one trapezoid. *)
Lemma flux_between_unsampled (s : Spectrum) (lo hi : Qc) :
  valid s →
  Forall (λ x, ¬ (lo < x ∧ x < hi)) (value (wave s)) →
  flux_between s lo hi =
    (hi - lo) * (value_at s hi + value_at s lo) / qz 2.
Proof.
  intros Hv Hno. unfold flux_between.
  assert (filter (λ x, lo < x ∧ x < hi) (interp_arrays s).1 = []) as ->.
  { destruct (interp_arrays_sorted s Hv) as (xs & fs & -> & _ & _ & _ & Hor).
    cbn.
    assert (Forall (λ x, ¬ (lo < x ∧ x < hi)) xs) as Hxs.
    { destruct Hor as [[-> _]|[-> _]]; [done|]. by apply Forall_reverse. }
    clear -Hxs. induction Hxs as [|x xs Hx _ IH]; [done|].
    by rewrite filter_cons_False. }
  cbn. unfold utils.trapezoid_integration. cbn. ring.
Qed.

(** The significance test in one piece: what [check_overlap] does once
    the two ranges overlap in part. *)
Lemma check_overlap_partial (self other : Spectrum) (threshold : Qc)
    (b : list Qc) (a1 a2 b1 b2 : Qc) :
  spectral_to (unit_of (wave other)) (unit_of (wave self))
              (nonzero_wave other) = Ok b →
  np.min (nonzero_wave self) = Ok a1 → np.max (nonzero_wave self) = Ok a2 →
  np.min b = Ok b1 → np.max b = Ok b2 →
  ¬ (b1 <= a1 ∧ a2 <= b2) → ¬ (a2 < b1 ∨ b2 < a1) →
  check_overlap self other threshold =
    (_ ← utils.validate_totalflux (total_flux self);
     excluded ← end_point_integrals self a1 a2 b1 b2;
     if decide (excluded / total_flux self < threshold)
     then Ok "partial_most" else Ok "partial_notmost").
Proof.
  intros Hb Ha1 Ha2 Hb1 Hb2 Hnf Hnd.
  unfold check_overlap. rewrite Hb. cbn -[integrate].
  unfold utils.overlap_status. rewrite Ha1, Ha2, Hb1, Hb2.
  cbn -[integrate].
  assert (bool_decide (b1 <= a1) && bool_decide (a2 <= b2) = false)
    as ->.
  { apply andb_false_iff.
    destruct (decide (b1 <= a1)); [|left; by apply bool_decide_eq_false_2].
    right. apply bool_decide_eq_false_2. tauto. }
  assert (bool_decide (a2 < b1) || bool_decide (b2 < a1) = false) as ->.
  { apply orb_false_iff.
    split; apply bool_decide_eq_false_2; tauto. }
  cbn -[integrate]. rewrite decide_True by done.
  change (integrate self None)
    with (Ok (total_flux self, unit_of (flux self))).
  cbn -[integrate].
  destruct (utils.validate_totalflux (total_flux self));
    [cbn -[integrate]|done].
  unfold end_point_integrals.
  destruct (decide (a1 < b1)); cbn -[integrate].
  - destruct (integrate self (Some (Raw [a1; b1]))) as [[e1 u1]|];
      [cbn -[integrate]|done].
    destruct (decide (b2 < a2)); cbn -[integrate].
    + destruct (integrate self (Some (Raw [b2; a2]))) as [[e2 u2]|];
        [cbn|done].
      by replace (0 + e1 + e2) with (e1 + e2) by ring.
    + by replace (e1 + 0) with (0 + e1) by ring.
  - destruct (decide (b2 < a2)); cbn -[integrate].
    + destruct (integrate self (Some (Raw [b2; a2]))) as [[e2 u2]|];
        [cbn|done].
      by replace (0 + e2) with e2 by ring.
    + by replace (0 + 0) with 0 by ring.
Qed.

(** On a valid spectrum the two integrals of the test return. *)
Lemma end_point_integrals_returns (self : Spectrum) (a1 a2 b1 b2 : Qc) :
  spectral_to_same → valid self →
  np.min (nonzero_wave self) = Ok a1 → ¬ b2 < a1 →
  ∃ e, end_point_integrals self a1 a2 b1 b2 = Ok e ∧
       (tails_unsampled self a1 a2 b1 b2 →
        e = tail_flux self a1 a2 b1 b2).
Proof.
  intros Hsame Hv Ha1 Hb2.
  assert (0 < a1) as Hpos.
  { apply np_min_spec in Ha1 as [Hin _].
    apply nonzero_wave_subset in Hin.
    pose proof Hv as (_ & _ & Hw & _).
    apply validate_wavelengths_ok in Hw as (_ & _ & Hall).
    rewrite Forall_forall in Hall. by apply Hall. }
  assert (0 < b2) as Hpos2.
  { eapply Qclt_le_trans; [exact Hpos|]. by apply Qcnot_lt_le. }
  assert (tails_unsampled self a1 a2 b1 b2 →
          Forall (λ x, ¬ (a1 < x ∧ x < b1)) (value (wave self)) ∧
          Forall (λ x, ¬ (b2 < x ∧ x < a2)) (value (wave self)))
    as Hsplit.
  { intros Hno. split; (eapply Forall_impl; [exact Hno|]); cbn; tauto. }
  unfold end_point_integrals, tail_flux.
  destruct (decide (a1 < b1)) as [Hl|Hl];
    destruct (decide (b2 < a2)) as [Hr|Hr];
    rewrite ?(integrate_two_points self a1 b1 Hsame Hv Hpos Hl),
            ?(integrate_two_points self b2 a2 Hsame Hv Hpos2 Hr);
    cbn -[flux_between value_at]; eexists; (split; [reflexivity|]);
    intros [Hno1 Hno2]%Hsplit;
    by rewrite ?(flux_between_unsampled self a1 b1 Hv Hno1),
               ?(flux_between_unsampled self b2 a2 Hv Hno2).
Qed.


End OverlapSignificance.


(** * The properties on the concrete spectra *)

Import Examples.

Lemma incompatible_operands_witness :
  incompatible star band_v Add ∧
  _operate_on star (PySpec band_v) Add = Raise IncompatibleSources ∧
  operator Add star (PySpec band_v) = Raise IncompatibleSources.
Proof.
  assert (incompatible star band_v Add) as H.
  { right; right; right. split; [by left|]. left. by split. }
  split; [exact H|]. exact (incompatible_operands _ _ _ H).
Defined.

Lemma renorm_overlap_witness :
  check_overlap band_wide star (qfrac 1 100) = Ok "partial_notmost" ∧
  renorm star (Number (qz 2)) (PySpec band_wide) false PyNone =
    Raise PartialOverlap ∧
  ∃ r, renorm star (Number (qz 2)) (PySpec band_wide) true PyNone = Ok r ∧
       warnings r !! "PartialRenorm" = Some partial_notmost_warning.
Proof.
  assert (check_overlap band_wide star (qfrac 1 100) = Ok "partial_notmost")
    as Hs by by_compute.
  destruct (renorm_overlap star band_wide (Number (qz 2)) PyNone _
              eq_refl Hs) as (_ & Hno & _ & Hforce & _).
  split; [exact Hs|]. split; [by apply Hno|].
  destruct (Hforce eq_refl) as [_ Hw].
  destruct (renorm star (Number (qz 2)) (PySpec band_wide) true PyNone)
    as [r|e] eqn:E.
  - exists r. split; [done|]. by apply Hw.
  - exfalso. revert E. by vm_compute.
Defined.



Lemma result_metadata_witness :
  ∃ r, operator Mul star (PySpec band_v) = Ok r ∧
       metadata r = {[ "expr" := "SourceSpectrum"; "owner" := "star";
                       "filter" := "V" ]} ∧
       operator Mul (set_warnings star {[ "NegativeFlux" := "old" ]})
                (PySpec (set_warnings band_v {[ "PartialRenorm" := "old" ]})) =
         Ok r.
Proof.
  destruct (operator Mul star (PySpec band_v)) as [r|e] eqn:E.
  - exists r. split; [done|].
    destruct (result_metadata _ _ _ _ E) as ((Hmd & _) & _ & Hw & _).
    split; [rewrite Hmd; by_compute | apply (Hw _ _)].
  - exfalso. revert E. by vm_compute.
Defined.

(** The claim before its amendment fails on passband times source: on a
    key that both operands hold, the value of the right operand (the
    source) is kept. *)
Lemma passband_times_source_metadata :
  metadata band_v !! "owner" = Some "band" ∧
  metadata star !! "owner" = Some "star" ∧
  (r ← operator Mul band_v (PySpec star); Ok (metadata r !! "owner")) =
    Ok (Some "star").
Proof. repeat split; by_compute. Qed.

Lemma resample_own_grid_witness :
  valid star ∧ valid falling ∧
  resample star (Qty (wave star)) = Ok (flux star) ∧
  resample falling (Qty (wave falling)) = Ok (flux falling) ∧
  resample falling (Raw (value (wave falling))) = Ok (flux falling).
Proof.
  assert (valid star) as Hs by by_compute.
  assert (valid falling) as Hf by by_compute.
  split; [exact Hs|]. split; [exact Hf|].
  split; [|exact (resample_own_grid falling units_spectral_same Hf)].
  apply (resample_own_grid star units_spectral_same Hs).
Defined.

Lemma scalar_identities_witness :
  valid falling ∧
  operator Add falling (PyNum 0) =
    Ok {| cls := SourceSpectrum; wave := wave falling; flux := flux falling;
          primary_area := None;
          metadata := {[ "expr" := "SourceSpectrum" ]}; warnings := ∅ |} ∧
  operator Mul falling (PyNum 1) =
    Ok {| cls := SourceSpectrum; wave := wave falling; flux := flux falling;
          primary_area := None;
          metadata := {[ "expr" := "SourceSpectrum" ]}; warnings := ∅ |}.
Proof.
  assert (valid falling) as Hv by by_compute.
  split; [exact Hv|].
  destruct (scalar_identities falling units_to_same Hv) as [Ha Hm].
  split; [rewrite Ha | rewrite Hm]; by_compute.
Defined.

Lemma passband_times_source_witness :
  __mul__ band_v (PySpec star) = __mul__ star (PySpec band_v) ∧
  ∃ r, __mul__ band_v (PySpec star) = Ok r ∧
       cls r = SourceSpectrum ∧ cls r ≠ cls band_v.
Proof.
  destruct (passband_times_source band_v star eq_refl eq_refl)
    as (_ & Hcomm & Hcls).
  split; [exact Hcomm|].
  destruct (__mul__ band_v (PySpec star)) as [r|e] eqn:E.
  - exists r. split; [done|]. by apply Hcls.
  - exfalso. revert E. by vm_compute.
Defined.

(** One violation of each compatibility rule, and of the rule on
    magnitudes, which [BaseSpectrum] alone can meet. *)
Example incompatible_examples :
  operator Add star (PySpec star_with_area) = Raise IncompatibleSources ∧
  operator Div star (PySpec star) = Raise IncompatibleSources ∧
  operator Mul star (PySpec star) = Raise IncompatibleSources ∧
  operator Sub band_v (PySpec star) = Raise IncompatibleSources ∧
  operator Add (spectrum BaseSpectrum [1; 2]%Z [1; 1]%Z AA mag ∅)
               (PySpec (spectrum BaseSpectrum [1; 2]%Z [1; 1]%Z AA FLAM ∅)) =
    Raise IncompatibleSources ∧
  operator Add star PyOther = Raise IncompatibleSources.
Proof. repeat split; by_compute. Qed.

(** The product of a passband and a source, in either order: values,
    class and metadata.  The engine runs with the source as [self], so on
    a key that both operands hold the source prevails. *)
Example passband_times_source_example :
  (r ← __mul__ band_v (PySpec star);
   Ok (cls r, value (wave r), value (flux r), metadata r)) =
    Ok (SourceSpectrum, qz <$> [3000; 4000; 5000; 6000]%Z,
        qz <$> [1; 1; 1; 1]%Z,
        {[ "expr" := "SourceSpectrum"; "owner" := "star"; "filter" := "V" ]}) ∧
  __mul__ star (PySpec band_v) = __mul__ band_v (PySpec star).
Proof. split; by_compute. Qed.

(** Resampling inside the grid interpolates, outside it repeats the end
    value, and follows the order of the requested wavelengths. *)
Example resample_examples :
  (r ← resample falling (Raw (qz <$> [3500; 4500]%Z)); Ok (value r)) =
    Ok [qfrac 3 2; qfrac 5 2] ∧
  (r ← resample falling (Raw (qz <$> [4500; 3500; 2000]%Z)); Ok (value r)) =
    Ok [qfrac 5 2; qfrac 3 2; 1].
Proof. split; by_compute. Qed.

(** Redshift on a length grid and on a frequency grid; a redshift below
    [-1] is stopped by the validation of the new grid. *)
Example apply_redshift_examples :
  (r ← apply_redshift star (PyNum 1); Ok (value (wave r))) =
    Ok (qz <$> [6000; 8000; 10000; 12000]%Z) ∧
  (r ← apply_redshift radio (PyNum 1); Ok (value (wave r))) =
    Ok (qz <$> [50; 100; 200]%Z) ∧
  apply_redshift star (PyNum (qz (-2))) = Raise ZeroWavelength ∧
  apply_redshift star PyNone = Raise SynphotError.
Proof. repeat split; by_compute. Qed.

(** Tapering adds a zero at each end that is not zero, once. *)
Example taper_examples :
  (r ← taper falling; Ok (value (wave r), value (flux r))) =
    Ok ([qz 7200; qz 6000; qz 5000; qz 4000; qz 3000; qz 2250],
        [0; qz 4; qz 3; qz 2; qz 1; 0]) ∧
  (r ← taper falling; taper r) = taper falling ∧
  taper band_blank = Ok band_blank.
Proof. repeat split; by_compute. Qed.

(** The four overlap classes, with [star] as the second spectrum. *)
Example check_overlap_examples :
  check_overlap band_v star (qfrac 1 100) = Ok "full" ∧
  check_overlap band_blue star (qfrac 1 100) = Ok "none" ∧
  check_overlap band_wide star (qfrac 1 100) = Ok "partial_notmost" ∧
  check_overlap band_wide star (qfrac 1 2) = Ok "partial_most".
Proof. repeat split; by_compute. Qed.

(** Renormalising [star] to 2 FLAM.  A disjoint band is refused with or
    without [force]; a band that reaches past the source needs [force]
    and leaves a warning.  Through [band_v], whose throughput does not
    fall to zero at its ends and is therefore held at its end value over
    the whole merged grid, the factor is 2/3; through the same band
    tapered it is 2. *)
Example renorm_examples :
  renorm star (Number (qz 2)) (PySpec band_blue) false PyNone =
    Raise DisjointError ∧
  renorm star (Number (qz 2)) (PySpec band_blue) true PyNone =
    Raise DisjointError ∧
  renorm star (Number (qz 2)) (PySpec band_wide) false PyNone =
    Raise PartialOverlap ∧
  (r ← renorm star (Number (qz 2)) (PySpec band_wide) true PyNone;
   Ok (value (flux r), dom (warnings r))) =
    Ok ([qfrac 3 2; qfrac 3 2; qfrac 3 2; qfrac 3 2], {[ "PartialRenorm" ]}) ∧
  (r ← renorm star (Number (qz 2)) (PySpec band_v) false PyNone;
   Ok (value (flux r), warnings r)) =
    Ok ([qfrac 2 3; qfrac 2 3; qfrac 2 3; qfrac 2 3], ∅) ∧
  (b ← taper band_v;
   r ← renorm star (Number (qz 2)) (PySpec b) false PyNone;
   Ok (value (flux r), warnings r)) =
    Ok ([qz 2; qz 2; qz 2; qz 2], ∅) ∧
  renorm star (Number (qz 2)) (PySpec star) false PyNone =
    Raise SynphotError.
Proof. repeat split; by_compute. Qed.

(** ** The further properties on the concrete spectra *)

Lemma units_convert_flux_same : convert_flux_same.
Proof. intros wu w fu f area. cbn. unfold Units.flux_to. by rewrite decide_True. Qed.

Lemma resample_pointwise_witness :
  valid falling ∧
  resample falling (Raw [qz 3500; qz 4500]) =
    Ok {| value := value_at falling <$> [qz 3500; qz 4500];
          unit_of := unit_of (flux falling) |} ∧
  (q ← resample falling (Raw [qz 3500; qz 4500]); Ok (value q !! 1%nat)) =
  (q ← resample falling (Raw [qz 4500]); Ok (value q !! 0%nat)).
Proof.
  assert (valid falling) as Hv by by_compute.
  assert (utils.validate_wavelengths [qz 3500; qz 4500] = Ok ()) as Hw
    by by_compute.
  destruct (resample_pointwise falling [qz 3500; qz 4500]
              units_spectral_same Hv Hw) as [H1 H2]; [done|].
  split; [exact Hv|]. split; [exact H1|]. by apply H2.
Defined.

Lemma resample_storage_order_witness :
  valid falling ∧
  resample (reversed falling) (Raw [qz 3500; qz 4500]) =
  resample falling (Raw [qz 3500; qz 4500]).
Proof.
  assert (valid falling) as Hv by by_compute.
  split; [exact Hv|].
  apply (resample_storage_order falling _ units_spectral_same Hv).
Defined.


Lemma resample_outside_grid_witness :
  valid falling ∧
  ∃ q, resample falling (Raw [qz 2000; qz 9000]) = Ok q ∧
       value q !! 0%nat = Some 1 ∧ value q !! 1%nat = Some (qz 4).
Proof.
  assert (valid falling) as Hv by by_compute.
  split; [exact Hv|].
  set (q := returned (flux falling)
              (resample falling (Raw [qz 2000; qz 9000]))).
  assert (resample falling (Raw [qz 2000; qz 9000]) = Ok q) as E
    by by_compute.
  exists q. split; [done|]. split.
  - destruct (resample_outside_grid falling _ q 3 (qz 3000) 1
                units_spectral_same Hv E eq_refl eq_refl) as [Hlow _].
    apply (Hlow ltac:(by_compute) 0%nat (qz 2000) eq_refl). by_compute.
  - destruct (resample_outside_grid falling _ q 0 (qz 6000) (qz 4)
                units_spectral_same Hv E eq_refl eq_refl) as [_ Hhigh].
    apply (Hhigh ltac:(by_compute) 1%nat (qz 9000) eq_refl). by_compute.
Defined.

Lemma trim_spectrum_selects_witness :
  valid star ∧
  ∃ r, trim_spectrum star (Number (qz 3500)) (Number (qz 5000)) = Ok r ∧
       value (wave r) =
         filter (λ x, qz 3500 <= x ∧ x <= qz 5000) (value (wave star)) ∧
       metadata r = metadata star ∧ valid r.
Proof.
  assert (valid star) as Hv by by_compute.
  split; [exact Hv|].
  destruct (trim_spectrum_selects star (qz 3500) (qz 5000)
              units_to_same Hv ltac:(by vm_compute) ltac:(by_compute))
    as (r & Hr & _ & _ & Hmd & _ & _ & _ & Hw & _ & Hvr).
  by exists r.
Defined.

Lemma trim_spectrum_empty_witness :
  valid star ∧
  trim_spectrum star (Number (qz 7000)) (Number (qz 8000)) =
    Raise ValueError ∧
  trim_spectrum star (Number (qz 5000)) (Number (qz 4000)) =
    Raise ValueError.
Proof.
  assert (valid star) as Hv by by_compute.
  split; [exact Hv|]. split.
  - destruct (trim_spectrum_empty star (qz 7000) (qz 8000)
                units_to_same Hv ltac:(by vm_compute)) as [H _].
    apply H. by_compute.
  - destruct (trim_spectrum_empty star (qz 5000) (qz 4000)
                units_to_same Hv ltac:(by vm_compute)) as [_ H].
    apply H. by_compute.
Defined.

Lemma trim_spectrum_compose_witness :
  valid star ∧
  (r ← trim_spectrum star (Number (qz 3500)) (Number (qz 5500));
   trim_spectrum r (Number (qz 4500)) (Number (qz 7000))) =
  trim_spectrum star (Number (np.maximum (qz 3500) (qz 4500)))
                     (Number (np.minimum (qz 5500) (qz 7000))).
Proof.
  assert (valid star) as Hv by by_compute.
  split; [exact Hv|].
  apply (trim_spectrum_compose star _ _ _ _ units_to_same Hv).
  by vm_compute.
Defined.

Lemma trim_spectrum_covering_witness :
  valid star ∧
  trim_spectrum star (Number (qz 1000)) (Number (qz 9000)) =
    Ok (set_warnings star ∅).
Proof.
  assert (valid star) as Hv by by_compute.
  split; [exact Hv|].
  apply (trim_spectrum_covering star _ _ units_to_same Hv);
    [by vm_compute|by_compute].
Defined.

Lemma scalar_operation_witness :
  valid falling ∧
  ∃ r, operator Sub falling (PyNum (qz 2)) = Ok r ∧
       wave r = wave falling ∧
       value (flux r) !! 0%nat = Some (np.maximum (scalar_op Sub (qz 4) (qz 2)) 0) ∧
       value (flux r) !! 3%nat = Some (np.maximum (scalar_op Sub 1 (qz 2)) 0) ∧
       valid r.
Proof.
  assert (valid falling) as Hv by by_compute.
  split; [exact Hv|].
  destruct (scalar_operation falling Sub (qz 2) units_to_same Hv
              ltac:(by vm_compute) ltac:(done))
    as (r & Hr & _ & Hw & _ & _ & _ & Hval & _ & Hvr).
  exists r. split; [done|]. split; [done|].
  split; [by apply Hval|]. split; [by apply Hval|done].
Defined.

Lemma negative_factor_zeroes_witness :
  valid falling ∧
  ∃ r, operator Mul falling (PyNum (qz (-1))) = Ok r ∧
       wave r = wave falling ∧
       Forall (λ y, y = 0) (value (flux r)).
Proof.
  assert (valid falling) as Hv by by_compute.
  split; [exact Hv|].
  destruct (negative_factor_zeroes falling (qz (-1)) units_to_same Hv
              ltac:(by vm_compute) ltac:(by_compute))
    as (r & Hr & Hw & _ & Hz & _).
  by exists r.
Defined.

Lemma magnitudes_do_not_mix_witness :
  mag_mismatch in_magnitudes in_flam ∧
  _operate_on in_magnitudes (PySpec in_flam) Add = Raise IncompatibleSources ∧
  operator Add in_magnitudes (PySpec in_flam) = Raise IncompatibleSources.
Proof.
  assert (mag_mismatch in_magnitudes in_flam) as Hm
    by (left; by vm_compute).
  split; [exact Hm|].
  destruct (magnitudes_do_not_mix in_magnitudes in_flam Add Hm) as [H1 H2].
  split; [exact H1|]. by apply H2.
Defined.

Lemma operator_result_valid_witness :
  ∃ r, operator Mul band_v (PySpec star) = Ok r ∧
       valid r ∧ cls r = SourceSpectrum.
Proof.
  set (r := returned star (operator Mul band_v (PySpec star))).
  assert (operator Mul band_v (PySpec star) = Ok r) as E by by_compute.
  exists r. split; [done|].
  destruct (operator_result_valid band_v (PySpec star) Mul r E) as [Hv Hc].
  split; [|exact Hc]. apply Hv. by vm_compute.
Defined.

Lemma subtract_itself_witness :
  ∃ r, operator Sub star (PySpec star) = Ok r ∧
       Forall (λ y, y = 0) (value (flux r)) ∧ warnings r = ∅.
Proof.
  set (r := returned star (operator Sub star (PySpec star))).
  assert (operator Sub star (PySpec star) = Ok r) as E by by_compute.
  exists r. split; [done|].
  destruct (subtract_itself star r units_to_same units_convert_flux_same E)
    as (Hz & Hw & _).
  by split.
Defined.

Lemma taper_adds_end_points_witness :
  ∃ s' front back,
    taper falling = Ok s' ∧
    value (wave s') = front ++ value (wave falling) ++ back ∧
    value (flux s') =
      ((λ _, 0) <$> front) ++ value (flux falling) ++ ((λ _, 0) <$> back) ∧
    metadata s' = metadata falling.
Proof.
  set (s' := returned falling (taper falling)).
  assert (taper falling = Ok s') as E by by_compute.
  destruct (taper_adds_end_points falling s' E)
    as (front & back & Hw & Hf & _ & _ & _ & _ & _ & _ & Hmd & _).
  by exists s', front, back.
Defined.

Lemma taper_valid_witness :
  valid falling ∧ ∃ s', taper falling = Ok s' ∧ valid s'.
Proof.
  assert (valid falling) as Hv by by_compute.
  split; [exact Hv|].
  set (s' := returned falling (taper falling)).
  assert (taper falling = Ok s') as E by by_compute.
  exists s'. split; [done|]. exact (taper_valid falling s' Hv E).
Defined.

Lemma taper_single_point_witness :
  valid band_point ∧ valid falling ∧
  taper band_point = Raise IndexError ∧
  ∃ s', taper falling = Ok s'.
Proof.
  assert (valid band_point) as Hp by by_compute.
  assert (valid falling) as Hv by by_compute.
  split; [exact Hp|]. split; [exact Hv|]. split.
  - destruct (taper_single_point band_point Hp) as [H _].
    apply (H (qz 5000) (qz 1)); [done|done|by vm_compute].
  - destruct (taper_single_point falling Hv) as [_ H]. apply H. cbn. lia.
Defined.

Lemma check_overlap_tapered_witness :
  ∃ band', taper band_v = Ok band' ∧
           nonzero_wave band' = nonzero_wave band_v ∧
           check_overlap star band' (qfrac 1 100) =
           check_overlap star band_v (qfrac 1 100).
Proof.
  set (b := returned band_v (taper band_v)).
  assert (taper band_v = Ok b) as E by by_compute.
  exists b. split; [done|].
  apply (check_overlap_tapered star band_v b (qfrac 1 100) eq_refl E).
Defined.

Lemma redshifts_in_a_row_witness :
  valid star ∧
  ∃ r r', apply_redshift star (PyNum 1) = Ok r ∧
          apply_redshift r (PyNum (qz 2)) = Ok r' ∧
          valid r' ∧ flux r' = flux star ∧
          value (wave r') = qz <$> [18000; 24000; 30000; 36000]%Z.
Proof.
  assert (valid star) as Hv by by_compute.
  split; [exact Hv|].
  destruct (redshifts_in_a_row star 1 (qz 2) units_to_same Hv
              ltac:(by_compute) ltac:(by_compute))
    as (r & r' & H1 & _ & H2 & Hv' & _ & Hf & _ & _ & Hw & _).
  exists r, r'. do 4 (split; [done|]).
  rewrite Hw. by_compute.
Defined.

Lemma redshift_below_minus_one_witness :
  valid star ∧ apply_redshift star (PyNum (qz (-2))) = Raise ZeroWavelength.
Proof.
  assert (valid star) as Hv by by_compute.
  split; [exact Hv|].
  apply (redshift_below_minus_one star (qz (-2)) Hv). by_compute.
Defined.

Lemma constructor_invariants_witness :
  ∃ s, __init__ SpectralElement (Raw [qz 4000; qz 5000])
                (Raw [qz 1; qz (-1)]) FLAM None {[ "filter" := "V" ]} = Ok s ∧
       valid s ∧ cls s = SpectralElement ∧
       __str__ s = Ok "SpectralElement" ∧
       metadata s !! "filter" = Some "V".
Proof.
  set (s := returned band_v
              (__init__ SpectralElement (Raw [qz 4000; qz 5000])
                 (Raw [qz 1; qz (-1)]) FLAM None {[ "filter" := "V" ]})).
  assert (__init__ SpectralElement (Raw [qz 4000; qz 5000])
            (Raw [qz 1; qz (-1)]) FLAM None {[ "filter" := "V" ]} = Ok s)
    as E by by_compute.
  exists s. split; [done|].
  destruct (constructor_invariants _ _ _ _ _ _ s E)
    as (Hv & Hc & Hs & Hk); [by vm_compute|].
  split; [exact Hv|]. split; [exact Hc|]. split; [exact Hs|].
  by rewrite Hk.
Defined.

Lemma default_header_shared_witness :
  ∃ s1 d1 s2 d2,
    init_default_header ∅ SourceSpectrum (Raw [qz 4000; qz 5000])
                        (Raw [qz 1; qz 2]) FLAM None = Ok (s1, d1) ∧
    init_default_header d1 SpectralElement (Raw [qz 4000; qz 5000])
                        (Raw [qz 1; qz 1]) FLAM None = Ok (s2, d2) ∧
    cls s2 = SpectralElement ∧ __str__ s2 = Ok "SourceSpectrum" ∧
    metadata s2 = metadata s1.
Proof.
  set (p1 := returned (star, ∅)
               (init_default_header ∅ SourceSpectrum
                  (Raw [qz 4000; qz 5000]) (Raw [qz 1; qz 2]) FLAM None)).
  set (p2 := returned (star, ∅)
               (init_default_header p1.2 SpectralElement
                  (Raw [qz 4000; qz 5000]) (Raw [qz 1; qz 1]) FLAM None)).
  assert (init_default_header ∅ SourceSpectrum (Raw [qz 4000; qz 5000])
            (Raw [qz 1; qz 2]) FLAM None = Ok (p1.1, p1.2)) as E1
    by by_compute.
  assert (init_default_header p1.2 SpectralElement (Raw [qz 4000; qz 5000])
            (Raw [qz 1; qz 1]) FLAM None = Ok (p2.1, p2.2)) as E2
    by by_compute.
  exists p1.1, p1.2, p2.1, p2.2. split; [done|]. split; [done|].
  destruct (default_header_shared _ _ _ _ _ _ _ _ _ _ _ _ _ _ E1 E2)
    as (_ & _ & Hmd & _ & Hs & Hc).
  by repeat split.
Defined.

Lemma integrate_own_grid_witness :
  valid falling ∧
  integrate falling (Some (Qty (wave falling))) = integrate falling None ∧
  integrate falling (Some (Raw (value (wave falling)))) =
    integrate falling None.
Proof.
  assert (valid falling) as Hv by by_compute.
  split; [exact Hv|].
  apply (integrate_own_grid falling units_spectral_same Hv).
Defined.

Lemma renorm_rescales_witness :
  ∃ r, renorm star (Number (qz 2)) (PySpec band_v) false PyNone = Ok r ∧
       cls r = cls star ∧ wave r = wave star ∧
       unit_of (flux r) = unit_of (flux star).
Proof.
  set (r := returned star
              (renorm star (Number (qz 2)) (PySpec band_v) false PyNone)).
  assert (renorm star (Number (qz 2)) (PySpec band_v) false PyNone = Ok r)
    as E by by_compute.
  exists r. split; [done|].
  destruct (renorm_rescales star _ _ _ _ r E) as (Hc & Hw & Hu & _).
  by repeat split.
Defined.

Lemma wpeak_first_peak_witness :
  valid band_peaked ∧
  ∃ i t w,
    tpeak band_peaked = Ok (t, unit_of (flux band_peaked)) ∧
    wpeak Units.as_length band_peaked = Ok (w, unit_of (wave band_peaked)) ∧
    value (flux band_peaked) !! i = Some t ∧
    value (wave band_peaked) !! i = Some w ∧
    (∀ j y, (j < i)%nat → value (flux band_peaked) !! j = Some y → y < t).
Proof.
  assert (valid band_peaked) as Hv by by_compute.
  split; [exact Hv|].
  destruct (wpeak_first_peak Units.as_length band_peaked (wave band_peaked)
              Hv eq_refl eq_refl) as (i & t & w & H1 & H2 & H3 & H4 & _ & H5).
  by exists i, t, w.
Defined.

Lemma rectwidth_zero_peak_witness :
  valid band_blank ∧
  tpeak band_blank = Ok (0, THROUGHPUT) ∧
  equivwidth Units.as_length band_blank = Ok (0, AA) ∧
  rectwidth Units.as_length band_blank = Ok (0, AA).
Proof.
  assert (valid band_blank) as Hv by by_compute.
  split; [exact Hv|].
  destruct (rectwidth_zero_peak Units.as_length band_blank
              (wave band_blank) Hv ltac:(by vm_compute) eq_refl)
    as (t & ew & rw & u & Ht & He & Hr & Hz & H0 & _).
  assert (t = 0) as Et by (apply Hz; by_compute).
  destruct (H0 Et) as (Ew & Er & Eu).
  rewrite Ht, He, Hr, Et, Ew, Er, Eu. done.
Defined.

Lemma add_itself_doubles_witness :
  valid star ∧
  operator Add star (PySpec star) = operator Mul star (PyNum (qz 2)).
Proof.
  assert (valid star) as Hv by by_compute.
  split; [exact Hv|].
  apply (add_itself_doubles star units_to_same units_spectral_same
           units_convert_flux_same Hv);
    [by vm_compute|by vm_compute|by_compute].
Defined.
